(** * Instrumented sorting engine (services/sortingService.ts) and its host
      (App.tsx, useArenaState): a shallow embedding and its properties.

    Modelling conventions.
    - A JavaScript [number] held in the array is an integer ([Z]); arithmetic
      is exact.  [NaN], infinities and fractional values are not represented.
      The source computes in doubles: comparisons and copies of cells are
      exact on every integer, but the quotients of [radixSortFunc] and
      [bucketSortFunc] are rounded.  On the safe integers (magnitude up to
      [Number.MAX_SAFE_INTEGER], [2^53 - 1]) the rounding does not show: the
      floor of the rounded quotient [a / exp] is the floor of the exact one,
      and the rounded bucket index is monotone in the cell and within the
      buckets exactly when the exact one is.  The statements about these two
      variants are made for arrays of safe integers ([safe]).
    - A run owns three kinds of array objects: the caller's [initialArray],
      the private working copy [arr], and the copies [[...arr]] handed to the
      callback.  They are told apart by [ArrayRef]; the callback receives a
      reference and whatever it does to the referenced array is written back
      through that reference.
    - [await] is a suspension point: the clock only advances there, by an
      amount the environment chooses, and the host may run other handlers.
    - A run in which the pause predicate never becomes false again does not
      finish; the environment script lists, for every emit, the finitely
      many sleeps of the pause loop.
    - A read of an array cell that holds [undefined], or a write that would
      leave a hole, leaves the model ([OffModel]).
    - The limits of the engine on the depth of the call stack and on the
      number of arguments of a call are not represented. *)

From Stdlib Require Import ZArith String Ascii List Sorted Permutation Lia.
From stdpp Require Import base list strings relations.

Open Scope Z_scope.

(** ** Data model (types.ts) *)

Record SortStats := mkStats {
  comparisons : Z;
  swaps : Z;
  writes : Z;
  time : Z
}.

(** [Partial<SortStats>]: the fields present in the object. *)
Record PartialStats := mkPartial {
  p_comparisons : option Z;
  p_swaps : option Z;
  p_writes : option Z;
  p_time : option Z
}.

Record Highlight := mkHighlight {
  comparing : option (list Z);
  swapping : option (list Z)
}.

Inductive AlgorithmKey :=
  | bubbleSort | selectionSort | insertionSort | quickSort | mergeSort
  | heapSort | radixSort | bucketSort | bogoSort | userCode.

(** A thrown value: an instance of [Error] with its [message] and [stack],
    or anything else. *)
Inductive JsThrown :=
  | JsError (message : string) (stack : option string)
  | JsOther.

(** The array objects of one run. *)
Inductive ArrayRef :=
  | InitialArray
  | WorkingArray
  | Snapshot (k : nat).

(** One invocation of the [UpdateCallback], as the engine made it: the
    reference passed, the contents of that array at the call, and the other
    three arguments. *)
Record Call := mkCall {
  call_ref : ArrayRef;
  call_arr : list Z;
  call_highlights : Highlight;
  call_stats : SortStats;
  call_error : option string
}.

Definition no_highlight : Highlight := mkHighlight None None.
Definition no_update : PartialStats := mkPartial None None None None.
Definition zero_stats : SortStats := mkStats 0 0 0 0.

(** [Object.assign(stats, statUpdate)] *)
Definition assign_stats (s : SortStats) (d : PartialStats) : SortStats :=
  mkStats (default (comparisons s) (p_comparisons d))
          (default (swaps s) (p_swaps d))
          (default (writes s) (p_writes d))
          (default (time s) (p_time d)).

(** ** Arrays indexed by JavaScript numbers *)

Definition in_range (l : list Z) (i : Z) : Prop := 0 <= i < Z.of_nat (length l).

Definition in_rangeb (l : list Z) (i : Z) : bool :=
  (0 <=? i) && (i <? Z.of_nat (length l)).

(** [l[i]] for an index in range. *)
Definition sel (l : list Z) (i : Z) : Z := nth (Z.to_nat i) l 0.

(** [l[i] = v] for an index in range. *)
Definition upd (l : list Z) (i : Z) (v : Z) : list Z := <[Z.to_nat i := v]> l.

Definition len (l : list Z) : Z := Z.of_nat (length l).

(** ** The stack pattern [/<anonymous>:(\d+):(\d+)/] *)

Definition is_digit (c : ascii) : bool :=
  let n := nat_of_ascii c in ((48 <=? n) && (n <=? 57))%nat.

(** The longest run of digits at the head, and the rest. *)
Fixpoint span_digits (s : string) : string * string :=
  match s with
  | String c s' =>
      if is_digit c
      then let '(d, r) := span_digits s' in (String c d, r)
      else (EmptyString, s)
  | EmptyString => (EmptyString, EmptyString)
  end.

Fixpoint strip_prefix (p s : string) : option string :=
  match p, s with
  | EmptyString, _ => Some s
  | String a p', String b s' =>
      if Ascii.eqb a b then strip_prefix p' s' else None
  | String _ _, EmptyString => None
  end.

(** The pattern matched at the head of [s]. *)
Definition location_here (s : string) : option (string * string) :=
  match strip_prefix "<anonymous>:" s with
  | Some r =>
      match span_digits r with
      | (String c line, String ":" r') =>
          match span_digits r' with
          | (String c' column, _) => Some (String c line, String c' column)
          | _ => None
          end
      | _ => None
      end
  | None => None
  end.

(** [stack.match(...)]: the leftmost match. *)
Fixpoint find_location (s : string) : option (string * string) :=
  match location_here s with
  | Some m => Some m
  | None =>
      match s with
      | String _ s' => find_location s'
      | EmptyString => None
      end
  end.

Section Engine.

Context {Host : Type}.

(** What the awaited callback leaves behind: the host's state, the contents
    of the array it was given, and how long the await took. *)
Record CallbackResult := mkCallbackResult {
  cb_host : Host;
  cb_arr : list Z;
  cb_took : Z
}.

Definition UpdateCallback : Type :=
  list Z -> Highlight -> SortStats -> option string -> Host -> CallbackResult.

(** What the environment does during one emit: [paused] is [None] when
    [getIsPaused()] is false at the first poll, and otherwise lists the
    durations of the [sleep(50)] calls awaited until the predicate is seen
    false; [delay] is [getDelay()], [delay_took] the duration of
    [sleep(delay)]; [meanwhile] is what other handlers of the host do to its
    state while the engine is suspended. *)
Record Pacing := mkPacing {
  paused : option (list Z);
  delay : Z;
  delay_took : Z;
  meanwhile : Host -> Host
}.

Record Env := mkEnv {
  initial : list Z;
  snaps : list (list Z);
  host : Host;
  calls : list Call;
  clock : Z;
  pausedTime : Z;
  pauseStartTime : Z;
  emits : nat;
  draws : nat
}.

Record World := mkWorld {
  arr : list Z;
  stats : SortStats;
  env : Env
}.

Inductive Outcome (A : Type) :=
  | Done (a : A) (w : World)
  | Throw (e : JsThrown) (w : World)
  | OutOfFuel
  | OffModel.

Arguments Done {A} a w.
Arguments Throw {A} e w.
Arguments OutOfFuel {A}.
Arguments OffModel {A}.

Definition M (A : Type) : Type := World -> Outcome A.

Definition ret {A} (a : A) : M A := fun w => Done a w.

Definition bind {A B} (m : M A) (k : A -> M B) : M B :=
  fun w =>
    match m w with
    | Done a w' => k a w'
    | Throw e w' => Throw e w'
    | OutOfFuel => OutOfFuel
    | OffModel => OffModel
    end.

Definition throw {A} (e : JsThrown) : M A := fun w => Throw e w.

(** [try { m } catch (e) { h e }] *)
Definition try_catch {A} (m : M A) (h : JsThrown -> M A) : M A :=
  fun w =>
    match m w with
    | Throw e w' => h e w'
    | o => o
    end.

Notation "x <- m ;; k" := (bind m (fun x => k))
  (at level 100, m at next level, right associativity).
Notation "m ;; k" := (bind m (fun _ => k))
  (at level 100, right associativity).

(** *** Loops *)

(** [for (let i = lo; i < hi; i++) body], with the locals the body changes
    threaded as [s]. *)
Fixpoint for_up {S} (n : nat) (i : Z) (body : Z -> S -> M S) (s : S) : M S :=
  match n with
  | O => ret s
  | Datatypes.S n' => s' <- body i s ;; for_up n' (i + 1) body s'
  end.

Definition for_range {S} (lo hi : Z) (body : Z -> S -> M S) (s : S) : M S :=
  for_up (Z.to_nat (hi - lo)) lo body s.

(** [for (let i = hi; i >= lo; i--) body] *)
Fixpoint for_down {S} (n : nat) (i : Z) (body : Z -> S -> M S) (s : S) : M S :=
  match n with
  | O => ret s
  | Datatypes.S n' => s' <- body i s ;; for_down n' (i - 1) body s'
  end.

Definition for_range_down {S} (hi lo : Z) (body : Z -> S -> M S) (s : S) : M S :=
  for_down (Z.to_nat (hi - lo + 1)) hi body s.

(** [while (cond) body] *)
Fixpoint while_loop {S} (fuel : nat) (cond : S -> M bool) (body : S -> M S)
    (s : S) : M S :=
  match fuel with
  | O => fun _ => OutOfFuel
  | Datatypes.S f =>
      b <- cond s ;;
      if b : bool then s' <- body s ;; while_loop f cond body s' else ret s
  end.

(** *** The run's objects *)

Definition with_env (f : Env -> Env) (w : World) : World :=
  mkWorld (arr w) (stats w) (f (env w)).

Definition with_stats (f : SortStats -> SortStats) (w : World) : World :=
  mkWorld (arr w) (f (stats w)) (env w).

Definition rd (i : Z) : M Z :=
  fun w => if in_rangeb (arr w) i then Done (sel (arr w) i) w else OffModel.

Definition wr (i v : Z) : M unit :=
  fun w =>
    if in_rangeb (arr w) i
    then Done tt (mkWorld (upd (arr w) i v) (stats w) (env w))
    else OffModel.

Definition arr_length : M Z := fun w => Done (len (arr w)) w.

(** [[arr[i], arr[j]] = [arr[j], arr[i]]] *)
Definition swap_cells (i j : Z) : M unit :=
  a <- rd j ;; b <- rd i ;; wr i a ;; wr j b.

Definition incr_comparisons : M unit :=
  fun w => Done tt (with_stats (fun s =>
    mkStats (comparisons s + 1) (swaps s) (writes s) (time s)) w).

Definition incr_swaps : M unit :=
  fun w => Done tt (with_stats (fun s =>
    mkStats (comparisons s) (swaps s + 1) (writes s) (time s)) w).

Definition add_writes (k : Z) : M unit :=
  fun w => Done tt (with_stats (fun s =>
    mkStats (comparisons s) (swaps s) (writes s + k) (time s)) w).

(** *** The heap of array objects *)

Definition deref (r : ArrayRef) (w : World) : list Z :=
  match r with
  | InitialArray => initial (env w)
  | WorkingArray => arr w
  | Snapshot k => nth k (snaps (env w)) []
  end.

Definition set_initial (l : list Z) (e : Env) : Env :=
  mkEnv l (snaps e) (host e) (calls e) (clock e) (pausedTime e)
        (pauseStartTime e) (emits e) (draws e).

Definition set_snap (k : nat) (l : list Z) (e : Env) : Env :=
  mkEnv (initial e) (<[k := l]> (snaps e)) (host e) (calls e) (clock e)
        (pausedTime e) (pauseStartTime e) (emits e) (draws e).

Definition assign (r : ArrayRef) (l : list Z) (w : World) : World :=
  match r with
  | InitialArray => with_env (set_initial l) w
  | WorkingArray => mkWorld l (stats w) (env w)
  | Snapshot k => with_env (set_snap k l) w
  end.

(** [[...arr]]: a new array object with the contents of [arr]. *)
Definition copy_arr (w : World) : ArrayRef * World :=
  (Snapshot (length (snaps (env w))),
   with_env (fun e =>
     mkEnv (initial e) (snaps e ++ [arr w]) (host e) (calls e) (clock e)
           (pausedTime e) (pauseStartTime e) (emits e) (draws e)) w).

(** [performance.now()] *)
Definition now (e : Env) : Z := clock e.

(** [await sleep(ms)], which took [took]. *)
Definition sleep (took : Z) (e : Env) : Env :=
  mkEnv (initial e) (snaps e) (host e) (calls e) (clock e + took)
        (pausedTime e) (pauseStartTime e) (emits e) (draws e).

Definition delivered (c : Call) (r : CallbackResult) (e : Env) : Env :=
  mkEnv (initial e) (snaps e) (cb_host r) (calls e ++ [c]) (clock e + cb_took r)
        (pausedTime e) (pauseStartTime e) (emits e) (draws e).

Definition drawn (e : Env) : Env :=
  mkEnv (initial e) (snaps e) (host e) (calls e) (clock e) (pausedTime e)
        (pauseStartTime e) (emits e) (S (draws e)).

(** What user-supplied source text can evaluate to: the step function
    receives [arr] and [stats] (the run's objects) and the [update] closure. *)
Definition UpdateFn : Type := Highlight -> PartialStats -> M unit.
Definition UserFn : Type := UpdateFn -> M unit.

(** [new Function('return ' + userCode)()]: it throws (a [SyntaxError] from
    the constructor, or whatever evaluating the expression throws), or yields
    a value that is callable or not. *)
Inductive EvalOutcome :=
  | EvalThrows (e : JsThrown)
  | EvalNotCallable
  | EvalCallable (f : UserFn).

(** The collaborators of a run: the callback, the pacing sources by emit,
    [Math.random()] by draw, the JavaScript engine (evaluation of source
    text, and the stack text it attaches to an [Error] it constructs), and
    how many shuffles of bogo sort the observer waits for. *)
Record Collaborators := mkCollaborators {
  updateCallback : UpdateCallback;
  pace : nat -> Pacing;
  random : nat -> Z;
  js_eval : string -> EvalOutcome;
  new_stack : string -> option string;
  patience : nat
}.

Section Run.

Variable K : Collaborators.

(** [new Error(message)] *)
Definition new_Error (m : string) : JsThrown := JsError m (new_stack K m).

(** [await updateCallback(r, highlights, stats, errorMessage)] *)
Definition invoke (r : ArrayRef) (h : Highlight) (s : SortStats)
    (err : option string) (w : World) : World :=
  let content := deref r w in
  let res := updateCallback K content h s err (host (env w)) in
  assign r (cb_arr res)
    (with_env (delivered (mkCall r content h s err) res) w).

(** [while (getIsPaused()) await sleep(50)] *)
Fixpoint pause_loop (ds : list Z) (e : Env) : Env :=
  match ds with
  | [] => e
  | d :: ds' => pause_loop ds' (sleep d e)
  end.

Definition pause_step (p : Pacing) (e : Env) : Env :=
  match paused p with
  | None => e
  | Some ds =>
      let e1 := mkEnv (initial e) (snaps e) (host e) (calls e) (clock e)
                      (pausedTime e) (now e) (emits e) (draws e) in
      let e2 := pause_loop ds e1 in
      mkEnv (initial e2) (snaps e2) (host e2) (calls e2) (clock e2)
            (pausedTime e2 + (now e2 - pauseStartTime e2))
            (pauseStartTime e2) (emits e2) (draws e2)
  end.

Definition delay_step (p : Pacing) (e : Env) : Env :=
  if 0 <? delay p then sleep (delay_took p) e else e.

Definition suspended (p : Pacing) (e : Env) : Env :=
  mkEnv (initial e) (snaps e) (meanwhile p (host e)) (calls e) (clock e)
        (pausedTime e) (pauseStartTime e) (S (emits e)) (draws e).

(** The [update] closure of [getAlgorithmRunner]. *)
Definition update (highlights : Highlight) (statUpdate : PartialStats)
    (w : World) : World :=
  let w1 := with_stats (fun s => assign_stats s statUpdate) w in
  let p := pace K (emits (env w1)) in
  let '(r, w2) := copy_arr w1 in
  let w3 := invoke r highlights (stats w1) None w2 in
  with_env (fun e => suspended p (delay_step p (pause_step p e))) w3.

Definition update_fn : UpdateFn := fun h d w => Done tt (update h d w).

(** [await update(h)] *)
Definition emit (h : Highlight) : M unit := update_fn h no_update.

Definition hl_comparing (l : list Z) : Highlight := mkHighlight (Some l) None.
Definition hl_swapping (l : list Z) : Highlight := mkHighlight None (Some l).

(** [Math.floor(Math.random() * bound)] *)
Definition random_below (bound : Z) : M Z :=
  fun w => Done (random K (draws (env w)) mod bound) (with_env drawn w).

(** ** The sorting variants *)

(** *** bubbleSortFunc *)

Definition bubble_pass (n : Z) : M bool :=
  for_range 0 (n - 1) (fun i swapped =>
    incr_comparisons ;;
    emit (hl_comparing [i; i + 1]) ;;
    a <- rd i ;;
    b <- rd (i + 1) ;;
    if b <? a then
      incr_swaps ;;
      add_writes 2 ;;
      swap_cells i (i + 1) ;;
      emit (hl_swapping [i; i + 1]) ;;
      ret true
    else ret swapped) false.

(** [do { ... n-- } while (swapped)] *)
Fixpoint bubble_loop (fuel : nat) (n : Z) : M unit :=
  match fuel with
  | O => fun _ => OutOfFuel
  | S f =>
      swapped <- bubble_pass n ;;
      if swapped : bool then bubble_loop f (n - 1) else ret tt
  end.

Definition bubbleSortFunc : M unit :=
  n <- arr_length ;;
  bubble_loop (S (Z.to_nat n)) n.

(** *** selectionSortFunc *)

Definition selection_min (i n : Z) : M Z :=
  for_range (i + 1) n (fun j minIdx =>
    incr_comparisons ;;
    emit (hl_comparing [minIdx; j]) ;;
    a <- rd j ;;
    b <- rd minIdx ;;
    if a <? b then ret j else ret minIdx) i.

Definition selectionSortFunc : M unit :=
  n <- arr_length ;;
  for_range 0 (n - 1) (fun i _ =>
    minIdx <- selection_min i n ;;
    if negb (minIdx =? i) then
      incr_swaps ;;
      add_writes 2 ;;
      swap_cells i minIdx ;;
      emit (hl_swapping [i; minIdx])
    else ret tt) tt.

(** *** insertionSortFunc *)

(** [while (j >= 0 && arr[j] > current) { ...; j-- }] *)
Definition insertion_shift (i current : Z) : M Z :=
  while_loop (S (Z.to_nat i))
    (fun j => if 0 <=? j then a <- rd j ;; ret (current <? a) else ret false)
    (fun j =>
      incr_comparisons ;;
      incr_swaps ;;
      add_writes 1 ;;
      a <- rd j ;;
      wr (j + 1) a ;;
      emit (hl_swapping [j; j + 1]) ;;
      ret (j - 1))
    (i - 1).

Definition insertionSortFunc : M unit :=
  n <- arr_length ;;
  for_range 1 n (fun i _ =>
    current <- rd i ;;
    emit (hl_comparing [i]) ;;
    j <- insertion_shift i current ;;
    (if 0 <=? j then incr_comparisons else ret tt) ;;
    add_writes 1 ;;
    wr (j + 1) current) tt.

(** *** quickSortFunc *)

Definition quick_partition (low high : Z) : M Z :=
  pivot <- rd high ;;
  i <- for_range low high (fun j i =>
    incr_comparisons ;;
    emit (hl_comparing [j; high]) ;;
    a <- rd j ;;
    if a <? pivot then
      incr_swaps ;;
      add_writes 2 ;;
      swap_cells (i + 1) j ;;
      emit (hl_swapping [i + 1; j]) ;;
      ret (i + 1)
    else ret i) (low - 1) ;;
  incr_swaps ;;
  add_writes 2 ;;
  swap_cells (i + 1) high ;;
  emit (hl_swapping [i + 1; high]) ;;
  ret (i + 1).

Fixpoint quick_sort (fuel : nat) (low high : Z) : M unit :=
  match fuel with
  | O => fun _ => OutOfFuel
  | S f =>
      if low <? high then
        pi <- quick_partition low high ;;
        quick_sort f low (pi - 1) ;;
        quick_sort f (pi + 1) high
      else ret tt
  end.

Definition quickSortFunc : M unit :=
  n <- arr_length ;;
  quick_sort (S (Z.to_nat n)) 0 (n - 1).

(** *** mergeSortFunc *)

(** [for (let i = 0; i < n; i++) L[i] = arr[from + i]] *)
Definition merge_slice (from n : Z) : M (list Z) :=
  for_range 0 n (fun i L => a <- rd (from + i) ;; ret (L ++ [a])) [].

(** [while (i < n) { arr[k++] = L[i++]; ... }] *)
Definition merge_drain (L : list Z) (n : Z) (ik : Z * Z) : M (Z * Z) :=
  while_loop (S (Z.to_nat n))
    (fun '(i, k) => ret (i <? n))
    (fun '(i, k) =>
      wr k (sel L i) ;;
      incr_swaps ;;
      add_writes 1 ;;
      emit (hl_comparing [k]) ;;
      ret (i + 1, k + 1))
    ik.

Definition merge_merge (l m r : Z) : M unit :=
  let n1 := m - l + 1 in
  let n2 := r - m in
  L <- merge_slice l n1 ;;
  R <- merge_slice (m + 1) n2 ;;
  ijk <- while_loop (S (Z.to_nat (n1 + n2)))
    (fun '(i, j, k) => ret ((i <? n1) && (j <? n2)))
    (fun '(i, j, k) =>
      incr_comparisons ;;
      ij <- (if sel L i <=? sel R j
             then wr k (sel L i) ;; ret (i + 1, j)
             else wr k (sel R j) ;; ret (i, j + 1)) ;;
      incr_swaps ;;
      add_writes 1 ;;
      emit (hl_comparing [k]) ;;
      ret (ij, k + 1))
    (0, 0, l) ;;
  let '(i, j, k) := ijk in
  ik <- merge_drain L n1 (i, k) ;;
  jk <- merge_drain R n2 (j, snd ik) ;;
  ret tt.

Fixpoint merge_sort (fuel : nat) (l r : Z) : M unit :=
  match fuel with
  | O => fun _ => OutOfFuel
  | S f =>
      if r <=? l then ret tt
      else
        let m := l + (r - l) / 2 in
        merge_sort f l m ;;
        merge_sort f (m + 1) r ;;
        merge_merge l m r
  end.

Definition mergeSortFunc : M unit :=
  n <- arr_length ;;
  merge_sort (S (Z.to_nat n)) 0 (n - 1).

(** *** heapSortFunc *)

Definition heap_child (size c largest : Z) : M Z :=
  if c <? size then
    incr_comparisons ;;
    emit (hl_comparing [c; largest]) ;;
    a <- rd c ;;
    b <- rd largest ;;
    ret (if b <? a then c else largest)
  else ret largest.

Fixpoint heap_heapify (fuel : nat) (size i : Z) : M unit :=
  match fuel with
  | O => fun _ => OutOfFuel
  | S f =>
      largest <- heap_child size (2 * i + 1) i ;;
      largest <- heap_child size (2 * i + 2) largest ;;
      if negb (largest =? i) then
        incr_swaps ;;
        add_writes 2 ;;
        swap_cells i largest ;;
        emit (hl_swapping [i; largest]) ;;
        heap_heapify f size largest
      else ret tt
  end.

Definition heapSortFunc : M unit :=
  n <- arr_length ;;
  for_range_down (n / 2 - 1) 0 (fun i _ =>
    heap_heapify (S (Z.to_nat n)) n i) tt ;;
  for_range_down (n - 1) 1 (fun i _ =>
    incr_swaps ;;
    add_writes 2 ;;
    swap_cells 0 i ;;
    emit (hl_swapping [0; i]) ;;
    heap_heapify (S (Z.to_nat n)) i 0) tt.

(** *** radixSortFunc *)

(** [undefined] on the empty array. *)
Definition radix_getMax : M (option Z) :=
  n <- arr_length ;;
  if n =? 0 then ret None
  else
    first <- rd 0 ;;
    max <- for_range 1 n (fun i max =>
      a <- rd i ;; ret (if max <? a then a else max)) first ;;
    ret (Some max).

(** [Math.floor(a / exp) % 10]; [%] takes the sign of the dividend.  The
    quotient is exact here; the double of the source has the same floor as
    long as [a] is a safe integer and [exp] a power of ten up to [10^22]. *)
Definition digit (exp a : Z) : Z := Z.rem (a / exp) 10.

Definition off_model {A} : M A := fun _ => OffModel.

(** [count[d]++] and [count[d]--]: [count[d]] is [undefined] off the ten
    cells, and the result [NaN]. *)
Definition bump (count : list Z) (d : Z) (by_ : Z) : M (list Z) :=
  if in_rangeb count d then ret (upd count d (sel count d + by_))
  else off_model.

(** [output[p] = v] on an array of holes. *)
Definition fill (output : list (option Z)) (p : Z) (v : Z) : M (list (option Z)) :=
  if (0 <=? p) && (p <? Z.of_nat (length output))
  then ret (<[Z.to_nat p := Some v]> output)
  else off_model.

(** [arr[i] = output[i]] *)
Definition take_cell (output : list (option Z)) (i : Z) : M unit :=
  match nth (Z.to_nat i) output None with
  | Some v => wr i v
  | None => off_model
  end.

(** The four loops of [countingSort]: the digits are counted, the counts
    summed up, the cells placed from the last to the first, and the output
    copied back. *)
Definition radix_tally (exp n : Z) : M (list Z) :=
  for_range 0 n (fun i count =>
    a <- rd i ;; bump count (digit exp a) 1) (repeat 0 10%nat).

Definition radix_accumulate (count : list Z) : M (list Z) :=
  for_range 1 10 (fun i count =>
    ret (upd count i (sel count i + sel count (i - 1)))) count.

Definition radix_place (exp n : Z) (count : list Z)
    : M (list Z * list (option Z)) :=
  for_range_down (n - 1) 0 (fun i '(count, output) =>
    a <- rd i ;;
    let d := digit exp a in
    if in_rangeb count d then
      output <- fill output (sel count d - 1) a ;;
      count <- bump count d (-1) ;;
      ret (count, output)
    else off_model) (count, repeat None (Z.to_nat n)).

Definition radix_copy (n : Z) (output : list (option Z)) : M unit :=
  for_range 0 n (fun i _ =>
    incr_swaps ;;
    add_writes 1 ;;
    take_cell output i ;;
    emit (hl_swapping [i])) tt.

Definition radix_countingSort (exp : Z) : M unit :=
  n <- arr_length ;;
  count <- radix_tally exp n ;;
  count <- radix_accumulate count ;;
  co <- radix_place exp n count ;;
  radix_copy n (snd co).

(** [for (let exp = 1; Math.floor(max / exp) > 0; exp *= 10)] *)
Definition radixSortFunc : M unit :=
  max <- radix_getMax ;;
  match max with
  | None => ret tt
  | Some max =>
      while_loop (S (S (Z.to_nat (Z.log2 max))))
        (fun exp => ret (0 <? max / exp))
        (fun exp => radix_countingSort exp ;; ret (exp * 10))
        1 ;;
      ret tt
  end.

(** *** bucketSortFunc *)

(** [Math.max(...arr) || 1] on a non-empty array. *)
Definition bucket_max (l : list Z) : Z :=
  let m := fold_left Z.max (tail l) (hd 0 l) in
  if m =? 0 then 1 else m.

(** [Math.floor((v / (max + 1)) * bucketCount)]; not a finite number when
    [max + 1] is zero.  The division is exact here, where the source rounds
    the quotient to a double before it multiplies: a cell may land one
    bucket lower in the source than here.  On safe integers both indexes
    are monotone in [v], and both are within [0 .. bucketCount - 1] for the
    cells from [0] to [max] and outside for the negative ones, so that the
    same cells are written back in the same order, or the same [TypeError]
    is thrown at the same cell. *)
Definition bucket_index (v max bucketCount : Z) : option Z :=
  if max + 1 =? 0 then None else Some ((v * bucketCount) / (max + 1)).

Definition push_message : string :=
  "Cannot read properties of undefined (reading 'push')".

(** [buckets[bucketIndex].push(v)]; [buckets[bucketIndex]] is [undefined]
    off the array of buckets. *)
Definition bucket_push (buckets : list (list Z)) (idx : option Z) (v : Z)
    : M (list (list Z)) :=
  match idx with
  | Some k =>
      if (0 <=? k) && (k <? Z.of_nat (length buckets))
      then ret (<[Z.to_nat k := nth (Z.to_nat k) buckets [] ++ [v]]> buckets)
      else throw (new_Error push_message)
  | None => throw (new_Error push_message)
  end.

(** The inner [while (k >= 0 && b[k] > current) { b[k + 1] = b[k]; k-- }]
    of the insertion sort on one bucket. *)
Fixpoint bucket_shift (fuel : nat) (b : list Z) (current k : Z) : list Z * Z :=
  match fuel with
  | O => (b, k)
  | S f =>
      if (0 <=? k) && (current <? sel b k)
      then bucket_shift f (upd b (k + 1) (sel b k)) current (k - 1)
      else (b, k)
  end.

Fixpoint bucket_insertion (n : nat) (j : Z) (b : list Z) : list Z :=
  match n with
  | O => b
  | S n' =>
      let current := sel b j in
      let '(b', k) := bucket_shift (Z.to_nat j) b current (j - 1) in
      bucket_insertion n' (j + 1) (upd b' (k + 1) current)
  end.

Definition bucket_sort_one (b : list Z) : list Z :=
  bucket_insertion (Z.to_nat (len b - 1)) 1 b.

(** The first loop: every value is pushed on the bucket of its index. *)
Definition bucket_distribute (n max bucketCount : Z) : M (list (list Z)) :=
  for_range 0 n (fun i buckets =>
    a <- rd i ;;
    buckets <- bucket_push buckets (bucket_index a max bucketCount) a ;;
    incr_swaps ;;
    ret buckets) (repeat [] (Z.to_nat bucketCount)).

(** The last loops: the buckets are written back, one after the other;
    the result is [index]. *)
Definition bucket_gather (buckets : list (list Z)) (bucketCount : Z) : M Z :=
  for_range 0 bucketCount (fun i index =>
    let b := nth (Z.to_nat i) buckets [] in
    for_range 0 (len b) (fun j index =>
      wr index (sel b j) ;;
      add_writes 1 ;;
      emit (hl_swapping [index]) ;;
      ret (index + 1)) index) 0.

Definition bucketSortFunc : M unit :=
  n <- arr_length ;;
  if n <=? 0 then ret tt
  else
    let bucketCount := Z.sqrt n in
    max <- (fun w => Done (bucket_max (arr w)) w) ;;
    buckets <- bucket_distribute n max bucketCount ;;
    let buckets := map bucket_sort_one buckets in
    bucket_gather buckets bucketCount ;;
    ret tt.

(** *** bogoSortFunc *)

Fixpoint bogo_scan (k : nat) (i : Z) : M bool :=
  match k with
  | O => ret true
  | S k' =>
      incr_comparisons ;;
      a <- rd i ;;
      b <- rd (i + 1) ;;
      if b <? a then ret false else bogo_scan k' (i + 1)
  end.

Definition bogo_isSorted : M bool :=
  n <- arr_length ;;
  bogo_scan (Z.to_nat (n - 1)) 0.

Definition bogo_shuffle : M unit :=
  n <- arr_length ;;
  for_range_down (n - 1) 1 (fun i _ =>
    j <- random_below (i + 1) ;;
    incr_swaps ;;
    add_writes 2 ;;
    swap_cells i j) tt ;;
  emit no_highlight.

(** [while (!isSorted()) await shuffle()] *)
Fixpoint bogo_loop (fuel : nat) : M unit :=
  match fuel with
  | O => fun _ => OutOfFuel
  | S f =>
      sorted <- bogo_isSorted ;;
      if sorted : bool then ret tt else bogo_shuffle ;; bogo_loop f
  end.

Definition bogoSortFunc : M unit := bogo_loop (S (patience K)).

(** ** userCodeFunc *)

(** Step 1 of [userCodeFunc], inside its [try]. *)
Definition compile (userCode : string) : M UserFn :=
  match js_eval K userCode with
  | EvalThrows e => throw e
  | EvalNotCallable =>
      throw (new_Error
        "Provided code does not evaluate to a function. Make sure 'async function userSort...' is defined.")
  | EvalCallable f => ret f
  end.

Definition compile_failed {A} (e : JsThrown) : M A :=
  match e with
  | JsError m _ => throw (new_Error ("Compilation Error: " +:+ m))
  | JsOther => throw (new_Error "An unknown compilation error occurred.")
  end.

Definition located (m : string) (stack : option string) : string :=
  match stack with
  | Some s =>
      match find_location s with
      | Some (line, column) =>
          m +:+ " (at line " +:+ line +:+ ", column " +:+ column +:+ ")"
      | None => m
      end
  | None => m
  end.

Definition execution_failed {A} (e : JsThrown) : M A :=
  match e with
  | JsError m stack => throw (new_Error ("Runtime Error: " +:+ located m stack))
  | JsOther => throw (new_Error "An unknown runtime error occurred.")
  end.

Definition userCodeFunc (userCode : string) : M unit :=
  userSortFunction <- try_catch (compile userCode) compile_failed ;;
  try_catch (userSortFunction update_fn) execution_failed.

(** ** getAlgorithmRunner *)

(** [!userCode] *)
Definition missing (userCode : option string) : bool :=
  match userCode with
  | None => true
  | Some s => if decide (s = "") then true else false
  end.

Definition no_code_message : string :=
  "User code must be provided for 'userCode' algorithm.".

(** The [switch (key)]. *)
Definition sortFunc_of (key : AlgorithmKey) (userCode : option string)
    : JsThrown + M unit :=
  match key with
  | bubbleSort => inr bubbleSortFunc
  | selectionSort => inr selectionSortFunc
  | insertionSort => inr insertionSortFunc
  | quickSort => inr quickSortFunc
  | mergeSort => inr mergeSortFunc
  | heapSort => inr heapSortFunc
  | radixSort => inr radixSortFunc
  | bucketSort => inr bucketSortFunc
  | bogoSort => inr bogoSortFunc
  | userCode =>
      if missing userCode then inl (new_Error no_code_message)
      else inr (userCodeFunc (default "" userCode))
  end.

Definition set_time (t : Z) (s : SortStats) : SortStats :=
  mkStats (comparisons s) (swaps s) (writes s) t.

(** The message the [catch] of the runner passes to the callback. *)
Definition failure_text (e : JsThrown) : string :=
  match e with
  | JsError m _ => "Error: " +:+ m
  | JsOther => "An unknown error occurred."
  end.

(** [stats], [arr = [...initialArray]], [pausedTime = 0],
    [pauseStartTime = 0]. *)
Definition start (e : Env) : World :=
  mkWorld (initial e) zero_stats
    (mkEnv (initial e) (snaps e) (host e) (calls e) (clock e) 0 0
           (emits e) (draws e)).

(** [stats.time = performance.now() - startTime - pausedTime] and the final
    update. *)
Definition complete (startTime : Z) (w : World) : Outcome (option SortStats) :=
  let w1 :=
    with_stats (set_time (now (env w) - startTime - pausedTime (env w))) w in
  let '(r, w2) := copy_arr w1 in
  Done (Some (stats w1)) (invoke r no_highlight (stats w1) None w2).

(** The [catch] branch: the callback gets [initialArray] itself and
    [{...stats, time}]; the runner returns [undefined]. *)
Definition fail (startTime : Z) (e : JsThrown) (w : World)
    : Outcome (option SortStats) :=
  let s := set_time (now (env w) - startTime - pausedTime (env w)) (stats w) in
  Done None (invoke InitialArray no_highlight s (Some (failure_text e)) w).

(** The async function [(initialArray) => ...] returned for [sortFunc];
    [initialArray] is the array object [InitialArray] of the environment. *)
Definition runner (sortFunc : M unit) (e : Env) : Outcome (option SortStats) :=
  let startTime := now e in
  match sortFunc (start e) with
  | Done _ w => complete startTime w
  | Throw ex w => fail startTime ex w
  | OutOfFuel => OutOfFuel
  | OffModel => OffModel
  end.

Definition getAlgorithmRunner (key : AlgorithmKey) (userCode : option string)
    : JsThrown + (Env -> Outcome (option SortStats)) :=
  match sortFunc_of key userCode with
  | inl e => inl e
  | inr sortFunc => inr (runner sortFunc)
  end.

(** [getAlgorithmRunner(key, userCode)(updateCallback, getDelay,
    getIsPaused)(initialArray)]: a throw of [getAlgorithmRunner] happens
    before there is a run. *)
Definition run (key : AlgorithmKey) (userCode : option string) (e : Env)
    : JsThrown + Outcome (option SortStats) :=
  match getAlgorithmRunner key userCode with
  | inl ex => inl ex
  | inr algorithm => inr (algorithm e)
  end.

(** ** What a step function can do to the environment *)

Inductive step : World -> World -> Prop :=
  | step_engine w a s : step w (mkWorld a s (env w))
  | step_draw w : step w (with_env drawn w)
  | step_emit w h d : step w (update h d w).

Definition reach : World -> World -> Prop := rtc step.

(** A computation that touches the environment only through [update] and
    [Math.random]. *)
Definition confined {A} (m : M A) : Prop :=
  forall w,
    match m w with
    | Done _ w' => reach w w'
    | Throw _ w' => reach w w'
    | OutOfFuel => True
    | OffModel => True
    end.

End Run.
End Engine.

Arguments CallbackResult : clear implicits.
Arguments UpdateCallback : clear implicits.
Arguments Pacing : clear implicits.
Arguments Env : clear implicits.
Arguments World : clear implicits.
Arguments Outcome : clear implicits.
Arguments EvalOutcome : clear implicits.
Arguments UserFn : clear implicits.
Arguments M : clear implicits.
Arguments Collaborators : clear implicits.
Arguments mkCollaborators {Host} updateCallback pace random js_eval new_stack
  patience.
Arguments mkCallbackResult {Host} cb_host cb_arr cb_took.
Arguments mkPacing {Host} paused delay delay_took meanwhile.
Arguments mkEnv {Host} initial snaps host calls clock pausedTime
  pauseStartTime emits draws.
Arguments mkWorld {Host} arr stats env.
Arguments Done {Host A} a w.
Arguments Throw {Host A} e w.
Arguments OutOfFuel {Host A}.
Arguments OffModel {Host A}.
Arguments EvalThrows {Host} e.
Arguments EvalNotCallable {Host}.
Arguments EvalCallable {Host} f.

(** ** The host of a run: useArenaState (App.tsx) *)

Record Arena := mkArena {
  isCancelled : bool;
  array : list Z;
  highlights : Highlight;
  arena_stats : SortStats;
  error : option string
}.

(** [\s] on the characters of the strings here, which are ASCII: tab to
    carriage return, and the space. *)
Definition is_space (c : ascii) : bool :=
  let n := nat_of_ascii c in
  ((9 <=? n) && (n <=? 13))%nat || (n =? 32)%nat.

Fixpoint skip_spaces (s : string) : string :=
  match s with
  | String c s' => if is_space c then skip_spaces s' else s
  | EmptyString => s
  end.

(** [errorMessage.replace(/^Error:\s*/, '')] *)
Definition strip_error (s : string) : string :=
  match strip_prefix "Error:" s with
  | Some r => skip_spaces r
  | None => s
  end.

(** The [updateCallback] of [useArenaState]. *)
Definition arenaCallback : UpdateCallback Arena :=
  fun newArray newHighlights newStats errorMessage a =>
    if isCancelled a then mkCallbackResult a newArray 0
    else
      let err :=
        match errorMessage with
        | Some m => if decide (m = "") then error a else Some (strip_error m)
        | None => error a
        end in
      mkCallbackResult
        (mkArena false newArray newHighlights newStats err) newArray 0.

(** The cleanup of the effect: [isCancelled = true]. *)
Definition cleanup (a : Arena) : Arena :=
  mkArena true (array a) (highlights a) (arena_stats a) (error a).

(** What happens around the arena during one emit: the pacing sources, and
    whether the cleanup of the effect runs while the engine is suspended. *)
Record ArenaPacing := mkArenaPacing {
  ap_paused : option (list Z);
  ap_delay : Z;
  ap_delay_took : Z;
  ap_cleanup : bool
}.

Definition arena_pace (script : nat -> ArenaPacing) (n : nat) : Pacing Arena :=
  mkPacing (ap_paused (script n)) (ap_delay (script n))
           (ap_delay_took (script n))
           (if ap_cleanup (script n) then cleanup else id).

(** A run hosted by an arena. *)
Definition arena_collaborators (script : nat -> ArenaPacing)
    (random : nat -> Z) (js_eval : string -> EvalOutcome Arena)
    (new_stack : string -> option string) (patience : nat)
    : Collaborators Arena :=
  mkCollaborators arenaCallback (arena_pace script) random js_eval new_stack
    patience.

(** ** Sample collaborators *)

(** An arena whose effect is cleaned up during emit number [n]. *)
Definition cancel_during (n : nat) : Collaborators Arena :=
  arena_collaborators
    (fun k => mkArenaPacing None 0 0 (if decide (k = n) then true else false))
    (fun _ => 0) (fun _ => EvalNotCallable) (fun _ => None) 0.

Definition arena_env (l : list Z) : Env Arena :=
  mkEnv l [] (mkArena false l no_highlight zero_stats None) [] 0 0 0 0 0.

(** A host that ignores what it is given; the source text ["f"] evaluates
    to a function that writes a cell and throws a string, ["g"] to one that
    writes a cell and throws an [Error] with a stack, ["("] is malformed. *)
Definition throws_string : UserFn unit :=
  fun update => bind (wr 0 9) (fun _ => throw JsOther).

Definition throws_error : UserFn unit :=
  fun update =>
    bind (wr 0 9) (fun _ =>
      throw (JsError "boom"
               (Some "Error: boom at userSort (<anonymous>:3:11)"))).

Definition quiet : Collaborators unit :=
  mkCollaborators
    (fun a _ _ _ h => mkCallbackResult h a 1)
    (fun _ => mkPacing (Some [50; 50]) 5 5 id)
    (fun n => Z.of_nat n)
    (fun s =>
       if decide (s = "f") then EvalCallable throws_string
       else if decide (s = "g") then EvalCallable throws_error
       else if decide (s = "(") then
         EvalThrows (JsError "Unexpected token '}'" None)
       else EvalNotCallable)
    (fun _ => None)
    0.

Definition quiet_env (l : list Z) : Env unit :=
  mkEnv l [] tt [] 0 0 0 0 0.

(** ** Vocabulary of the statements *)

(** The list after [[l[i], l[j]] = [l[j], l[i]]]. *)
Definition swapped (l : list Z) (i j : Z) : list Z :=
  upd (upd l i (sel l j)) j (sel l i).

(** Ascending on the cells [max lo 0 .. hi - 1]. *)
Definition sorted_on (l : list Z) (lo hi : Z) : Prop :=
  forall i j, 0 <= i -> lo <= i -> i <= j -> j < hi -> sel l i <= sel l j.

(** Every cell before [n] is at most every cell from [n] on. *)
Definition split_at (l : list Z) (n : Z) : Prop :=
  forall k m, 0 <= k < n -> n <= m < len l -> sel l k <= sel l m.

(** The time the pause loop of one emit takes. *)
Definition pause_total {Host} (p : Pacing Host) : Z :=
  match paused p with
  | None => 0
  | Some ds => foldr Z.add 0 ds
  end.

(** The time spent in pause loops by the first [n] emits. *)
Fixpoint paused_upto {Host} (K : Collaborators Host) (n : nat) : Z :=
  match n with
  | O => 0
  | S n' => paused_upto K n' + pause_total (pace K n')
  end.

(** The calls [cs] pass, in order, the copies number [n], [n + 1], ...:
    each one an array object of its own, none the working array or the
    caller's array, and none carries an error message. *)
Fixpoint copies_from (n : nat) (cs : list Call) : Prop :=
  match cs with
  | [] => True
  | c :: cs' =>
      call_ref c = Snapshot n /\ call_error c = None /\ copies_from (S n) cs'
  end.

(** User code has no access to the run's environment but through the
    [update] it is given. *)
Definition sandboxed {Host} (K : Collaborators Host) (userCode : string) : Prop :=
  forall f, js_eval K userCode = EvalCallable f -> confined K (f (update_fn K)).

(** The working array [b] in [merge(l, m, r)] when [i] cells of [L] and [j]
    cells of [R] have been written back over the array [a]: nothing is
    touched outside [l .. r]; the cells written so far are ascending, bounded
    by the heads of what is left of [L] and [R], and hold the cells taken. *)
Definition merge_inv (a L R : list Z) (l r i j : Z) (b : list Z) : Prop :=
  0 <= i <= len L /\ 0 <= j <= len R /\
  len b = len a /\
  (forall p, 0 <= p -> p < l \/ r < p -> sel b p = sel a p) /\
  sorted_on b l (l + i + j) /\
  (forall p, l <= p < l + i + j ->
     (i < len L -> sel b p <= sel L i) /\ (j < len R -> sel b p <= sel R j)) /\
  take (Z.to_nat (i + j)) (drop (Z.to_nat l) b) ≡ₚ
    take (Z.to_nat i) L ++ take (Z.to_nat j) R.

(** The array [b] in the shifting loop of an insertion sort that inserts
    [a[i]] into the ascending cells before [i]: the cells after [j + 1] up
    to [i] have been shifted up by one and are larger than [a[i]]; putting
    [a[i]] into cell [j + 1] gives back the cells of [a]. *)
Definition shift_inv (a : list Z) (i j : Z) (b : list Z) : Prop :=
  -1 <= j < i /\ len b = len a /\
  upd b (j + 1) (sel a i) ≡ₚ a /\
  sorted_on b 0 (j + 1) /\
  sorted_on b (j + 2) (i + 1) /\
  (forall k, j + 2 <= k <= i -> sel a i < sel b k) /\
  (forall p q, 0 <= p <= j -> j + 2 <= q <= i -> sel b p <= sel b q).

(** The cells of [l] whose key is [d], in the order of [l], and the list of
    these groups for the keys [0 .. k - 1]. *)
Definition group (f : Z -> Z) (l : list Z) (d : Z) : list Z :=
  filter (fun x => f x = d) l.

Definition groups (f : Z -> Z) (k : nat) (l : list Z) : list (list Z) :=
  map (fun d => group f l (Z.of_nat d)) (seq 0 k).

(** The bucket of a value, [-1] when it has none. *)
Definition bucket_key (max bucketCount v : Z) : Z :=
  default (-1) (bucket_index v max bucketCount).

(** In the heap of the first [size] cells, node [j] is at least its
    children. *)
Definition node_ok (size : Z) (l : list Z) (j : Z) : Prop :=
  (2 * j + 1 < size -> sel l (2 * j + 1) <= sel l j) /\
  (2 * j + 2 < size -> sel l (2 * j + 2) <= sel l j).

(** Every node from [lo] on is at least its children. *)
Definition heap_from (lo size : Z) (l : list Z) : Prop :=
  forall j, lo <= j -> node_ok size l j.

(** Every node from [lo] on but [i] is at least its children, and the
    parent of [i] is at least the children of [i]. *)
Definition heap_except (lo size : Z) (l : list Z) (i : Z) : Prop :=
  (forall j, lo <= j -> j <> i -> node_ok size l j) /\
  (forall p c, lo <= p -> i = 2 * p + 1 \/ i = 2 * p + 2 ->
     c = 2 * i + 1 \/ c = 2 * i + 2 -> c < size -> sel l c <= sel l p).

(** The arrays [radixSortFunc] is written for: it sorts on the decimal
    digits of non-negative integers. *)
Definition natural (l : list Z) : Prop := Forall (fun x => 0 <= x) l.

(** [Number.MAX_SAFE_INTEGER], and the arrays of safe integers
    ([Number.isSafeInteger]): the cells on which the quotients of
    [radixSortFunc] and [bucketSortFunc] are computed in doubles as they are
    here. *)
Definition MAX_SAFE_INTEGER : Z := 2 ^ 53 - 1.

Definition safe (l : list Z) : Prop :=
  Forall (fun x => - MAX_SAFE_INTEGER <= x <= MAX_SAFE_INTEGER) l.

(** The computation [m], started in [w], returns normally, and its result
    and final state satisfy [Q]. *)
Definition returns {Host A} (m : M Host A) (w : World Host)
    (Q : A -> World Host -> Prop) : Prop :=
  exists a w', m w = Done a w' /\ Q a w'.

(** ** The battle screen (App.tsx, BattleScreen) *)

Inductive ArrayType := randomArray | nearlySorted | reversed.

Record BattleConfig := mkBattleConfig {
  algo1 : AlgorithmKey;
  algo2 : AlgorithmKey;
  arraySize : Z;
  arrayType : ArrayType;
  battle_delay : Z
}.

Definition is_bogo (key : AlgorithmKey) : bool :=
  match key with
  | bogoSort => true
  | _ => false
  end.

(** [size]: at most ten cells as soon as one of the two is bogo sort. *)
Definition battle_size (c : BattleConfig) : Z :=
  if (is_bogo (algo1 c) || is_bogo (algo2 c)) && (10 <? arraySize c)
  then 10 else arraySize c.

(** [Array.from({ length: size }, (_, i) => i + 1)]; no cell for a length
    that is not positive. *)
Definition one_to (size : Z) : list Z :=
  map (fun i => Z.of_nat i + 1) (seq 0 (Z.to_nat size)).

(** [for (let i = arr.length - 1; i > 0; i--) { const j =
    Math.floor(Math.random() * (i + 1)); [arr[i], arr[j]] = [arr[j], arr[i]] }],
    with [n] rounds to go from place [i], the draws numbered from [k];
    [Math.floor(Math.random() * bound)] is taken as in [random_below]. *)
Fixpoint shuffle_from (rand : nat -> Z) (k n : nat) (i : Z) (l : list Z)
    : list Z :=
  match n with
  | O => l
  | S n' =>
      let j := rand k mod (i + 1) in
      shuffle_from rand (S k) n' (i - 1) (swapped l i j)
  end.

(** [for (let i = 0; i < Math.floor(size / 10); i++) { idx1 = ...; idx2 = ...;
    [arr[idx1], arr[idx2]] = [arr[idx2], arr[idx1]] }], with [n] rounds to
    go. *)
Fixpoint disturb (rand : nat -> Z) (size : Z) (k n : nat) (l : list Z)
    : list Z :=
  match n with
  | O => l
  | S n' =>
      let idx1 := rand k mod size in
      let idx2 := rand (S k) mod size in
      disturb rand size (S (S k)) n' (swapped l idx1 idx2)
  end.

(** The [initialArray] of the battle screen, for the values [rand 0],
    [rand 1], ... of [Math.random]. *)
Definition initialArray (c : BattleConfig) (rand : nat -> Z) : list Z :=
  let size := battle_size c in
  let arr := one_to size in
  match arrayType c with
  | randomArray =>
      shuffle_from rand 0 (Z.to_nat (len arr - 1)) (len arr - 1) arr
  | nearlySorted => disturb rand size 0 (Z.to_nat (size / 10)) arr
  | reversed => rev arr
  end.

(** [setCommentary(prev => [...prev.slice(-100), `> ${text}`])] *)
Definition addCommentary (text : string) (prev : list string) : list string :=
  drop (length prev - 100) prev ++ ["> " +:+ text].

(** ** More sample collaborators *)

(** A host like [quiet] that waits for one shuffle of bogo sort, and whose
    random numbers are all zero. *)
Definition lucky : Collaborators unit :=
  mkCollaborators (updateCallback quiet) (pace quiet) (fun _ => 0)
    (js_eval quiet) (new_stack quiet) 1.

(** A host like [quiet] for which the source text ["(() => { throw 'x' })()"]
    throws a string while it is evaluated. *)
Definition throwing_text : string := "(() => { throw 'x' })()".

Definition hasty : Collaborators unit :=
  mkCollaborators (updateCallback quiet) (pace quiet) (random quiet)
    (fun s =>
       if decide (s = throwing_text) then EvalThrows JsOther
       else js_eval quiet s)
    (new_stack quiet) (patience quiet).

(** An arena whose effect is never cleaned up, and which is never paused. *)
Definition steady : Collaborators Arena :=
  arena_collaborators (fun _ => mkArenaPacing None 0 0 false)
    (fun _ => 0) (fun _ => EvalNotCallable) (fun _ => None) 0.

(** A battle of bubble sort against bogo sort on fifty cells asked for in
    random order, and numbers for [Math.random]. *)
Definition sample_battle : BattleConfig :=
  mkBattleConfig bubbleSort bogoSort 50 randomArray 20.

Definition sample_numbers (k : nat) : Z := Z.of_nat (7 * k + 3).

(** ** Vocabulary of the counters *)

(** The computation [m], started in [w]: when it returns, its result and
    final state satisfy [Q]; when it throws, the thrown value and the state
    satisfy [E]. *)
Definition ensures {Host A} (m : M Host A) (w : World Host)
    (Q : A -> World Host -> Prop) (E : JsThrown -> World Host -> Prop) : Prop :=
  match m w with
  | Done a w' => Q a w'
  | Throw ex w' => E ex w'
  | OutOfFuel => True
  | OffModel => True
  end.

(** How many times the callback has been invoked. *)
Definition shown {Host} (w : World Host) : Z :=
  Z.of_nat (length (calls (env w))).

(** The books of the variants that swap cells: two writes for a swap, and
    one invocation of the callback for every comparison and every swap
    ([c] invocations were made before). *)
Definition swap_account {Host} (c : Z) (w : World Host) : Prop :=
  writes (stats w) = 2 * swaps (stats w) /\
  shown w = c + comparisons (stats w) + swaps (stats w).

(** The books of the variants that move cells: one invocation of the
    callback for every write. *)
Definition move_account {Host} (c : Z) (w : World Host) : Prop :=
  shown w = c + writes (stats w).

(** The books of merge sort and radix sort: moreover every write counts as
    a swap, and there are no more comparisons than writes. *)
Definition even_books {Host} (c : Z) (w : World Host) : Prop :=
  move_account c w /\ writes (stats w) = swaps (stats w) /\
  comparisons (stats w) <= writes (stats w).

(** The books of bogo sort: two writes and one draw for a swap ([d] draws
    were made before), and for every shuffle, shown once, a swap for every
    cell but one. *)
Definition bogo_books {Host} (c d : Z) (w : World Host) : Prop :=
  writes (stats w) = 2 * swaps (stats w) /\
  Z.of_nat (draws (env w)) = d + swaps (stats w) /\
  (shown w - c) * Z.max (len (arr w) - 1) 0 = swaps (stats w).

(** A string of decimal digits. *)
Fixpoint all_digits (s : string) : bool :=
  match s with
  | String c s' => is_digit c && all_digits s'
  | EmptyString => true
  end.

(** No digit at the head. *)
Definition digit_ahead (s : string) : bool :=
  match s with
  | String c _ => is_digit c
  | EmptyString => false
  end.

(** * Properties *)

(** ** Arrays *)

Lemma in_rangeb_true l i : in_rangeb l i = true <-> in_range l i.
Proof. unfold in_rangeb, in_range. rewrite andb_true_iff. lia. Qed.

Lemma in_rangeb_false l i : in_rangeb l i = false <-> ~ in_range l i.
Proof.
  rewrite <- in_rangeb_true. destruct (in_rangeb l i); intuition congruence.
Qed.

Lemma len_upd l i v : len (upd l i v) = len l.
Proof. unfold len, upd. now rewrite length_insert. Qed.

Lemma length_upd l i v : length (upd l i v) = length l.
Proof. unfold upd. now rewrite length_insert. Qed.

Lemma sel_upd_eq l i v : in_range l i -> sel (upd l i v) i = v.
Proof.
  unfold in_range, sel, upd. intros H.
  apply nth_lookup_Some with (d := 0).
  apply list_lookup_insert_eq. lia.
Qed.

Lemma sel_upd_ne l i j v : 0 <= i -> 0 <= j -> i <> j -> sel (upd l i v) j = sel l j.
Proof.
  unfold sel, upd. intros Hi Hj Hne.
  rewrite !nth_lookup. rewrite list_lookup_insert_ne; [done | lia].
Qed.

Lemma sel_upd l i j v :
  in_range l i -> 0 <= j ->
  sel (upd l i v) j = if decide (i = j) then v else sel l j.
Proof.
  intros Hi Hj. destruct (decide (i = j)) as [->|Hne].
  - now apply sel_upd_eq.
  - apply sel_upd_ne; unfold in_range in Hi; lia.
Qed.

Lemma in_range_upd l i v j : in_range (upd l i v) j <-> in_range l j.
Proof. unfold in_range. now rewrite length_upd. Qed.

Lemma len_swapped l i j : len (swapped l i j) = len l.
Proof. unfold swapped. now rewrite !len_upd. Qed.

Lemma length_swapped l i j : length (swapped l i j) = length l.
Proof. unfold swapped. now rewrite !length_upd. Qed.

Lemma in_range_swapped l i j k : in_range (swapped l i j) k <-> in_range l k.
Proof. unfold in_range. now rewrite length_swapped. Qed.

Lemma sel_swapped l i j k :
  in_range l i -> in_range l j -> 0 <= k ->
  sel (swapped l i j) k =
    if decide (k = j) then sel l i
    else if decide (k = i) then sel l j else sel l k.
Proof.
  intros Hi Hj Hk. unfold swapped.
  rewrite sel_upd by (rewrite ?in_range_upd; unfold in_range in *; lia).
  destruct (decide (j = k)) as [->|Hjk].
  - now rewrite decide_True.
  - rewrite decide_False by congruence.
    rewrite sel_upd by (unfold in_range in *; lia).
    destruct (decide (i = k)) as [->|Hik].
    + now rewrite decide_True.
    + now rewrite decide_False by congruence.
Qed.

Lemma list_eq_sel (l1 l2 : list Z) :
  length l1 = length l2 ->
  (forall i, in_range l1 i -> sel l1 i = sel l2 i) -> l1 = l2.
Proof.
  intros Hlen H. apply list_eq_same_length with (n := length l1); try done.
  intros i x y Hi Hx Hy.
  specialize (H (Z.of_nat i)). unfold in_range, sel in H.
  rewrite Nat2Z.id in H.
  rewrite (nth_lookup_Some _ _ 0 _ Hx), (nth_lookup_Some _ _ 0 _ Hy) in H.
  apply H. lia.
Qed.

Lemma swapped_same l i : in_range l i -> swapped l i i = l.
Proof.
  intros Hi. apply list_eq_sel; [apply length_swapped|].
  intros k Hk. rewrite in_range_swapped in Hk.
  rewrite sel_swapped by (unfold in_range in *; lia).
  repeat case_decide; congruence.
Qed.

Lemma insert_swap_head (l : list Z) j a y :
  l !! j = Some y -> y :: <[j := a]> l ≡ₚ a :: l.
Proof.
  revert j. induction l as [|b l IH]; intros [|j] H; simplify_eq/=.
  - apply perm_swap.
  - etrans; [apply perm_swap|].
    etrans; [apply perm_skip, (IH j H)|]. apply perm_swap.
Qed.

Lemma insert_swap_perm (l : list Z) i j x y :
  l !! i = Some x -> l !! j = Some y -> <[j := x]> (<[i := y]> l) ≡ₚ l.
Proof.
  revert i j. induction l as [|a l IH]; intros [|i] [|j] Hi Hj; simplify_eq/=.
  - done.
  - now apply insert_swap_head.
  - now apply insert_swap_head.
  - f_equiv. now apply IH.
Qed.

Lemma sel_lookup l i : in_range l i -> l !! Z.to_nat i = Some (sel l i).
Proof.
  unfold in_range, sel. intros H.
  destruct (lookup_lt_is_Some_2 l (Z.to_nat i)) as [x Hx]; [lia|].
  now rewrite (nth_lookup_Some _ _ 0 _ Hx).
Qed.

Lemma swapped_perm l i j : in_range l i -> in_range l j -> swapped l i j ≡ₚ l.
Proof.
  intros Hi Hj. unfold swapped, upd.
  apply insert_swap_perm; now apply sel_lookup.
Qed.

(** ** The monad and the primitives *)

Section ProgramLogic.

Context {Host : Type} (K : Collaborators Host).
Implicit Types (w : World Host) (e : Env Host).

Lemma returns_ret {A} (x : A) w Q : Q x w -> returns (ret x) w Q.
Proof. intros H. now exists x, w. Qed.

Lemma returns_bind {A B} (m : M Host A) (k : A -> M Host B) w Q :
  returns m w (fun x w' => returns (k x) w' Q) -> returns (bind m k) w Q.
Proof.
  intros (x & w' & Hm & y & w'' & Hk & HQ). exists y, w''.
  unfold bind. now rewrite Hm.
Qed.

Lemma returns_conseq {A} (m : M Host A) w (Q Q' : A -> World Host -> Prop) :
  returns m w Q -> (forall x w', Q x w' -> Q' x w') -> returns m w Q'.
Proof. intros (x & w' & Hm & HQ) H. exists x, w'. auto. Qed.

Lemma returns_rd i w Q :
  in_range (arr w) i -> Q (sel (arr w) i) w -> returns (rd i) w Q.
Proof.
  intros Hi HQ. exists (sel (arr w) i), w. split; [|done].
  unfold rd. apply in_rangeb_true in Hi. now rewrite Hi.
Qed.

Lemma returns_wr i v w Q :
  in_range (arr w) i ->
  Q tt (mkWorld (upd (arr w) i v) (stats w) (env w)) ->
  returns (wr i v) w Q.
Proof.
  intros Hi HQ. eexists _, _. split; [|exact HQ].
  unfold wr. apply in_rangeb_true in Hi. now rewrite Hi.
Qed.

Lemma returns_swap_cells i j w Q :
  in_range (arr w) i -> in_range (arr w) j ->
  Q tt (mkWorld (swapped (arr w) i j) (stats w) (env w)) ->
  returns (swap_cells i j) w Q.
Proof.
  intros Hi Hj HQ. unfold swap_cells.
  apply returns_bind, returns_rd; [done|].
  apply returns_bind, returns_rd; [done|].
  apply returns_bind, returns_wr; [done|].
  apply returns_wr; [now apply in_range_upd|]. exact HQ.
Qed.

Lemma returns_arr_length w Q : Q (len (arr w)) w -> returns arr_length w Q.
Proof. intros H. now eexists _, _. Qed.

Lemma returns_incr_comparisons w Q :
  Q tt (mkWorld (arr w)
          (mkStats (comparisons (stats w) + 1) (swaps (stats w))
                   (writes (stats w)) (time (stats w))) (env w)) ->
  returns incr_comparisons w Q.
Proof. intros H. now eexists _, _. Qed.

Lemma returns_incr_swaps w Q :
  Q tt (mkWorld (arr w)
          (mkStats (comparisons (stats w)) (swaps (stats w) + 1)
                   (writes (stats w)) (time (stats w))) (env w)) ->
  returns incr_swaps w Q.
Proof. intros H. now eexists _, _. Qed.

Lemma returns_add_writes k w Q :
  Q tt (mkWorld (arr w)
          (mkStats (comparisons (stats w)) (swaps (stats w))
                   (writes (stats w) + k) (time (stats w))) (env w)) ->
  returns (add_writes k) w Q.
Proof. intros H. now eexists _, _. Qed.

Lemma arr_update h d w : arr (update K h d w) = arr w.
Proof. reflexivity. Qed.

Lemma stats_update h d w :
  stats (update K h d w) = assign_stats (stats w) d.
Proof. reflexivity. Qed.

Lemma assign_no_update (s : SortStats) : assign_stats s no_update = s.
Proof. now destruct s. Qed.

Lemma update_eta h w :
  update K h no_update w =
  mkWorld (arr w) (stats w) (env (update K h no_update w)).
Proof.
  change (update K h no_update w) with
    (mkWorld (arr w) (assign_stats (stats w) no_update)
             (env (update K h no_update w))) at 1.
  now rewrite assign_no_update.
Qed.

(** An emit leaves the array and the counters as they are. *)
Lemma returns_emit h w Q :
  (forall e', Q tt (mkWorld (arr w) (stats w) e')) -> returns (emit K h) w Q.
Proof.
  intros H. exists tt, (update K h no_update w). split; [done|].
  rewrite update_eta. apply H.
Qed.

Lemma returns_for_up {St} (I : Z -> St -> World Host -> Prop) n i
    (body : Z -> St -> M Host St) s0 w Q :
  I i s0 w ->
  (forall k s w, i <= k < i + Z.of_nat n -> I k s w ->
     returns (body k s) w (I (k + 1))) ->
  (forall s w, I (i + Z.of_nat n) s w -> Q s w) ->
  returns (for_up n i body s0) w Q.
Proof.
  revert i s0 w. induction n as [|n IH]; intros i s0 w HI Hbody HQ.
  - apply returns_ret, HQ. now replace (i + Z.of_nat 0) with i by lia.
  - cbn [for_up]. apply returns_bind.
    eapply returns_conseq; [apply Hbody; [lia | exact HI]|].
    intros s1 w1 H1. apply IH; [exact H1| |].
    + intros k s w' Hk. apply Hbody. lia.
    + intros s w'. replace (i + 1 + Z.of_nat n) with (i + Z.of_nat (S n)) by lia. apply HQ.
Qed.

Lemma returns_for_range {St} (I : Z -> St -> World Host -> Prop) lo hi
    (body : Z -> St -> M Host St) s0 w Q :
  lo <= hi ->
  I lo s0 w ->
  (forall k s w, lo <= k < hi -> I k s w -> returns (body k s) w (I (k + 1))) ->
  (forall s w, I hi s w -> Q s w) ->
  returns (for_range lo hi body s0) w Q.
Proof.
  intros Hle HI Hbody HQ. unfold for_range.
  apply returns_for_up with (I := I); [done| |].
  - intros k s w' Hk. apply Hbody. lia.
  - intros s w'. replace (lo + Z.of_nat (Z.to_nat (hi - lo))) with hi by lia. apply HQ.
Qed.

Lemma for_range_empty {St} lo hi (body : Z -> St -> M Host St) s0 :
  hi <= lo -> for_range lo hi body s0 = ret s0.
Proof. intros H. unfold for_range. now replace (Z.to_nat (hi - lo)) with O by lia. Qed.

Lemma returns_for_down {St} (I : Z -> St -> World Host -> Prop) n i
    (body : Z -> St -> M Host St) s0 w Q :
  I i s0 w ->
  (forall k s w, i - Z.of_nat n < k <= i -> I k s w ->
     returns (body k s) w (I (k - 1))) ->
  (forall s w, I (i - Z.of_nat n) s w -> Q s w) ->
  returns (for_down n i body s0) w Q.
Proof.
  revert i s0 w. induction n as [|n IH]; intros i s0 w HI Hbody HQ.
  - apply returns_ret, HQ. now replace (i - Z.of_nat 0) with i by lia.
  - cbn [for_down]. apply returns_bind.
    eapply returns_conseq; [apply Hbody; [lia | exact HI]|].
    intros s1 w1 H1. apply IH; [exact H1| |].
    + intros k s w' Hk. apply Hbody. lia.
    + intros s w'. replace (i - 1 - Z.of_nat n) with (i - Z.of_nat (S n)) by lia. apply HQ.
Qed.

Lemma returns_for_range_down {St} (I : Z -> St -> World Host -> Prop) hi lo
    (body : Z -> St -> M Host St) s0 w Q :
  lo - 1 <= hi ->
  I hi s0 w ->
  (forall k s w, lo <= k <= hi -> I k s w -> returns (body k s) w (I (k - 1))) ->
  (forall s w, I (lo - 1) s w -> Q s w) ->
  returns (for_range_down hi lo body s0) w Q.
Proof.
  intros Hle HI Hbody HQ. unfold for_range_down.
  apply returns_for_down with (I := I); [done| |].
  - intros k s w' Hk. apply Hbody. lia.
  - intros s w'.
    replace (hi - Z.of_nat (Z.to_nat (hi - lo + 1))) with (lo - 1) by lia.
    apply HQ.
Qed.

End ProgramLogic.

(** ** Stepping through straight-line code *)

Ltac range :=
  cbn [arr stats env]; unfold in_range, len in *;
  rewrite ?length_swapped, ?length_upd; lia.

Ltac wp1 :=
  lazymatch goal with
  | |- returns (bind _ _) _ _ => apply returns_bind
  | |- returns (ret _) _ _ => apply returns_ret
  | |- returns incr_comparisons _ _ => apply returns_incr_comparisons
  | |- returns incr_swaps _ _ => apply returns_incr_swaps
  | |- returns (add_writes _) _ _ => apply returns_add_writes
  | |- returns arr_length _ _ => apply returns_arr_length
  | |- returns (emit _ _) _ _ => apply returns_emit; intros ?
  | |- returns (rd _) _ _ => apply returns_rd; [try range|]
  | |- returns (wr _ _) _ _ => apply returns_wr; [try range|]
  | |- returns (swap_cells _ _) _ _ =>
      apply returns_swap_cells; [try range|try range|]
  end;
  cbn [arr stats env].

Ltac wp := repeat wp1.

(** ** bubbleSortFunc *)

Section Bubble.

Context {Host : Type} (K : Collaborators Host).


Lemma sorted_on_Sorted (l : list Z) : sorted_on l 0 (len l) -> Sorted Z.le l.
Proof.
  induction l as [|x l IH]; intros H; [constructor|].
  constructor.
  - apply IH. intros i j Hi0 Hi Hij Hj.
    specialize (H (i + 1) (j + 1)). unfold sel, len in *.
    replace (Z.to_nat (i + 1)) with (S (Z.to_nat i)) in H by lia.
    replace (Z.to_nat (j + 1)) with (S (Z.to_nat j)) in H by lia.
    apply H; cbn [length]; lia.
  - destruct l as [|y l]; constructor.
    apply (H 0 1); unfold len; cbn [length]; lia.
Qed.

Lemma bubble_pass_spec n a0 st e0 :
  n <= len a0 -> sorted_on a0 n (len a0) -> split_at a0 n ->
  returns (bubble_pass K n) (mkWorld a0 st e0) (fun sw w =>
    arr w ≡ₚ a0 /\ sorted_on (arr w) (n - 1) (len a0) /\
    split_at (arr w) (n - 1) /\
    (sw = false -> sorted_on (arr w) 0 (len a0)) /\
    (sw = true -> 2 <= n)).
Proof.
  intros Hn P1 P2. unfold bubble_pass.
  destruct (Z_le_gt_dec n 1) as [Hsmall|Hbig].
  - rewrite for_range_empty by lia. apply returns_ret. cbn.
    assert (Hs : sorted_on a0 (n - 1) (len a0)).
    { intros i j Hi0 Hi Hij Hj. destruct (decide (i = j)) as [->|]; [lia|].
      destruct (decide (n <= i)); [apply P1; lia|].
      apply P2; lia. }
    repeat split; [done|done| | |done].
    + intros k m Hk Hm. apply P2; lia.
    + intros _ i j Hi0 Hi Hij Hj. apply Hs; lia.
  - apply returns_for_range with (I := fun i sw w =>
      arr w ≡ₚ a0 /\ len (arr w) = len a0 /\
      sorted_on (arr w) n (len a0) /\ split_at (arr w) n /\
      (forall k, 0 <= k <= i -> sel (arr w) k <= sel (arr w) i) /\
      (sw = false -> sorted_on (arr w) 0 (i + 1))); [lia| | |].
    + cbn. repeat split; try done.
      * intros k Hk. replace k with 0 by lia. lia.
      * intros _ i j Hi0 Hi Hij Hj. replace j with i by lia. lia.
    + intros i sw [a s e] Hi (Hp & Hl & H1 & H2 & Hmax & Hsw). cbn [arr stats env] in *.
      wp.
      destruct (Z.ltb_spec (sel a (i + 1)) (sel a i)) as [Hlt|Hge].
      * wp. rewrite len_swapped.
        assert (Hsel : forall k, 0 <= k -> sel (swapped a i (i + 1)) k =
          if decide (k = i + 1) then sel a i
          else if decide (k = i) then sel a (i + 1) else sel a k).
        { intros k Hk. apply sel_swapped; range. }
        repeat split.
        -- rewrite swapped_perm by range. done.
        -- done.
        -- intros p q Hp0 Hp' Hpq Hq. rewrite !Hsel by lia.
           rewrite !decide_False by lia. apply H1; lia.
        -- intros p q Hp' Hq. rewrite len_swapped in Hq.
           rewrite !Hsel by lia.
           rewrite (decide_False (P := q = i + 1)) by lia.
           rewrite (decide_False (P := q = i)) by lia.
           repeat case_decide; apply H2; lia.
        -- intros k Hk. rewrite !Hsel by lia.
           rewrite (decide_True (P := i + 1 = i + 1)) by lia.
           repeat case_decide; try lia. apply Hmax. lia.
        -- discriminate.
      * wp. repeat split; try done.
        -- intros k Hk. destruct (decide (k = i + 1)) as [->|]; [lia|].
           specialize (Hmax k). lia.
        -- intros Hf p q Hp0 Hp' Hpq Hq.
           destruct (decide (q = i + 1)) as [->|].
           ++ destruct (decide (p = i + 1)) as [->|]; [lia|].
              specialize (Hmax p). lia.
           ++ apply (Hsw Hf); lia.
    + intros sw [a s e] (Hp & Hl & H1 & H2 & Hmax & Hsw). cbn [arr stats env] in *.
      replace (n - 1 + 1) with n in Hsw by lia.
      assert (Hs : sorted_on a (n - 1) (len a0)).
      { intros i j Hi0 Hi Hij Hj. destruct (decide (i = j)) as [->|]; [lia|].
        destruct (decide (n <= i)); [apply H1; lia|].
        replace i with (n - 1) by lia. apply H2; lia. }
      repeat split; [done|done| | |lia].
      * intros k m Hk Hm. destruct (decide (m = n - 1)) as [->|].
        -- apply Hmax. lia.
        -- apply H2; lia.
      * intros Hf i j Hi0 Hi Hij Hj.
        destruct (decide (j < n)); [apply (Hsw Hf); lia|].
        destruct (decide (n <= i)); [apply H1; lia|].
        apply H2; lia.
Qed.



Lemma perm_len (a b : list Z) : a ≡ₚ b -> len a = len b.
Proof. intros H. unfold len. now rewrite (Permutation_length H). Qed.

Lemma bubble_loop_spec fuel n a0 st e0 :
  n <= len a0 -> (1 <= fuel)%nat -> n < Z.of_nat fuel ->
  sorted_on a0 n (len a0) -> split_at a0 n ->
  returns (bubble_loop K fuel n) (mkWorld a0 st e0) (fun _ w =>
    arr w ≡ₚ a0 /\ sorted_on (arr w) 0 (len a0)).
Proof.
  revert n a0 st e0. induction fuel as [|fuel IH]; intros n a0 st e0 Hn Hf1 Hf P1 P2.
  { lia. }
  cbn [bubble_loop]. apply returns_bind.
  eapply returns_conseq; [now apply bubble_pass_spec|].
  intros sw [a s e] (Hp & H1 & H2 & Hfalse & Htrue). cbn [arr] in *.
  pose proof (perm_len _ _ Hp) as Hl.
  destruct sw.
  - specialize (Htrue eq_refl).
    eapply returns_conseq.
    + apply IH; rewrite ?Hl; try done; lia.
    + intros _ w' [Hp' Hs']. rewrite Hl in Hs'. split; [|done].
      now rewrite Hp'.
  - apply returns_ret. auto.
Qed.

Lemma bubbleSortFunc_sorts w :
  returns (bubbleSortFunc K) w (fun _ w' =>
    arr w' ≡ₚ arr w /\ Sorted Z.le (arr w')).
Proof.
  destruct w as [a s e]. unfold bubbleSortFunc. wp.
  eapply returns_conseq.
  - apply bubble_loop_spec; try lia.
    + intros i j Hi0 Hi Hij Hj. lia.
    + intros k m Hk Hm. lia.
  - intros _ w' [Hp Hs]. split; [done|].
    apply sorted_on_Sorted. now rewrite (perm_len _ _ Hp).
Qed.

End Bubble.

(** ** Step functions touch the environment only through [update] *)

Section Confinement.

Context {Host : Type} (K : Collaborators Host).
Implicit Types (w : World Host) (e : Env Host).

Lemma reach_refl w : reach K w w.
Proof. apply rtc_refl. Qed.

Lemma reach_trans w1 w2 w3 : reach K w1 w2 -> reach K w2 w3 -> reach K w1 w3.
Proof. apply rtc_trans. Qed.

Lemma reach_engine w a s : reach K w (mkWorld a s (env w)).
Proof. apply rtc_once. constructor. Qed.

Lemma reach_emit w h d : reach K w (update K h d w).
Proof. apply rtc_once. constructor. Qed.

Lemma reach_draw w : reach K w (with_env drawn w).
Proof. apply rtc_once. constructor. Qed.

Lemma confined_ret {A} (x : A) : confined K (ret x).
Proof. intros w. apply reach_refl. Qed.

Lemma confined_throw {A} ex : confined K (throw (A := A) ex).
Proof. intros w. apply reach_refl. Qed.

Lemma confined_off_model {A} : confined K (off_model (A := A)).
Proof. now intros w. Qed.

Lemma confined_bind {A B} (m : M Host A) (k : A -> M Host B) :
  confined K m -> (forall x, confined K (k x)) -> confined K (bind m k).
Proof.
  intros Hm Hk w. unfold bind. specialize (Hm w).
  destruct (m w) as [x w'|ex w'| |]; try done.
  specialize (Hk x w'). destruct (k x w'); try done;
    eapply reach_trans; eauto.
Qed.

Lemma confined_try_catch {A} (m : M Host A) (h : JsThrown -> M Host A) :
  confined K m -> (forall ex, confined K (h ex)) -> confined K (try_catch m h).
Proof.
  intros Hm Hh w. unfold try_catch. specialize (Hm w).
  destruct (m w) as [x w'|ex w'| |]; try done.
  specialize (Hh ex w'). destruct (h ex w'); try done;
    eapply reach_trans; eauto.
Qed.

Lemma confined_rd i : confined K (rd i).
Proof. intros w. unfold rd. destruct (in_rangeb _ _); [apply reach_refl|done]. Qed.

Lemma confined_wr i v : confined K (wr i v).
Proof.
  intros w. unfold wr. destruct (in_rangeb _ _); [|done].
  apply reach_engine.
Qed.

Lemma confined_arr_length : confined K arr_length.
Proof. intros w. apply reach_refl. Qed.

Lemma confined_incr_comparisons : confined K incr_comparisons.
Proof. intros w. apply reach_engine. Qed.

Lemma confined_incr_swaps : confined K incr_swaps.
Proof. intros w. apply reach_engine. Qed.

Lemma confined_add_writes k : confined K (add_writes k).
Proof. intros w. apply reach_engine. Qed.

Lemma confined_update_fn h d : confined K (update_fn K h d).
Proof. intros w. apply reach_emit. Qed.

Lemma confined_emit h : confined K (emit K h).
Proof. apply confined_update_fn. Qed.

Lemma confined_random_below b : confined K (random_below K b).
Proof. intros w. apply reach_draw. Qed.

Lemma confined_swap_cells i j : confined K (swap_cells i j).
Proof.
  unfold swap_cells.
  repeat (apply confined_bind; [|intros ?]);
    auto using confined_rd, confined_wr.
Qed.

Lemma confined_for_up {St} n i (body : Z -> St -> M Host St) s :
  (forall k s, confined K (body k s)) -> confined K (for_up n i body s).
Proof.
  intros Hb. revert i s. induction n as [|n IH]; intros i s; cbn [for_up].
  - apply confined_ret.
  - apply confined_bind; auto.
Qed.

Lemma confined_for_range {St} lo hi (body : Z -> St -> M Host St) s :
  (forall k s, confined K (body k s)) -> confined K (for_range lo hi body s).
Proof. apply confined_for_up. Qed.

Lemma confined_for_down {St} n i (body : Z -> St -> M Host St) s :
  (forall k s, confined K (body k s)) -> confined K (for_down n i body s).
Proof.
  intros Hb. revert i s. induction n as [|n IH]; intros i s; cbn [for_down].
  - apply confined_ret.
  - apply confined_bind; auto.
Qed.

Lemma confined_for_range_down {St} hi lo (body : Z -> St -> M Host St) s :
  (forall k s, confined K (body k s)) ->
  confined K (for_range_down hi lo body s).
Proof. apply confined_for_down. Qed.

Lemma confined_while_loop {St} fuel (cond : St -> M Host bool)
    (body : St -> M Host St) s :
  (forall s, confined K (cond s)) -> (forall s, confined K (body s)) ->
  confined K (while_loop fuel cond body s).
Proof.
  intros Hc Hb. revert s. induction fuel as [|fuel IH]; intros s.
  - now intros w.
  - cbn [while_loop]. apply confined_bind; [auto|].
    intros [|]; [|apply confined_ret]. apply confined_bind; auto.
Qed.

End Confinement.

Ltac confine :=
  repeat
    lazymatch goal with
    | |- forall _, _ => intros ?
    | |- confined _ (bind _ _) => apply confined_bind
    | |- confined _ (ret _) => apply confined_ret
    | |- confined _ (throw _) => apply confined_throw
    | |- confined _ off_model => apply confined_off_model
    | |- confined _ (rd _) => apply confined_rd
    | |- confined _ (wr _ _) => apply confined_wr
    | |- confined _ arr_length => apply confined_arr_length
    | |- confined _ incr_comparisons => apply confined_incr_comparisons
    | |- confined _ incr_swaps => apply confined_incr_swaps
    | |- confined _ (add_writes _) => apply confined_add_writes
    | |- confined _ (emit _ _) => apply confined_emit
    | |- confined _ (update_fn _ _ _) => apply confined_update_fn
    | |- confined _ (random_below _ _) => apply confined_random_below
    | |- confined _ (swap_cells _ _) => apply confined_swap_cells
    | |- confined _ (for_range _ _ _ _) => apply confined_for_range
    | |- confined _ (for_range_down _ _ _ _) => apply confined_for_range_down
    | |- confined _ (while_loop _ _ _ _) => apply confined_while_loop
    | |- confined _ (try_catch _ _) => apply confined_try_catch
    | |- confined _ (if ?b then _ else _) => destruct b
    | |- confined _ (match ?x with _ => _ end) => destruct x
    | |- confined _ (fun w => Done _ w) => intros ?; apply reach_refl
    end.

Section VariantsConfined.

Context {Host : Type} (K : Collaborators Host).

Lemma confined_bubble_loop fuel n : confined K (bubble_loop K fuel n).
Proof.
  revert n. induction fuel as [|fuel IH]; intros n.
  - now intros w.
  - cbn [bubble_loop]. unfold bubble_pass. confine. apply IH.
Qed.

Lemma confined_bubbleSortFunc : confined K (bubbleSortFunc K).
Proof. unfold bubbleSortFunc. confine. apply confined_bubble_loop. Qed.

Lemma confined_selectionSortFunc : confined K (selectionSortFunc K).
Proof. unfold selectionSortFunc, selection_min. confine. Qed.

Lemma confined_insertionSortFunc : confined K (insertionSortFunc K).
Proof. unfold insertionSortFunc, insertion_shift. confine. Qed.

Lemma confined_quick_sort fuel low high : confined K (quick_sort K fuel low high).
Proof.
  revert low high. induction fuel as [|fuel IH]; intros low high.
  - now intros w.
  - cbn [quick_sort]. unfold quick_partition. confine; apply IH.
Qed.

Lemma confined_quickSortFunc : confined K (quickSortFunc K).
Proof. unfold quickSortFunc. confine. apply confined_quick_sort. Qed.

Lemma confined_merge_sort fuel l r : confined K (merge_sort K fuel l r).
Proof.
  revert l r. induction fuel as [|fuel IH]; intros l r.
  - now intros w.
  - cbn [merge_sort]. confine; try apply IH.
    unfold merge_merge, merge_slice, merge_drain. confine.
Qed.

Lemma confined_mergeSortFunc : confined K (mergeSortFunc K).
Proof. unfold mergeSortFunc. confine. apply confined_merge_sort. Qed.

Lemma confined_heap_heapify fuel size i : confined K (heap_heapify K fuel size i).
Proof.
  revert i. induction fuel as [|fuel IH]; intros i.
  - now intros w.
  - cbn [heap_heapify]. unfold heap_child. confine; apply IH.
Qed.

Lemma confined_heapSortFunc : confined K (heapSortFunc K).
Proof. unfold heapSortFunc. confine; apply confined_heap_heapify. Qed.

Lemma confined_radixSortFunc : confined K (radixSortFunc K).
Proof.
  unfold radixSortFunc, radix_getMax, radix_countingSort, radix_tally,
    radix_accumulate, radix_place, radix_copy, bump, fill, take_cell.
  confine.
Qed.

Lemma confined_bucketSortFunc : confined K (bucketSortFunc K).
Proof.
  unfold bucketSortFunc, bucket_distribute, bucket_gather, bucket_push.
  confine.
Qed.

Lemma confined_bogo_scan k i : confined K (bogo_scan k i).
Proof. revert i. induction k as [|k IH]; intros i; cbn [bogo_scan]; confine. apply IH. Qed.

Lemma confined_bogoSortFunc : confined K (bogoSortFunc K).
Proof.
  unfold bogoSortFunc. generalize (S (patience K)). intros f.
  induction f as [|f IH].
  - now intros w.
  - cbn [bogo_loop]. unfold bogo_isSorted, bogo_shuffle. confine.
    + apply confined_bogo_scan.
    + apply IH.
Qed.

End VariantsConfined.

(** ** What holds along a run *)

Section Invariants.

Context {Host : Type} (K : Collaborators Host).
Implicit Types (w : World Host) (e : Env Host).

Lemma pause_loop_fields ds e :
  clock (pause_loop ds e) = clock e + foldr Z.add 0 ds /\
  pausedTime (pause_loop ds e) = pausedTime e /\
  pauseStartTime (pause_loop ds e) = pauseStartTime e /\
  initial (pause_loop ds e) = initial e /\
  snaps (pause_loop ds e) = snaps e /\
  host (pause_loop ds e) = host e /\
  calls (pause_loop ds e) = calls e /\
  emits (pause_loop ds e) = emits e /\
  draws (pause_loop ds e) = draws e.
Proof.
  revert e. induction ds as [|d ds IH]; intros e; cbn [pause_loop foldr].
  - repeat split; lia.
  - destruct (IH (sleep d e)) as (-> & -> & -> & -> & -> & -> & -> & -> & ->).
    cbn. repeat split; lia.
Qed.

Lemma pause_step_fields p e :
  clock (pause_step p e) = clock e + pause_total p /\
  pausedTime (pause_step p e) = pausedTime e + pause_total p /\
  initial (pause_step p e) = initial e /\
  snaps (pause_step p e) = snaps e /\
  host (pause_step p e) = host e /\
  calls (pause_step p e) = calls e /\
  emits (pause_step p e) = emits e /\
  draws (pause_step p e) = draws e.
Proof.
  unfold pause_step, pause_total, now. destruct (paused p) as [ds|].
  - cbn zeta.
    cbn [clock pausedTime initial snaps host calls emits draws pauseStartTime].
    match goal with |- context [pause_loop ds ?e1] =>
      destruct (pause_loop_fields ds e1)
        as (H1 & H2 & H3 & H4 & H5 & H6 & H7 & H8 & H9)
    end.
    rewrite H1, H2, H3, H4, H5, H6, H7, H8, H9. cbn. repeat split; lia.
  - repeat split; lia.
Qed.

Lemma delay_step_fields p e :
  pausedTime (delay_step p e) = pausedTime e /\
  initial (delay_step p e) = initial e /\
  snaps (delay_step p e) = snaps e /\
  host (delay_step p e) = host e /\
  calls (delay_step p e) = calls e /\
  emits (delay_step p e) = emits e /\
  draws (delay_step p e) = draws e.
Proof. unfold delay_step. now destruct (0 <? delay p). Qed.

(** One emit, field by field. *)
Lemma update_fields h d w :
  let w' := update K h d w in
  let st := assign_stats (stats w) d in
  arr w' = arr w /\
  stats w' = st /\
  initial (env w') = initial (env w) /\
  calls (env w') =
    calls (env w) ++
      [mkCall (Snapshot (length (snaps (env w)))) (arr w) h st None] /\
  length (snaps (env w')) = S (length (snaps (env w))) /\
  (forall k, (k < length (snaps (env w)))%nat ->
     nth k (snaps (env w')) [] = nth k (snaps (env w)) []) /\
  emits (env w') = S (emits (env w)) /\
  draws (env w') = draws (env w) /\
  pausedTime (env w') =
    pausedTime (env w) + pause_total (pace K (emits (env w))).
Proof.
  destruct w as [a s [i0 sn ho cs cl pt ps em dr]].
  cbn zeta. unfold update, invoke, suspended, copy_arr, with_stats, with_env.
  cbn [deref assign with_env arr stats env initial snaps host calls clock
       pausedTime pauseStartTime emits draws delivered set_snap].
  set (p := pace K em).
  match goal with |- context [pause_step p ?e1] =>
    destruct (pause_step_fields p e1) as (Hc & Hp & Hi & Hs & Hh & Hcs & He & Hd);
    destruct (delay_step_fields p (pause_step p e1))
      as (Hp' & Hi' & Hs' & Hh' & Hcs' & He' & Hd')
  end.
  rewrite Hp', Hi', Hs', Hcs', He', Hd', Hp, Hi, Hs, Hcs, He, Hd.
  clear Hc Hp' Hi' Hs' Hh Hh' Hcs' He' Hd' Hp Hi Hs Hcs He Hd.
  cbn [initial snaps host calls clock pausedTime pauseStartTime emits draws
       set_snap delivered].
  rewrite nth_middle.
  repeat split.
  - now rewrite length_insert, length_app, Nat.add_comm.
  - intros k Hk. rewrite !nth_lookup.
    rewrite list_lookup_insert_ne by lia. now rewrite lookup_app_l.
Qed.

Lemma copies_from_app n cs cs' :
  copies_from n cs -> copies_from (n + length cs) cs' ->
  copies_from n (cs ++ cs').
Proof.
  revert n. induction cs as [|c cs IH]; intros n H H'; cbn in *.
  - now rewrite Nat.add_0_r in H'.
  - destruct H as (? & ? & ?). repeat split; try done.
    apply IH; [done|]. now replace (S n + length cs)%nat with (n + S (length cs))%nat by lia.
Qed.

(** Along a run: the caller's array is left alone; the callback is only
    ever given copies, each a new array object; the copies already handed
    over keep their contents; and the accumulated pause time is that of the
    pause loops of the emits made. *)
Lemma reach_invariant w w' :
  reach K w w' ->
  initial (env w') = initial (env w) /\
  (exists cs,
     calls (env w') = calls (env w) ++ cs /\
     copies_from (length (snaps (env w))) cs /\
     length (snaps (env w')) = (length (snaps (env w)) + length cs)%nat) /\
  (forall k, (k < length (snaps (env w)))%nat ->
     nth k (snaps (env w')) [] = nth k (snaps (env w)) []) /\
  (emits (env w) <= emits (env w'))%nat /\
  pausedTime (env w') - paused_upto K (emits (env w')) =
    pausedTime (env w) - paused_upto K (emits (env w)).
Proof.
  intros H. induction H as [w|w w1 w' Hstep _ IH].
  - repeat split; try lia.
    exists []. now rewrite app_nil_r, Nat.add_0_r.
  - destruct IH as (Hi & (cs & Hcs & Hcf & Hl) & Hk & He & Hp).
    destruct Hstep as [w a s|w|w h d].
    + cbn [env] in *. repeat split; try done. now exists cs.
    + cbn [env with_env drawn initial calls snaps emits pausedTime] in *.
      repeat split; try done. now exists cs.
    + destruct (update_fields h d w)
        as (_ & _ & Hi1 & Hc1 & Hl1 & Hk1 & He1 & _ & Hp1).
      cbn zeta in *. repeat split.
      * congruence.
      * eexists (_ :: cs). rewrite Hcs, Hc1, <- app_assoc. split; [done|].
        split.
        -- cbn. rewrite <- Hl1. done.
        -- rewrite Hl, Hl1. cbn. lia.
      * intros k Hk'. rewrite Hk by lia. now apply Hk1.
      * lia.
      * rewrite Hp, Hp1, He1. cbn [paused_upto]. lia.
Qed.

End Invariants.

(** ** userCodeFunc *)

Section UserCode.

Context {Host : Type} (K : Collaborators Host).
Implicit Types (w : World Host) (e : Env Host).

Lemma userCodeFunc_compile_throws userCode m stack w :
  js_eval K userCode = EvalThrows (JsError m stack) ->
  userCodeFunc K userCode w =
    Throw (new_Error K ("Compilation Error: " +:+ m)) w.
Proof.
  intros H. unfold userCodeFunc, bind, try_catch, compile. now rewrite H.
Qed.

Lemma userCodeFunc_not_callable userCode w :
  js_eval K userCode = EvalNotCallable ->
  userCodeFunc K userCode w =
    Throw (new_Error K ("Compilation Error: " +:+
      "Provided code does not evaluate to a function. Make sure 'async function userSort...' is defined.")) w.
Proof.
  intros H. unfold userCodeFunc, bind, try_catch, compile. now rewrite H.
Qed.

Lemma userCodeFunc_compile_throws_other userCode w :
  js_eval K userCode = EvalThrows JsOther ->
  userCodeFunc K userCode w =
    Throw (new_Error K "An unknown compilation error occurred.") w.
Proof.
  intros H. unfold userCodeFunc, bind, try_catch, compile. now rewrite H.
Qed.

Lemma userCodeFunc_callable userCode f w :
  js_eval K userCode = EvalCallable f ->
  userCodeFunc K userCode w =
    try_catch (f (update_fn K)) (execution_failed K) w.
Proof.
  intros H. unfold userCodeFunc, bind, try_catch at 2, compile.
  now rewrite H.
Qed.

Lemma prefix_append (p s : string) : String.prefix p (p +:+ s) = true.
Proof.
  induction p as [|c p IH]; simpl; [now destruct s|].
  destruct (ascii_dec c c); [exact IH|congruence].
Qed.

Lemma confined_userCodeFunc userCode :
  sandboxed K userCode -> confined K (userCodeFunc K userCode).
Proof.
  intros Hs w. destruct (js_eval K userCode) as [[m stack|]| |f] eqn:E.
  - rewrite (userCodeFunc_compile_throws _ _ _ _ E). apply reach_refl.
  - rewrite (userCodeFunc_compile_throws_other _ _ E). apply reach_refl.
  - rewrite (userCodeFunc_not_callable _ _ E). apply reach_refl.
  - rewrite (userCodeFunc_callable _ _ _ E).
    apply confined_try_catch; [now apply Hs|].
    intros [m stack|]; apply confined_throw.
Qed.

Lemma sortFunc_of_confined key source f :
  sortFunc_of K key source = inr f ->
  (forall s, key = userCode -> source = Some s -> sandboxed K s) ->
  confined K f.
Proof.
  intros Hf Hs. destruct key; cbn in Hf; simplify_eq;
    auto using confined_bubbleSortFunc, confined_selectionSortFunc,
      confined_insertionSortFunc, confined_quickSortFunc,
      confined_mergeSortFunc, confined_heapSortFunc, confined_radixSortFunc,
      confined_bucketSortFunc, confined_bogoSortFunc.
  destruct (missing source) eqn:Hm; simplify_eq.
  apply confined_userCodeFunc.
  destruct source as [s|]; [|done]. cbn. now apply Hs.
Qed.

End UserCode.

(** ** The claims about user code *)

Section UserCodeClaims.

Context {Host : Type} (K : Collaborators Host).
Implicit Types (w : World Host) (e : Env Host).

(** C2, as the code has it.  When the compile phase of the userCode variant
    fails -- the source text yields no callable value -- the variant throws
    an [Error] in the very state it was started in: the working array and
    the counters are as they were.  When building or evaluating the text
    throws an [Error] (a [SyntaxError] for malformed text), the message is
    "Compilation Error: " followed by the original message; when the text
    evaluates to a value that is not callable, it is "Compilation Error: "
    followed by "Provided code does not evaluate to a function. ..."; when
    evaluating the text throws any other value, it is "An unknown
    compilation error occurred.". *)
Theorem compile_failure_aborts_untouched userCode w :
  (forall f, js_eval K userCode <> EvalCallable f) ->
  exists msg,
    userCodeFunc K userCode w = Throw (new_Error K msg) w /\
    match js_eval K userCode with
    | EvalThrows (JsError m _) =>
        msg = "Compilation Error: " +:+ m /\
        String.prefix "Compilation Error:" msg = true
    | EvalThrows JsOther => msg = "An unknown compilation error occurred."
    | EvalNotCallable =>
        msg = "Compilation Error: Provided code does not evaluate to a function. Make sure 'async function userSort...' is defined." /\
        String.prefix "Compilation Error:" msg = true
    | EvalCallable _ => False
    end.
Proof.
  intros Hfail. destruct (js_eval K userCode) as [[m stack|]| |f] eqn:E.
  - rewrite (userCodeFunc_compile_throws K _ _ _ _ E).
    eexists. split; [reflexivity|]. split; [reflexivity|].
    apply (prefix_append "Compilation Error:" (" " +:+ m)).
  - rewrite (userCodeFunc_compile_throws_other K _ _ E).
    eexists. split; reflexivity.
  - rewrite (userCodeFunc_not_callable K _ _ E).
    eexists. split; [reflexivity|]. split; reflexivity.
  - now destruct (Hfail f).
Qed.

(** C3, as the code has it.  When the compiled callable throws, the variant
    throws in the state the callable failed in (nothing is rolled back).  For
    a thrown [Error] the message is "Runtime Error: " followed by the
    original message, with " (at line L, column C)" appended when the stack
    text matches [<anonymous>:L:C]; for any other thrown value the message is
    "An unknown runtime error occurred.". *)
Theorem execution_failure_is_reported userCode f ex w w1 :
  js_eval K userCode = EvalCallable f ->
  f (update_fn K) w = Throw ex w1 ->
  exists msg,
    userCodeFunc K userCode w = Throw (new_Error K msg) w1 /\
    match ex with
    | JsError m stack =>
        msg = "Runtime Error: " +:+ located m stack /\
        String.prefix "Runtime Error:" msg = true /\
        (forall s line column,
           stack = Some s -> find_location s = Some (line, column) ->
           located m stack =
             m +:+ " (at line " +:+ line +:+ ", column " +:+ column +:+ ")")
    | JsOther => msg = "An unknown runtime error occurred."
    end.
Proof.
  intros Hf Hthrow. rewrite (userCodeFunc_callable K _ _ _ Hf).
  unfold try_catch. rewrite Hthrow.
  destruct ex as [m stack|]; cbn [execution_failed throw].
  - eexists. split; [reflexivity|]. split; [reflexivity|]. split.
    + apply (prefix_append "Runtime Error:" (" " +:+ located m stack)).
    + intros s line column -> Hloc. cbn [located]. now rewrite Hloc.
  - eexists. split; reflexivity.
Qed.

(** C9.  [getAlgorithmRunner('userCode', userCode)] with the source text
    missing or empty throws the [Error] "User code must be provided for
    'userCode' algorithm." and yields no runner: there is no run, hence no
    callback invocation, no working copy and no counters. *)
Theorem userCode_needs_source_text e :
  let ex := JsError "User code must be provided for 'userCode' algorithm."
              (new_stack K "User code must be provided for 'userCode' algorithm.") in
  getAlgorithmRunner K userCode None = inl ex /\
  getAlgorithmRunner K userCode (Some "") = inl ex /\
  run K userCode None e = inl ex /\
  run K userCode (Some "") e = inl ex.
Proof. repeat split. Qed.

End UserCodeClaims.

(** ** The claims about the runner *)

Section Runner.

Context {Host : Type} (K : Collaborators Host).
Implicit Types (w : World Host) (e : Env Host).

Lemma run_runner key userCode f e :
  sortFunc_of K key userCode = inr f ->
  run K key userCode e = inr (runner K f e).
Proof. intros H. unfold run, getAlgorithmRunner. now rewrite H. Qed.

Lemma start_invariant f e w1 :
  confined K f ->
  (f (start e) = Done tt w1 \/ exists ex, f (start e) = Throw ex w1) ->
  initial (env w1) = initial e /\
  pausedTime (env w1) =
    paused_upto K (emits (env w1)) - paused_upto K (emits e).
Proof.
  intros Hc Hf. specialize (Hc (start e)).
  assert (Hr : reach K (start e) w1).
  { destruct Hf as [Hf|[ex Hf]]; now rewrite Hf in Hc. }
  destruct (reach_invariant K _ _ Hr) as (Hi & _ & _ & _ & Hp).
  cbn [start env initial pausedTime emits] in *. split; [done|lia].
Qed.

(** C4.  When the step function of the chosen variant throws, the runner
    calls the callback exactly once more -- with the caller's own array, whose
    contents are those of before the run, with no highlights, with the
    counters as they were at the failure and [time] set to now minus start
    minus the accumulated pause time, and with an error message: "Error: "
    followed by the message of the thrown [Error], or "An unknown error
    occurred." for any other thrown value -- and then returns [undefined]
    normally: nothing is thrown to the caller. *)
Theorem failed_run_reports_once key userCode f e ex w1 :
  sortFunc_of K key userCode = inr f ->
  confined K f ->
  f (start e) = Throw ex w1 ->
  exists w',
    run K key userCode e = inr (Done None w') /\
    calls (env w') =
      calls (env w1) ++
        [mkCall InitialArray (initial e) no_highlight
           (mkStats (comparisons (stats w1)) (swaps (stats w1))
              (writes (stats w1))
              (clock (env w1) - clock e -
               (paused_upto K (emits (env w1)) - paused_upto K (emits e))))
           (Some match ex with
                 | JsError m _ => "Error: " +:+ m
                 | JsOther => "An unknown error occurred."
                 end)] /\
    arr w' = arr w1.
Proof.
  intros Hkey Hc Hf.
  destruct (start_invariant f e w1 Hc) as [Hi Hp]; [eauto|].
  rewrite (run_runner _ _ _ _ Hkey). unfold runner. rewrite Hf.
  unfold fail. eexists. split; [reflexivity|].
  unfold invoke.
  cbn [deref assign with_env arr stats env calls delivered set_initial].
  unfold set_time, now. rewrite Hi, Hp. split; [|reflexivity].
  now destruct ex.
Qed.

(** C7.  A run that completes reports as [time] the clock at the completion
    of the step function minus the clock at the start of the run minus the
    time spent in the pause loops of the emits of this run. *)
Theorem elapsed_time_excludes_pauses key userCode f e w1 :
  sortFunc_of K key userCode = inr f ->
  confined K f ->
  f (start e) = Done tt w1 ->
  exists st w',
    run K key userCode e = inr (Done (Some st) w') /\
    time st =
      (clock (env w1) - clock e) -
      (paused_upto K (emits (env w1)) - paused_upto K (emits e)) /\
    comparisons st = comparisons (stats w1) /\
    swaps st = swaps (stats w1) /\
    writes st = writes (stats w1).
Proof.
  intros Hkey Hc Hf.
  destruct (start_invariant f e w1 Hc) as [Hi Hp]; [eauto|].
  rewrite (run_runner _ _ _ _ Hkey). unfold runner. rewrite Hf.
  unfold complete. cbn [copy_arr].
  eexists _, _. split; [reflexivity|].
  cbn [with_stats stats set_time time comparisons swaps writes].
  unfold now. rewrite Hp. repeat split.
Qed.

Lemma invoke_snapshot_fields k h st err w :
  let w' := invoke K (Snapshot k) h st err w in
  arr w' = arr w /\ stats w' = stats w /\
  initial (env w') = initial (env w) /\
  calls (env w') =
    calls (env w) ++ [mkCall (Snapshot k) (nth k (snaps (env w)) []) h st err] /\
  length (snaps (env w')) = length (snaps (env w)) /\
  (forall j, j <> k -> nth j (snaps (env w')) [] = nth j (snaps (env w)) []).
Proof.
  cbn zeta. unfold invoke.
  cbn [deref assign with_env arr stats env initial snaps calls delivered
       set_snap].
  repeat split.
  - now rewrite length_insert.
  - intros j Hj. rewrite !nth_lookup. now rewrite list_lookup_insert_ne.
Qed.

(** C10.  On the path without failure the callback is only ever given a
    copy: every emit, and the final update, pass a new array object whose
    contents are those of the working array at that instant; whatever the
    callback does to the array it is given, the working array and the copies
    handed over earlier keep their contents; writes of the variant to the
    working array leave every copy as it is; and over a whole completed run
    the calls pass pairwise different array objects, none of them the
    working array or the caller's array. *)
Theorem callback_gets_fresh_copies :
  (forall h d w,
     let w' := update K h d w in
     let n := length (snaps (env w)) in
     calls (env w') =
       calls (env w) ++ [mkCall (Snapshot n) (arr w) h (stats w') None] /\
     arr w' = arr w /\
     (forall k, (k < n)%nat -> nth k (snaps (env w')) [] = nth k (snaps (env w)) [])) /\
  (forall start_time w st w',
     complete K start_time w = Done st w' ->
     let n := length (snaps (env w)) in
     exists s,
       st = Some s /\
       calls (env w') =
         calls (env w) ++ [mkCall (Snapshot n) (arr w) no_highlight s None] /\
       arr w' = arr w /\
       (forall k, (k < n)%nat ->
          nth k (snaps (env w')) [] = nth k (snaps (env w)) [])) /\
  (forall i j v w w',
     (wr i v w = Done tt w' \/ swap_cells i j w = Done tt w') ->
     snaps (env w') = snaps (env w)) /\
  (forall f e w1 st w',
     confined K f ->
     f (start e) = Done tt w1 ->
     runner K f e = Done st w' ->
     exists cs,
       calls (env w') = calls e ++ cs /\
       copies_from (length (snaps e)) cs /\
       arr w' = arr w1).
Proof.
  repeat split.
  - destruct (update_fields K h d w) as (_ & Hs & _ & Hc & _ & _).
    cbn zeta in *. now rewrite Hs.
  - now destruct (update_fields K h d w) as (_ & _ & _ & _ & _ & Hk & _).
  - intros start_time w st w' H. unfold complete in H. cbn [copy_arr] in H.
    injection H as <- <-. eexists. split; [reflexivity|].
    unfold invoke.
    cbn [deref assign with_env with_stats arr stats env initial snaps calls
         delivered set_snap].
    rewrite nth_middle. repeat split.
    intros k Hlt. rewrite !nth_lookup.
    rewrite list_lookup_insert_ne by lia. now rewrite lookup_app_l.
  - intros i j v w w' [H|H].
    + unfold wr in H. destruct (in_rangeb _ _); now simplify_eq.
    + unfold swap_cells, bind, rd, wr in H.
      repeat (destruct (in_rangeb _ _); cbn [arr] in H; [|done]).
      now simplify_eq.
  - intros f e w1 st w' Hc Hf Hrun.
    specialize (Hc (start e)). rewrite Hf in Hc.
    destruct (reach_invariant K _ _ Hc) as (_ & (cs & Hcs & Hcf & Hl) & _).
    cbn [start env calls snaps] in Hcs, Hcf, Hl.
    unfold runner in Hrun. rewrite Hf in Hrun.
    unfold complete in Hrun. cbn [copy_arr] in Hrun.
    injection Hrun as <- <-.
    unfold invoke.
    cbn [deref assign with_env with_stats arr stats env initial snaps calls
         delivered set_snap].
    eexists (cs ++ [_]). rewrite Hcs, <- app_assoc. split; [reflexivity|].
    split; [|reflexivity].
    apply copies_from_app; [done|]. cbn. rewrite Hl. done.
Qed.

End Runner.

(** ** Worked runs *)

Ltac close_range := cbn [arr stats env]; vm_compute; easy.

Ltac exec_loop :=
  lazymatch goal with
  | |- in_range _ _ => close_range
  | |- returns (if ?b then _ else _) _ _ =>
      let v := eval vm_compute in b in
      change b with v; cbv iota
  | |- returns (for_range ?lo ?hi _ _) _ _ =>
      let n := eval vm_compute in (Z.to_nat (hi - lo)) in
      unfold for_range; change (Z.to_nat (hi - lo)) with n; cbn [for_up]
  | |- returns (for_up ?n _ _ _) _ _ =>
      let n' := eval vm_compute in n in
      change n with n'; cbn [for_up]
  | |- returns (for_down ?n _ _ _) _ _ =>
      let n' := eval vm_compute in n in
      change n with n'; cbn [for_down]
  | |- returns (for_range_down ?hi ?lo _ _) _ _ =>
      let n := eval vm_compute in (Z.to_nat (hi - lo + 1)) in
      unfold for_range_down; change (Z.to_nat (hi - lo + 1)) with n;
      cbn [for_down]
  | |- returns (bubble_loop _ ?f ?n) _ _ =>
      let f' := eval vm_compute in f in
      change f with f'; cbn [bubble_loop]; unfold bubble_pass
  | |- returns (bogo_loop _ ?f) _ _ =>
      cbn [bogo_loop]; unfold bogo_isSorted
  | |- returns (bogo_scan ?k ?i) _ _ =>
      let k' := eval vm_compute in k in
      change k with k'; cbn [bogo_scan]
  end.

Ltac tidy_world :=
  lazymatch goal with
  | |- returns _ (mkWorld ?a ?s ?e) _ =>
      let a' := eval vm_compute in a in
      let s' := eval vm_compute in s in
      change (mkWorld a s e) with (mkWorld a' s' e)
  | |- _ => idtac
  end.

Ltac exec1 := first [exec_loop | wp1]; tidy_world.

Ltac exec := repeat exec1.

Section Examples.

Context {Host : Type} (K : Collaborators Host).
Implicit Types (w : World Host) (e : Env Host).

Lemma runner_returns f e Q :
  returns f (start e) (fun _ w => Q (arr w) (stats w) (env w)) ->
  exists st w1 w',
    runner K f e = Done (Some st) w' /\
    f (start e) = Done tt w1 /\
    Q (arr w1) (stats w1) (env w1) /\
    arr w' = arr w1 /\
    comparisons st = comparisons (stats w1) /\
    swaps st = swaps (stats w1) /\
    writes st = writes (stats w1) /\
    calls (env w') =
      calls (env w1) ++
        [mkCall (Snapshot (length (snaps (env w1)))) (arr w1) no_highlight
           st None] /\
    draws (env w') = draws (env w1).
Proof.
  intros ([] & w1 & Hf & HQ). unfold runner. rewrite Hf.
  unfold complete. cbn [copy_arr]. eexists _, w1, _.
  split; [reflexivity|]. split; [reflexivity|]. split; [exact HQ|].
  unfold invoke.
  cbn [deref assign with_env with_stats arr stats env initial snaps calls
       delivered set_snap draws set_time comparisons swaps writes].
  rewrite nth_middle. repeat split.
Qed.

(** C5.  Bubble sort on [[5,3,8,1]] completes with the array [[1,3,5,8]],
    6 comparisons and 4 swaps. *)
Theorem bubble_sort_5381 e :
  exists st w,
    run K bubbleSort None (set_initial [5; 3; 8; 1] e) = inr (Done (Some st) w) /\
    arr w = [1; 3; 5; 8] /\
    comparisons st = 6 /\
    swaps st = 4.
Proof.
  destruct (runner_returns (bubbleSortFunc K) (set_initial [5; 3; 8; 1] e)
              (fun a s _ => a = [1; 3; 5; 8] /\ comparisons s = 6 /\ swaps s = 4))
    as (st & w1 & w' & Hrun & _ & (Ha & Hc & Hs) & Ha' & Hc' & Hs' & _).
  { unfold start, bubbleSortFunc.
    cbn [set_initial initial snaps host calls clock emits draws].
    exec. cbn [arr stats comparisons swaps]. repeat split. }
  exists st, w'. rewrite (run_runner K bubbleSort None _ _ eq_refl).
  repeat split; congruence.
Qed.

(** C6.  Bogo sort on the sorted array [[1,2,3]] never enters the shuffle:
    no random number is drawn, no emit is made, the only call of the callback
    is the final one, and it carries 2 comparisons and 0 swaps (the counters
    of the result). *)
Theorem bogo_sort_123 e :
  exists st w c,
    run K bogoSort None (set_initial [1; 2; 3] e) = inr (Done (Some st) w) /\
    arr w = [1; 2; 3] /\
    draws (env w) = draws e /\
    calls (env w) = calls e ++ [c] /\
    call_stats c = st /\
    call_arr c = [1; 2; 3] /\
    call_error c = None /\
    comparisons st = 2 /\
    swaps st = 0.
Proof.
  destruct (runner_returns (bogoSortFunc K) (set_initial [1; 2; 3] e)
              (fun a s e' => a = [1; 2; 3] /\ comparisons s = 2 /\ swaps s = 0 /\
                 calls e' = calls e /\ draws e' = draws e))
    as (st & w1 & w' & Hrun & _ & (Ha & Hc & Hs & Hcalls & Hd) & Ha' & Hc' & Hs'
        & _ & Hcalls' & Hd').
  { unfold start, bogoSortFunc.
    cbn [set_initial initial snaps host calls clock emits draws].
    exec. cbn [arr stats env comparisons swaps calls draws]. repeat split. }
  exists st, w', (mkCall (Snapshot (length (snaps (env w1)))) (arr w1)
                    no_highlight st None).
  rewrite (run_runner K bogoSort None _ _ eq_refl).
  cbn [call_stats call_arr call_error].
  repeat split; congruence.
Qed.

End Examples.

(** ** Cancellation (useArenaState) *)

Section Cancellation.

Variable script : nat -> ArenaPacing.
Variable random : nat -> Z.
Variable js_eval : string -> EvalOutcome Arena.
Variable new_stack : string -> option string.
Variable patience : nat.

Let K : Collaborators Arena :=
  arena_collaborators script random js_eval new_stack patience.

Lemma cleanup_cancelled a : isCancelled a = true -> cleanup a = a.
Proof. destruct a as [c ? ? ? ?]. cbn. now intros ->. Qed.

Lemma arena_invoke_cancelled r h st err (w : World Arena) :
  isCancelled (host (env w)) = true ->
  host (env (invoke K r h st err w)) = host (env w) /\
  calls (env (invoke K r h st err w)) =
    calls (env w) ++ [mkCall r (deref r w) h st err].
Proof.
  intros Hc. unfold invoke.
  cbn [K arena_collaborators updateCallback]. unfold arenaCallback.
  rewrite Hc. cbn [cb_arr cb_host cb_took].
  destruct r; cbn [assign with_env env host calls delivered set_initial
                   set_snap cb_host]; done.
Qed.

Lemma arena_update_cancelled h d (w : World Arena) :
  isCancelled (host (env w)) = true ->
  host (env (update K h d w)) = host (env w).
Proof.
  intros Hc. destruct w as [a s [i0 sn ho cs cl pt ps em dr]].
  cbn [env host] in Hc.
  unfold update, invoke, suspended, copy_arr, with_stats, with_env.
  cbn [deref assign with_env arr stats env initial snaps host calls clock
       pausedTime pauseStartTime emits draws delivered set_snap].
  match goal with |- context [pause_step ?p ?e1] =>
    destruct (pause_step_fields p e1) as (_ & _ & _ & _ & Hh & _);
    destruct (delay_step_fields p (pause_step p e1))
      as (_ & _ & _ & Hh' & _)
  end.
  rewrite Hh', Hh.
  cbn [K arena_collaborators updateCallback pace host]. unfold arenaCallback.
  rewrite Hc. cbn [cb_host]. unfold arena_pace. cbn [meanwhile].
  destruct (ap_cleanup _); [now apply cleanup_cancelled|done].
Qed.

(** C8, as the code has it.  The engine knows nothing of the cancellation
    flag: once the flag is set, the step function runs on and every emit, and
    the final update, still call the callback; but each such call returns at
    once and what the arena shows (array, highlights, counters, error) stays
    as it was when the flag was set. *)
Theorem cancelled_arena_ignores_calls (w w' : World Arena) r h d st err :
  reach K w w' ->
  isCancelled (host (env w)) = true ->
  host (env w') = host (env w) /\
  host (env (invoke K r h st err w')) = host (env w) /\
  length (calls (env (update K h d w'))) = S (length (calls (env w'))) /\
  length (calls (env (invoke K r h st err w'))) = S (length (calls (env w'))).
Proof.
  intros Hr Hc.
  assert (Hh : host (env w') = host (env w)).
  { induction Hr as [w|w w1 w' Hstep _ IH]; [done|].
    rewrite IH.
    - destruct Hstep as [w a s|w|w h' d']; try done.
      now apply arena_update_cancelled.
    - destruct Hstep as [w a s|w|w h' d']; try done.
      now rewrite arena_update_cancelled. }
  assert (Hc' : isCancelled (host (env w')) = true) by now rewrite Hh.
  destruct (arena_invoke_cancelled r h st err w' Hc') as [-> ->].
  destruct (update_fields K h d w') as (_ & _ & _ & -> & _).
  rewrite !length_app. cbn [length]. repeat split; try done; lia.
Qed.

End Cancellation.

(** C8, as stated, fails.  Bubble sort on [[2,1]] in an arena whose effect
    is cleaned up during the first emit: the flag is set when one call has
    been made, and the run goes on to make three calls, the final update
    among them. *)
Lemma cancelled_run_keeps_calling :
  let K := cancel_during 0 in
  let w0 := start (arena_env [2; 1]) in
  let w1 := update K (hl_comparing [0; 1]) no_update w0 in
  isCancelled (host (env w1)) = true /\
  length (calls (env w1)) = 1%nat /\
  exists st w',
    run K bubbleSort None (arena_env [2; 1]) = inr (Done (Some st) w') /\
    length (calls (env w')) = 3%nat /\
    ~ (length (calls (env w')) <= length (calls (env w1)))%nat.
Proof.
  cbn zeta. split; [reflexivity|]. split; [reflexivity|].
  eexists _, _. split; [vm_compute; reflexivity|].
  split; [reflexivity|]. vm_compute. lia.
Qed.

Lemma cancelled_arena_ignores_calls_witness :
  let K := cancel_during 0 in
  let w := update K (hl_comparing [0; 1]) no_update (start (arena_env [2; 1])) in
  let w' := update K (hl_swapping [0; 1]) no_update w in
  reach K w w' /\
  isCancelled (host (env w)) = true /\
  host (env w') = host (env w) /\
  length (calls (env (update K no_highlight no_update w'))) =
    S (length (calls (env w'))).
Proof.
  cbn zeta. split; [apply reach_emit|]. split; [reflexivity|].
  pose proof (cancelled_arena_ignores_calls
    (fun k => mkArenaPacing None 0 0 (if decide (k = 0%nat) then true else false))
    (fun _ => 0) (fun _ => EvalNotCallable) (fun _ => None) 0
    (update (cancel_during 0) (hl_comparing [0; 1]) no_update
       (start (arena_env [2; 1])))
    (update (cancel_during 0) (hl_swapping [0; 1]) no_update
       (update (cancel_during 0) (hl_comparing [0; 1]) no_update
          (start (arena_env [2; 1]))))
    InitialArray no_highlight no_update zero_stats None
    (reach_emit _ _ _ _) eq_refl) as (H1 & _ & H3 & _).
  split; [exact H1|exact H3].
Defined.

(** ** The statements at sample inputs *)

(** C3, as stated, fails.  User code that writes a cell and then throws a
    string: the variant throws an [Error] whose message does not start with
    "Runtime Error:". *)
Lemma thrown_string_has_no_runtime_prefix :
  exists msg stack w1,
    userCodeFunc quiet "f" (start (quiet_env [2; 1])) =
      Throw (JsError msg stack) w1 /\
    arr w1 = [9; 1] /\
    msg = "An unknown runtime error occurred." /\
    String.prefix "Runtime Error:" msg = false.
Proof. eexists _, _, _. repeat split. Qed.

(** C2, as stated, fails.  A source text that throws a string while it is
    evaluated yields no callable value, and the variant throws an [Error]
    whose message does not start with "Compilation Error:". *)
Lemma thrown_string_has_no_compilation_prefix :
  js_eval hasty throwing_text = EvalThrows JsOther /\
  exists msg stack,
    userCodeFunc hasty throwing_text (start (quiet_env [2; 1])) =
      Throw (JsError msg stack) (start (quiet_env [2; 1])) /\
    msg = "An unknown compilation error occurred." /\
    String.prefix "Compilation Error:" msg = false.
Proof. split; [reflexivity|]. eexists _, _. repeat split. Qed.

Lemma compile_failure_aborts_untouched_witness :
  (forall f, js_eval quiet "(" <> EvalCallable f) /\
  js_eval quiet "(" = EvalThrows (JsError "Unexpected token '}'" None) /\
  exists msg,
    userCodeFunc quiet "(" (start (quiet_env [2; 1])) =
      Throw (new_Error quiet msg) (start (quiet_env [2; 1])) /\
    msg = "Compilation Error: Unexpected token '}'".
Proof.
  assert (H : forall f, js_eval quiet "(" <> EvalCallable f)
    by (intros f; discriminate).
  split; [exact H|]. split; [reflexivity|].
  destruct (compile_failure_aborts_untouched quiet "("
              (start (quiet_env [2; 1])) H) as (msg & Hrun & Hmsg & _).
  exists msg. split; [exact Hrun|exact Hmsg].
Defined.

Lemma execution_failure_is_reported_witness :
  exists w1 msg,
    throws_error (update_fn quiet) (start (quiet_env [2; 1])) =
      Throw (JsError "boom" (Some "Error: boom at userSort (<anonymous>:3:11)")) w1 /\
    arr w1 = [9; 1] /\
    userCodeFunc quiet "g" (start (quiet_env [2; 1])) =
      Throw (new_Error quiet msg) w1 /\
    msg = "Runtime Error: boom (at line 3, column 11)".
Proof.
  eexists _, _. split; [reflexivity|]. split; [reflexivity|].
  destruct (execution_failure_is_reported quiet "g" throws_error
              (JsError "boom" (Some "Error: boom at userSort (<anonymous>:3:11)"))
              (start (quiet_env [2; 1])) _ eq_refl eq_refl)
    as (msg & Hrun & Hmsg & _).
  rewrite Hmsg in Hrun. split; [exact Hrun|reflexivity].
Defined.

Lemma failed_run_reports_once_witness :
  exists w1,
    bucketSortFunc quiet (start (quiet_env [5; -3])) =
      Throw (JsError "Cannot read properties of undefined (reading 'push')"
               None) w1 /\
    exists w',
      run quiet bucketSort None (quiet_env [5; -3]) = inr (Done None w') /\
      calls (env w') =
        calls (env w1) ++
          [mkCall InitialArray [5; -3] no_highlight
             (mkStats (comparisons (stats w1)) (swaps (stats w1))
                (writes (stats w1))
                (clock (env w1) - 0 -
                 (paused_upto quiet (emits (env w1)) - paused_upto quiet 0)))
             (Some "Error: Cannot read properties of undefined (reading 'push')")].
Proof.
  assert (H : exists w1,
    bucketSortFunc quiet (start (quiet_env [5; -3])) =
      Throw (JsError "Cannot read properties of undefined (reading 'push')"
               None) w1)
    by (eexists; vm_compute; reflexivity).
  destruct H as (w1 & H). exists w1. split; [exact H|].
  destruct (failed_run_reports_once quiet bucketSort None
              (bucketSortFunc quiet) (quiet_env [5; -3]) _ w1 eq_refl
              (confined_bucketSortFunc quiet) H)
    as (w' & Hrun & Hcalls & _).
  exists w'. split; [exact Hrun|exact Hcalls].
Defined.

Lemma elapsed_time_excludes_pauses_witness :
  exists w1,
    bubbleSortFunc quiet (start (quiet_env [2; 1])) = Done tt w1 /\
    exists st w',
      run quiet bubbleSort None (quiet_env [2; 1]) = inr (Done (Some st) w') /\
      time st =
        (clock (env w1) - 0) -
        (paused_upto quiet (emits (env w1)) - paused_upto quiet 0).
Proof.
  assert (H : exists w1,
    bubbleSortFunc quiet (start (quiet_env [2; 1])) = Done tt w1)
    by (eexists; vm_compute; reflexivity).
  destruct H as (w1 & H). exists w1. split; [exact H|].
  destruct (elapsed_time_excludes_pauses quiet bubbleSort None
              (bubbleSortFunc quiet) (quiet_env [2; 1]) w1 eq_refl
              (confined_bubbleSortFunc quiet) H)
    as (st & w' & Hrun & Htime & _).
  exists st, w'. split; [exact Hrun|exact Htime].
Defined.

Lemma callback_gets_fresh_copies_witness :
  exists w1,
    bubbleSortFunc quiet (start (quiet_env [2; 1])) = Done tt w1 /\
    exists st w' cs,
      runner quiet (bubbleSortFunc quiet) (quiet_env [2; 1]) = Done st w' /\
      calls (env w') = [] ++ cs /\
      copies_from 0 cs /\
      arr w' = arr w1.
Proof.
  assert (H : exists w1,
    bubbleSortFunc quiet (start (quiet_env [2; 1])) = Done tt w1)
    by (eexists; vm_compute; reflexivity).
  destruct H as (w1 & H). exists w1. split; [exact H|].
  assert (H' : exists st w',
    runner quiet (bubbleSortFunc quiet) (quiet_env [2; 1]) = Done st w')
    by (eexists _, _; vm_compute; reflexivity).
  destruct H' as (st & w' & H'). exists st, w'.
  destruct (callback_gets_fresh_copies quiet) as (_ & _ & _ & Hall).
  destruct (Hall (bubbleSortFunc quiet) (quiet_env [2; 1]) w1 st w'
              (confined_bubbleSortFunc quiet) H H')
    as (cs & Hcs & Hcopies & Harr).
  exists cs. split; [exact H'|]. split; [exact Hcs|].
  split; [exact Hcopies|exact Harr].
Defined.

(** ** selectionSortFunc *)

Section Selection.

Context {Host : Type} (K : Collaborators Host).

Lemma selection_min_spec i n a st e0 :
  0 <= i < n -> n = len a ->
  returns (selection_min K i n) (mkWorld a st e0) (fun m w =>
    arr w = a /\ i <= m < n /\
    forall k, i <= k < n -> sel a m <= sel a k).
Proof.
  intros Hi Hn. unfold selection_min.
  apply returns_for_range with (I := fun j m w =>
    arr w = a /\ i <= m < j /\ forall k, i <= k < j -> sel a m <= sel a k);
    [lia| | |].
  - cbn [arr]. repeat split; try lia.
    intros k Hk. replace k with i by lia. lia.
  - intros j m [a' s e] Hj (Ha & Hm & Hmin). cbn [arr] in *. subst a'.
    wp. destruct (Z.ltb_spec (sel a j) (sel a m)) as [Hlt|Hge]; wp.
    + repeat split; try lia. intros k Hk.
      destruct (decide (k = j)) as [->|]; [lia|].
      specialize (Hmin k). lia.
    + repeat split; try lia. intros k Hk.
      destruct (decide (k = j)) as [->|]; [lia|].
      apply Hmin. lia.
  - intros m w (Ha & Hm & Hmin). auto.
Qed.

Lemma selectionSortFunc_sorts w :
  returns (selectionSortFunc K) w (fun _ w' =>
    arr w' ≡ₚ arr w /\ Sorted Z.le (arr w')).
Proof.
  destruct w as [a0 s0 e0]. unfold selectionSortFunc. wp.
  destruct (decide (len a0 = 0)) as [Hz|Hnz].
  { rewrite for_range_empty by lia. wp. split; [done|].
    apply sorted_on_Sorted. intros i j ? ? ? ?. lia. }
  assert (Hpos : 0 < len a0) by (unfold len in *; lia).
  apply returns_for_range with (I := fun i (_ : unit) w =>
    arr w ≡ₚ a0 /\ sorted_on (arr w) 0 i /\ split_at (arr w) i); [lia| | |].
  - cbn [arr]. repeat split; [done| |].
    + intros i j ? ? ? ?. lia.
    + intros k m ? ?. lia.
  - intros i [] [a s e] Hi (Hp & Hs & Hsp). cbn [arr] in *.
    pose proof (perm_len _ _ Hp) as Hl.
    apply returns_bind.
    eapply returns_conseq; [apply selection_min_spec; lia|].
    intros m [a' s' e'] (Ha & Hm & Hmin). cbn [arr] in *. subst a'.
    destruct (Z.eqb_spec m i) as [->|Hne]; cbn [negb].
    + wp. repeat split; [done| |].
      * intros p q Hp0 _ Hpq Hq.
        destruct (decide (q = i)) as [->|]; [|apply Hs; lia].
        destruct (decide (p = i)) as [->|]; [lia|]. apply Hsp; lia.
      * intros k q Hk Hq.
        destruct (decide (k = i)) as [->|]; [apply Hmin; lia|].
        apply Hsp; lia.
    + wp.
      assert (Hsel : forall k, 0 <= k -> sel (swapped a i m) k =
        if decide (k = m) then sel a i
        else if decide (k = i) then sel a m else sel a k).
      { intros k Hk. apply sel_swapped; range. }
      repeat split.
      * rewrite swapped_perm by range. done.
      * intros p q Hp0 _ Hpq Hq. rewrite !Hsel by lia.
        rewrite (decide_False (P := p = m)) by lia.
        rewrite (decide_False (P := q = m)) by lia.
        destruct (decide (q = i)) as [->|].
        -- destruct (decide (p = i)) as [->|]; [lia|]. apply Hsp; lia.
        -- rewrite decide_False by lia. apply Hs; lia.
      * intros k q Hk Hq. rewrite len_swapped in Hq. rewrite !Hsel by lia.
        rewrite (decide_False (P := k = m)) by lia.
        rewrite (decide_False (P := q = i)) by lia.
        destruct (decide (k = i)) as [->|].
        -- case_decide; apply Hmin; lia.
        -- case_decide; apply Hsp; lia.
  - intros [] [a s e] (Hp & Hs & Hsp). cbn [arr] in *.
    wp. split; [done|]. apply sorted_on_Sorted.
    pose proof (perm_len _ _ Hp) as Hl.
    intros p q Hp0 _ Hpq Hq.
    destruct (decide (q = len a0 - 1)) as [->|]; [|apply Hs; lia].
    destruct (decide (p = len a0 - 1)) as [->|]; [lia|]. apply Hsp; lia.
Qed.

End Selection.

(** ** insertionSortFunc *)

Section WhileRule.

Context {Host : Type}.

Lemma returns_while_loop {St} (I : St -> World Host -> Prop) (V : St -> nat)
    fuel (cond : St -> M Host bool) (body : St -> M Host St) s0 w
    (Q : St -> World Host -> Prop) :
  I s0 w -> (V s0 < fuel)%nat ->
  (forall s w, I s w ->
     returns (cond s) w (fun b w' =>
       if b then returns (body s) w' (fun s' w'' => I s' w'' /\ (V s' < V s)%nat)
       else Q s w')) ->
  returns (while_loop fuel cond body s0) w Q.
Proof.
  intros HI HV Hstep. revert s0 w HI HV.
  induction fuel as [|fuel IH]; intros s0 w HI HV; [lia|].
  cbn [while_loop]. apply returns_bind.
  eapply returns_conseq; [apply Hstep, HI|].
  intros [|] w' Hb; [|now apply returns_ret].
  apply returns_bind. eapply returns_conseq; [exact Hb|].
  intros s' w'' [HI' HV']. apply IH; [done|lia].
Qed.

End WhileRule.

Lemma upd_shift_swapped a j current :
  0 <= j -> in_range a (j + 1) ->
  upd (upd a (j + 1) (sel a j)) j current =
  swapped (upd a (j + 1) current) j (j + 1).
Proof.
  intros Hj Hr. apply list_eq_sel.
  - now rewrite length_swapped, !length_upd.
  - intros k Hk. rewrite !in_range_upd in Hk.
    rewrite sel_swapped by (rewrite ?in_range_upd; unfold in_range in *; lia).
    rewrite !sel_upd by (rewrite ?in_range_upd; unfold in_range in *; lia).
    repeat case_decide; try lia; done.
Qed.

Lemma shift_inv_init a i :
  0 < i < len a -> sorted_on a 0 i -> shift_inv a i (i - 1) a.
Proof.
  intros Hi Hs. unfold shift_inv. replace (i - 1 + 1) with i by lia.
  split; [lia|]. split; [done|]. split; [|split; [done|split; [|split]]].
  - replace (upd a i (sel a i)) with a; [done|].
    apply list_eq_sel; [now rewrite length_upd|].
    intros k Hk. rewrite sel_upd by (unfold in_range, len in *; lia).
    now case_decide; subst.
  - intros p q ? ? ? ?. lia.
  - intros k ?. lia.
  - intros p q ? ?. lia.
Qed.

Lemma shift_inv_step a i j b :
  shift_inv a i j b -> i < len a -> 0 <= j -> sel a i < sel b j ->
  shift_inv a i (j - 1) (upd b (j + 1) (sel b j)).
Proof.
  intros (Hj & Hl & Hp & S1 & S2 & S3 & S4) Hi Hj0 Hlt.
  assert (Hsel : forall k, 0 <= k -> sel (upd b (j + 1) (sel b j)) k =
    if decide (j + 1 = k) then sel b j else sel b k).
  { intros k Hk. apply sel_upd; unfold in_range, len in *; lia. }
  unfold shift_inv. replace (j - 1 + 1) with j by lia.
  replace (j - 1 + 2) with (j + 1) by lia. rewrite len_upd.
  split; [lia|]. split; [done|]. split; [|split; [|split; [|split]]].
  - rewrite upd_shift_swapped by (unfold in_range, len in *; lia).
    rewrite swapped_perm
      by (rewrite ?in_range_upd; unfold in_range, len in *; lia).
    done.
  - intros p q Hp0 _ Hpq Hq. rewrite !Hsel by lia.
    rewrite !decide_False by lia. apply S1; lia.
  - intros p q Hp0 Hp1 Hpq Hq. rewrite !Hsel by lia.
    destruct (decide (j + 1 = p)) as [<-|];
      destruct (decide (j + 1 = q)) as [<-|]; try lia.
    + apply S4; lia.
    + apply S2; lia.
  - intros k Hk. rewrite Hsel by lia. case_decide; [lia|]. apply S3; lia.
  - intros p q Hp' Hq. rewrite !Hsel by lia.
    rewrite (decide_False (P := j + 1 = p)) by lia.
    case_decide; [apply S1; lia|apply S4; lia].
Qed.

Lemma shift_inv_final a i j b :
  shift_inv a i j b -> i < len a -> j < 0 \/ sel b j <= sel a i ->
  -1 <= j < i /\
  upd b (j + 1) (sel a i) ≡ₚ a /\
  sorted_on (upd b (j + 1) (sel a i)) 0 (i + 1).
Proof.
  intros (Hj & Hl & Hp & S1 & S2 & S3 & S4) Hi Hstop.
  split; [lia|]. split; [done|].
  intros p q Hp0 _ Hpq Hq.
  rewrite !sel_upd by (unfold in_range, len in *; lia).
  destruct (decide (j + 1 = p)) as [<-|]; destruct (decide (j + 1 = q)) as [<-|];
    try lia.
  - specialize (S3 q). lia.
  - destruct Hstop as [?|Hle]; [lia|].
    etrans; [apply (S1 p j); lia|done].
  - destruct (decide (q <= j)); [apply S1; lia|].
    destruct (decide (p <= j)); [apply S4; lia|].
    apply S2; lia.
Qed.

Section Insertion.

Context {Host : Type} (K : Collaborators Host).

Lemma insertion_shift_spec i a st e0 :
  0 < i < len a -> sorted_on a 0 i ->
  returns (insertion_shift K i (sel a i)) (mkWorld a st e0) (fun j w =>
    -1 <= j < i /\
    upd (arr w) (j + 1) (sel a i) ≡ₚ a /\
    sorted_on (upd (arr w) (j + 1) (sel a i)) 0 (i + 1)).
Proof.
  intros Hi Hs. unfold insertion_shift.
  apply returns_while_loop with
    (V := fun j => Z.to_nat (j + 1))
    (I := fun j w => shift_inv a i j (arr w)).
  - cbn [arr]. now apply shift_inv_init.
  - lia.
  - intros j [b s e] Hinv. cbn [arr] in *.
    assert (Hj : -1 <= j < i) by apply Hinv.
    assert (Hl : len b = len a) by apply Hinv.
    destruct (Z.leb_spec 0 j) as [Hj0|Hjneg].
    + wp. destruct (Z.ltb_spec (sel a i) (sel b j)) as [Hlt|Hge].
      * wp. split; [|lia]. apply shift_inv_step; try done; lia.
      * apply shift_inv_final; try done; [lia|auto].
    + wp. apply shift_inv_final; try done; [lia|]. left. lia.
Qed.

Lemma insertionSortFunc_sorts w :
  returns (insertionSortFunc K) w (fun _ w' =>
    arr w' ≡ₚ arr w /\ Sorted Z.le (arr w')).
Proof.
  destruct w as [a0 s0 e0]. unfold insertionSortFunc. wp.
  destruct (decide (len a0 = 0)) as [Hz|Hnz].
  { rewrite for_range_empty by lia. wp. split; [done|].
    apply sorted_on_Sorted. intros i j ? ? ? ?. lia. }
  assert (Hpos : 0 < len a0) by (unfold len in *; lia).
  apply returns_for_range with (I := fun i (_ : unit) w =>
    arr w ≡ₚ a0 /\ sorted_on (arr w) 0 i); [lia| | |].
  - cbn [arr]. split; [done|]. intros i j ? ? ? ?.
    replace j with i by lia. lia.
  - intros i [] [a s e] Hi (Hp & Hs). cbn [arr] in *.
    pose proof (perm_len _ _ Hp) as Hl.
    wp. eapply returns_conseq; [apply insertion_shift_spec; [lia|done]|].
    intros j [b s1 e1] (Hj & Hp' & Hs'). cbn [arr] in *.
    assert (Hlb : len b = len a).
    { rewrite <- (perm_len _ _ Hp'). now rewrite len_upd. }
    destruct (0 <=? j); wp; (split; [now rewrite Hp'|done]).
  - intros [] [a s e] (Hp & Hs). cbn [arr] in *. split; [done|].
    apply sorted_on_Sorted. now rewrite (perm_len _ _ Hp).
Qed.

End Insertion.

(** ** A permutation that leaves the cells outside a segment alone *)

Lemma split_three (l : list Z) n1 n2 :
  (n1 <= n2)%nat ->
  l = take n1 l ++ take (n2 - n1) (drop n1 l) ++ drop n2 l.
Proof.
  intros H. rewrite <- (take_drop n1 l) at 1. f_equal.
  rewrite <- (take_drop (n2 - n1) (drop n1 l)) at 1. f_equal.
  rewrite drop_drop. f_equal. lia.
Qed.

Lemma perm_frame_middle (l l' : list Z) n1 n2 :
  (n1 <= n2)%nat -> l' ≡ₚ l ->
  (forall k, (k < n1 \/ n2 <= k)%nat -> l' !! k = l !! k) ->
  take (n2 - n1) (drop n1 l') ≡ₚ take (n2 - n1) (drop n1 l).
Proof.
  intros Hn Hp Hout.
  assert (Ht : take n1 l' = take n1 l).
  { apply list_eq. intros i. destruct (decide (i < n1)%nat).
    - rewrite !lookup_take_lt by done. apply Hout. lia.
    - rewrite !lookup_take_ge by lia. done. }
  assert (Hd : drop n2 l' = drop n2 l).
  { apply list_eq. intros i. rewrite !lookup_drop. apply Hout. lia. }
  rewrite (split_three l n1 n2 Hn), (split_three l' n1 n2 Hn) in Hp.
  rewrite Ht, Hd in Hp.
  apply Permutation_app_inv_l in Hp. now apply Permutation_app_inv_r in Hp.
Qed.

Lemma perm_frame_forall (P : Z -> Prop) (a a' : list Z) lo hi :
  0 <= lo -> hi < len a -> a' ≡ₚ a ->
  (forall k, 0 <= k < len a -> k < lo \/ hi < k -> sel a' k = sel a k) ->
  (forall k, lo <= k <= hi -> P (sel a k)) ->
  forall k, lo <= k <= hi -> P (sel a' k).
Proof.
  intros Hlo Hhi Hp Hout HP k Hk.
  pose proof (perm_len _ _ Hp) as Hl.
  set (n1 := Z.to_nat lo). set (n2 := Z.to_nat (hi + 1)).
  assert (Hm : take (n2 - n1) (drop n1 a') ≡ₚ take (n2 - n1) (drop n1 a)).
  { apply perm_frame_middle; [lia|done|].
    intros j Hj. destruct (decide (j < length a)%nat) as [Hin|Hnin].
    - pose proof (sel_lookup a (Z.of_nat j)) as E1.
      pose proof (sel_lookup a' (Z.of_nat j)) as E2.
      rewrite Nat2Z.id in E1, E2.
      rewrite E1, E2 by (unfold in_range, len in *; lia).
      f_equal. apply Hout; unfold len in *; lia.
    - rewrite !lookup_ge_None_2; [done|lia|unfold len in *; lia]. }
  assert (Hin : sel a' k ∈ take (n2 - n1) (drop n1 a')).
  { apply list_elem_of_lookup. exists (Z.to_nat k - n1)%nat.
    rewrite lookup_take_lt by lia. rewrite lookup_drop.
    replace (n1 + (Z.to_nat k - n1))%nat with (Z.to_nat k) by lia.
    apply sel_lookup. unfold in_range, len in *; lia. }
  rewrite Hm in Hin. apply list_elem_of_lookup in Hin as [j Hj].
  apply lookup_take_Some in Hj as [Hj Hlt]. rewrite lookup_drop in Hj.
  assert (Hr : in_range a (Z.of_nat (n1 + j))).
  { apply lookup_lt_Some in Hj. unfold in_range. lia. }
  rewrite <- (Nat2Z.id (n1 + j)) in Hj.
  rewrite (sel_lookup a _ Hr) in Hj. injection Hj as <-.
  apply HP. lia.
Qed.

(** ** quickSortFunc *)

Section Quick.

Context {Host : Type} (K : Collaborators Host).

Lemma quick_partition_spec low high a st e0 :
  0 <= low < high -> high < len a ->
  returns (quick_partition K low high) (mkWorld a st e0) (fun p w =>
    low <= p <= high /\ arr w ≡ₚ a /\
    (forall k, 0 <= k -> k < low \/ high < k -> sel (arr w) k = sel a k) /\
    (forall k, low <= k < p -> sel (arr w) k < sel (arr w) p) /\
    (forall k, p < k <= high -> sel (arr w) p <= sel (arr w) k)).
Proof.
  intros Hlow Hhigh. unfold quick_partition. wp.
  set (pivot := sel a high).
  apply returns_for_range with (I := fun j i w =>
    low - 1 <= i < j /\ arr w ≡ₚ a /\
    (forall k, 0 <= k -> k < low \/ high <= k -> sel (arr w) k = sel a k) /\
    (forall k, low <= k <= i -> sel (arr w) k < pivot) /\
    (forall k, i < k < j -> pivot <= sel (arr w) k)); [lia| | |].
  - cbn [arr]. repeat split; try lia; try done; intros; lia.
  - intros j i [b s e] Hj (Hi & Hp & Hout & Hlt & Hge). cbn [arr] in *.
    pose proof (perm_len _ _ Hp) as Hl.
    wp. destruct (Z.ltb_spec (sel b j) pivot) as [Hc|Hc]; wp.
    + assert (Hsel : forall k, 0 <= k -> sel (swapped b (i + 1) j) k =
        if decide (k = j) then sel b (i + 1)
        else if decide (k = i + 1) then sel b j else sel b k).
      { intros k Hk. apply sel_swapped; range. }
      repeat split; try lia.
      * rewrite swapped_perm by range. done.
      * intros k Hk0 Hk. rewrite Hsel by lia.
        rewrite !decide_False by lia. now apply Hout.
      * intros k Hk. rewrite Hsel by lia.
        destruct (decide (k = j)) as [->|]; [now replace (i + 1) with j by lia|].
        case_decide; [done|]. apply Hlt. lia.
      * intros k Hk. rewrite Hsel by lia.
        destruct (decide (k = j)) as [->|]; [apply Hge; lia|].
        rewrite decide_False by lia. apply Hge. lia.
    + repeat split; try lia; try done.
      intros k Hk. destruct (decide (k = j)) as [->|]; [done|].
      apply Hge. lia.
  - intros i [b s e] (Hi & Hp & Hout & Hlt & Hge). cbn [arr] in *.
    pose proof (perm_len _ _ Hp) as Hl.
    assert (Hhp : sel b high = pivot) by (apply Hout; lia).
    wp.
    assert (Hsel : forall k, 0 <= k -> sel (swapped b (i + 1) high) k =
      if decide (k = high) then sel b (i + 1)
      else if decide (k = i + 1) then sel b high else sel b k).
    { intros k Hk. apply sel_swapped; range. }
    repeat split; try lia.
    + rewrite swapped_perm by range. done.
    + intros k Hk0 Hk. rewrite Hsel by lia.
      rewrite !decide_False by lia. apply Hout; lia.
    + intros k Hk. rewrite !Hsel by lia.
      rewrite (decide_False (P := k = high)) by lia.
      rewrite (decide_False (P := k = i + 1)) by lia.
      destruct (decide (i + 1 = high)) as [Heq|Hne].
      * rewrite Heq, Hhp. apply Hlt. lia.
      * rewrite decide_True by done. rewrite Hhp. apply Hlt. lia.
    + intros k Hk. rewrite !Hsel by lia.
      destruct (decide (i + 1 = high)) as [Heq|Hne]; [lia|].
      rewrite (decide_True (P := i + 1 = i + 1)) by done. rewrite Hhp.
      destruct (decide (k = high)) as [->|]; [apply Hge; lia|].
      rewrite decide_False by lia. apply Hge; lia.
Qed.

Lemma quick_sort_spec fuel low high a st e0 :
  0 <= low -> high < len a -> (1 <= fuel)%nat ->
  high - low + 1 < Z.of_nat fuel ->
  returns (quick_sort K fuel low high) (mkWorld a st e0) (fun _ w =>
    arr w ≡ₚ a /\
    (forall k, 0 <= k -> k < low \/ high < k -> sel (arr w) k = sel a k) /\
    sorted_on (arr w) low (high + 1)).
Proof.
  revert low high a st e0.
  induction fuel as [|fuel IH]; intros low high a st e0 Hlow Hhigh Hf1 Hf; [lia|].
  cbn [quick_sort]. destruct (Z.ltb_spec low high) as [Hlt|Hge].
  - apply returns_bind.
    eapply returns_conseq; [apply quick_partition_spec; lia|].
    intros p [b s e] (Hp & Hpb & Hob & Hltb & Hgeb). cbn [arr] in *.
    pose proof (perm_len _ _ Hpb) as Hlb.
    apply returns_bind.
    eapply returns_conseq; [apply IH; lia|].
    intros _ [c s' e'] (Hpc & Hoc & Hsc). cbn [arr] in *.
    pose proof (perm_len _ _ Hpc) as Hlc.
    eapply returns_conseq; [apply IH; lia|].
    intros _ [d s'' e''] (Hpd & Hod & Hsd). cbn [arr] in *.
    pose proof (perm_len _ _ Hpd) as Hld.
    assert (Hcp : sel c p = sel b p) by (apply Hoc; lia).
    assert (Hdp : sel d p = sel b p) by (rewrite Hod by lia; done).
    assert (Hleft : forall k, low <= k <= p - 1 -> sel c k < sel b p).
    { apply (perm_frame_forall (fun x => x < sel b p) b c low (p - 1));
        try lia; try done.
      - intros k Hk Hk'. apply Hoc; lia.
      - intros k Hk. apply Hltb. lia. }
    assert (Hright : forall k, p + 1 <= k <= high -> sel b p <= sel d k).
    { apply (perm_frame_forall (fun x => sel b p <= x) c d (p + 1) high);
        try lia; try done.
      - intros k Hk Hk'. apply Hod; lia.
      - intros k Hk. rewrite Hoc by lia. apply Hgeb. lia. }
    repeat split.
    + now rewrite Hpd, Hpc.
    + intros k Hk0 Hk. rewrite Hod, Hoc by lia. apply Hob; lia.
    + intros i j Hi0 Hi Hij Hj.
      destruct (decide (j < p)) as [Hjp|Hjp].
      { rewrite !Hod by lia. apply Hsc; lia. }
      destruct (decide (p < i)) as [Hip|Hip].
      { apply Hsd; lia. }
      destruct (decide (i = p)) as [->|Hne].
      { rewrite Hdp. destruct (decide (j = p)) as [->|]; [lia|].
        apply Hright. lia. }
      rewrite (Hod i) by lia.
      destruct (decide (j = p)) as [->|].
      { rewrite Hdp. specialize (Hleft i). lia. }
      etrans; [|apply (Hright j); lia]. specialize (Hleft i). lia.
  - apply returns_ret. cbn [arr]. repeat split; [done|].
    intros i j Hi0 Hi Hij Hj. replace j with i by lia. lia.
Qed.

Lemma quickSortFunc_sorts w :
  returns (quickSortFunc K) w (fun _ w' =>
    arr w' ≡ₚ arr w /\ Sorted Z.le (arr w')).
Proof.
  destruct w as [a s e]. unfold quickSortFunc. wp.
  eapply returns_conseq; [apply quick_sort_spec; unfold len; lia|].
  intros _ w' (Hp & _ & Hs). split; [done|].
  apply sorted_on_Sorted. rewrite (perm_len _ _ Hp).
  now replace (len a) with (len a - 1 + 1) by lia.
Qed.

End Quick.

(** ** mergeSortFunc *)

Lemma sel_take_drop (a : list Z) f n p :
  0 <= f -> 0 <= p < n -> f + p < len a ->
  sel (take (Z.to_nat n) (drop (Z.to_nat f) a)) p = sel a (f + p).
Proof.
  intros Hf Hp Hr. unfold sel. rewrite !nth_lookup.
  rewrite lookup_take_lt by lia. rewrite lookup_drop.
  do 2 f_equal. lia.
Qed.

Lemma len_take_drop (a : list Z) f n :
  0 <= f -> 0 <= n -> f + n <= len a ->
  len (take (Z.to_nat n) (drop (Z.to_nat f) a)) = n.
Proof.
  intros Hf Hn Hr. unfold len in *. rewrite length_take, length_drop. lia.
Qed.

Lemma merge_inv_sym a L R l r i j b :
  merge_inv a L R l r i j b -> merge_inv a R L l r j i b.
Proof.
  intros (Hi & Hj & Hl & Hout & Hs & Hb & Hp).
  unfold merge_inv. replace (l + j + i) with (l + i + j) by lia.
  replace (j + i) with (i + j) by lia.
  split; [lia|]. split; [lia|]. split; [done|]. split; [done|].
  split; [done|]. split.
  - intros p Hp'. destruct (Hb p Hp'). auto.
  - rewrite Hp. apply Permutation_app_comm.
Qed.

Lemma merge_inv_init a L R l r :
  0 <= l -> merge_inv a L R l r 0 0 a.
Proof.
  intros Hl. unfold merge_inv, len. repeat split; try lia.
  - intros i j ? ? ? ?. lia.
  - done.
Qed.

Lemma take_drop_upd_next (b : list Z) nl t v :
  (nl + t < length b)%nat ->
  take (S t) (drop nl (<[(nl + t)%nat := v]> b)) = take t (drop nl b) ++ [v].
Proof.
  intros H. rewrite drop_insert_ge by lia.
  replace (nl + t - nl)%nat with t by lia.
  rewrite (take_S_r _ _ v).
  - now rewrite take_insert_ge by lia.
  - apply list_lookup_insert_eq. rewrite length_drop. lia.
Qed.

Lemma merge_inv_left a L R l r i j b :
  merge_inv a L R l r i j b ->
  0 <= l -> l + len L + len R = r + 1 -> r < len a ->
  i < len L ->
  (j < len R -> sel L i <= sel R j) ->
  (forall p q, 0 <= p -> p <= q -> q < len L -> sel L p <= sel L q) ->
  merge_inv a L R l r (i + 1) j (upd b (l + i + j) (sel L i)).
Proof.
  intros (Hi & Hj & Hl & Hout & Hs & Hb & Hp) Hl0 Hlen Hr Hlt Hle HL.
  assert (Hk : in_range b (l + i + j)) by (unfold in_range, len in *; lia).
  assert (Hsel : forall p, 0 <= p -> sel (upd b (l + i + j) (sel L i)) p =
    if decide (l + i + j = p) then sel L i else sel b p).
  { intros p Hp0. now apply sel_upd. }
  unfold merge_inv. rewrite len_upd.
  replace (l + (i + 1) + j) with (l + i + j + 1) by lia.
  repeat split; try lia.
  - intros p Hp0 Hpo. rewrite Hsel by lia. rewrite decide_False by lia.
    now apply Hout.
  - intros p q Hp0 Hpl Hpq Hq. rewrite !Hsel by lia.
    destruct (decide (l + i + j = q)) as [<-|].
    + case_decide; [lia|]. destruct (Hb p) as [Hb1 _]; [lia|]. auto.
    + rewrite decide_False by lia. apply Hs; lia.
  - intros Hi1. rewrite Hsel by lia. case_decide.
    + apply HL; lia.
    + destruct (Hb p) as [Hb1 _]; [lia|].
      etrans; [exact (Hb1 Hlt)|]. apply HL; lia.
  - intros Hj1. rewrite Hsel by lia. case_decide; [auto|].
    destruct (Hb p) as [_ Hb2]; [lia|]. auto.
  - unfold upd.
    replace (Z.to_nat (i + 1 + j)) with (S (Z.to_nat (i + j))) by lia.
    replace (Z.to_nat (l + i + j)) with (Z.to_nat l + Z.to_nat (i + j))%nat by lia.
    rewrite take_drop_upd_next by (unfold in_range in Hk; lia).
    rewrite Hp.
    replace (Z.to_nat (i + 1)) with (S (Z.to_nat i)) by lia.
    rewrite (take_S_r L (Z.to_nat i) (sel L i))
      by (apply sel_lookup; unfold in_range, len in *; lia).
    rewrite <- !app_assoc. f_equiv. apply Permutation_app_comm.
Qed.

Lemma merge_inv_right a L R l r i j b :
  merge_inv a L R l r i j b ->
  0 <= l -> l + len L + len R = r + 1 -> r < len a ->
  j < len R ->
  (i < len L -> sel R j <= sel L i) ->
  (forall p q, 0 <= p -> p <= q -> q < len R -> sel R p <= sel R q) ->
  merge_inv a L R l r i (j + 1) (upd b (l + i + j) (sel R j)).
Proof.
  intros H Hl0 Hlen Hr Hlt Hle HR.
  apply merge_inv_sym. replace (l + i + j) with (l + j + i) by lia.
  apply merge_inv_left; try done; try lia. now apply merge_inv_sym.
Qed.

Lemma frame_take (a b : list Z) n :
  len b = len a ->
  (forall p, 0 <= p < Z.of_nat n -> sel b p = sel a p) ->
  take n b = take n a.
Proof.
  intros Hl H. apply list_eq. intros i.
  destruct (decide (i < n)%nat) as [Hi|Hi].
  - rewrite !lookup_take_lt by done.
    destruct (decide (i < length a)%nat) as [Hin|Hnin].
    + pose proof (sel_lookup a (Z.of_nat i)) as E1.
      pose proof (sel_lookup b (Z.of_nat i)) as E2.
      rewrite Nat2Z.id in E1, E2.
      rewrite E1, E2 by (unfold in_range, len in *; lia).
      f_equal. apply H. lia.
    + rewrite !lookup_ge_None_2; [done|lia|unfold len in *; lia].
  - now rewrite !lookup_take_ge by lia.
Qed.

Lemma frame_drop (a b : list Z) n :
  len b = len a ->
  (forall p, Z.of_nat n <= p -> sel b p = sel a p) ->
  drop n b = drop n a.
Proof.
  intros Hl H. apply list_eq. intros i. rewrite !lookup_drop.
  destruct (decide (n + i < length a)%nat) as [Hin|Hnin].
  - pose proof (sel_lookup a (Z.of_nat (n + i))) as E1.
    pose proof (sel_lookup b (Z.of_nat (n + i))) as E2.
    rewrite Nat2Z.id in E1, E2.
    rewrite E1, E2 by (unfold in_range, len in *; lia).
    f_equal. apply H. lia.
  - rewrite !lookup_ge_None_2; [done|lia|unfold len in *; lia].
Qed.

Lemma take_add_drop (x : list Z) n m :
  take (n + m) x = take n x ++ take m (drop n x).
Proof.
  revert x. induction n as [|n IH]; intros [|y x]; cbn; try done.
  - now rewrite take_nil.
  - now rewrite IH.
Qed.

Lemma merge_inv_final a l m r b :
  0 <= l -> l <= m -> m < r -> r < len a ->
  merge_inv a (take (Z.to_nat (m - l + 1)) (drop (Z.to_nat l) a))
    (take (Z.to_nat (r - m)) (drop (Z.to_nat (m + 1)) a)) l r
    (m - l + 1) (r - m) b ->
  b ≡ₚ a /\
  (forall p, 0 <= p -> p < l \/ r < p -> sel b p = sel a p) /\
  sorted_on b l (r + 1).
Proof.
  intros Hl0 Hlm Hmr Hr (Hi & Hj & Hl & Hout & Hs & Hb & Hp).
  split; [|split; [done|]].
  - set (n1 := Z.to_nat l). set (n2 := Z.to_nat (r + 1)).
    rewrite (split_three a n1 n2), (split_three b n1 n2) by lia.
    rewrite (frame_take a b n1) by (try done; intros; apply Hout; lia).
    rewrite (frame_drop a b n2) by (try done; intros; apply Hout; lia).
    f_equiv. f_equiv. subst n1 n2.
    replace (Z.to_nat (r + 1) - Z.to_nat l)%nat
      with (Z.to_nat (m - l + 1 + (r - m))) by lia.
    rewrite Hp. rewrite !take_take, !Nat.min_id.
    replace (Z.to_nat (m - l + 1 + (r - m)))
      with (Z.to_nat (m - l + 1) + Z.to_nat (r - m))%nat by lia.
    rewrite take_add_drop. rewrite drop_drop.
    replace (Z.to_nat l + Z.to_nat (m - l + 1))%nat with (Z.to_nat (m + 1)) by lia.
    done.
  - now replace (l + (m - l + 1) + (r - m)) with (r + 1) in Hs by lia.
Qed.

Section Merge.

Context {Host : Type} (K : Collaborators Host).

Lemma merge_slice_spec from n a st (e0 : Env Host) :
  0 <= from -> 0 <= n -> from + n <= len a ->
  returns (merge_slice from n) (mkWorld a st e0) (fun L w =>
    w = mkWorld a st e0 /\
    L = take (Z.to_nat n) (drop (Z.to_nat from) a)).
Proof.
  intros Hf Hn Hr. unfold merge_slice.
  apply returns_for_range with (I := fun i L w =>
    w = mkWorld a st e0 /\
    L = take (Z.to_nat i) (drop (Z.to_nat from) a)); [lia| | |].
  - split; [done|]. now rewrite take_0.
  - intros i L w Hi [-> ->]. wp. split; [done|].
    replace (Z.to_nat (i + 1)) with (S (Z.to_nat i)) by lia.
    rewrite (take_S_r _ _ (sel a (from + i))); [done|].
    rewrite lookup_drop.
    replace (Z.to_nat from + Z.to_nat i)%nat with (Z.to_nat (from + i)) by lia.
    apply sel_lookup. range.
  - auto.
Qed.

Lemma merge_drain_spec a L R l r i j b st e0 :
  merge_inv a L R l r i j b ->
  i = len L \/ j = len R ->
  0 <= l -> l + len L + len R = r + 1 -> r < len a ->
  (forall p q, 0 <= p -> p <= q -> q < len L -> sel L p <= sel L q) ->
  returns (merge_drain K L (len L) (i, l + i + j)) (mkWorld b st e0)
    (fun ik w =>
       merge_inv a L R l r (len L) j (arr w) /\ snd ik = l + len L + j).
Proof.
  intros Hinv Hside Hl0 Hlen Hr HL. unfold merge_drain.
  assert (Hi0 : 0 <= i <= len L) by apply Hinv.
  apply returns_while_loop with
    (V := fun ik => Z.to_nat (len L - fst ik))
    (I := fun ik w =>
       merge_inv a L R l r (fst ik) j (arr w) /\
       snd ik = l + fst ik + j /\
       (fst ik < len L -> j = len R)).
  - cbn [fst snd arr]. split; [done|]. split; [done|]. lia.
  - cbn [fst]. unfold len. lia.
  - intros [i' k'] [b' s e] (Hinv' & Hk & Hj). cbn [fst snd arr] in *.
    subst k'.
    assert (Hi' : 0 <= i' <= len L) by apply Hinv'.
    assert (Hj' : 0 <= j <= len R) by apply Hinv'.
    assert (Hlb : len b' = len a) by apply Hinv'.
    wp. destruct (Z.ltb_spec i' (len L)) as [Hlt|Hge].
    + wp. cbn [fst snd]. split; [split; [|split]|].
      * apply merge_inv_left; try done. lia.
      * lia.
      * intros _. auto.
      * lia.
    + replace i' with (len L) in * by lia. split; [done|lia].
Qed.

Lemma merge_merge_spec l m r a st e0 :
  0 <= l -> l <= m -> m < r -> r < len a ->
  sorted_on a l (m + 1) -> sorted_on a (m + 1) (r + 1) ->
  returns (merge_merge K l m r) (mkWorld a st e0) (fun _ w =>
    arr w ≡ₚ a /\
    (forall p, 0 <= p -> p < l \/ r < p -> sel (arr w) p = sel a p) /\
    sorted_on (arr w) l (r + 1)).
Proof.
  intros Hl0 Hlm Hmr Hr Hs1 Hs2. unfold merge_merge. cbn zeta.
  apply returns_bind.
  eapply returns_conseq; [apply merge_slice_spec; lia|].
  intros L w [-> HL].
  apply returns_bind.
  eapply returns_conseq; [apply merge_slice_spec; lia|].
  intros R w [-> HR].
  assert (HlenL : len L = m - l + 1) by (subst L; apply len_take_drop; lia).
  assert (HlenR : len R = r - m) by (subst R; apply len_take_drop; lia).
  assert (HLs : forall p q, 0 <= p -> p <= q -> q < len L -> sel L p <= sel L q).
  { intros p q Hp Hpq Hq. subst L.
    rewrite !sel_take_drop by lia. apply Hs1; lia. }
  assert (HRs : forall p q, 0 <= p -> p <= q -> q < len R -> sel R p <= sel R q).
  { intros p q Hp Hpq Hq. subst R.
    rewrite !sel_take_drop by lia. apply Hs2; lia. }
  rewrite <- HlenL, <- HlenR.
  apply returns_bind.
  apply returns_while_loop with
    (V := fun ijk => Z.to_nat (len L + len R - fst (fst ijk) - snd (fst ijk)))
    (I := fun ijk w =>
       merge_inv a L R l r (fst (fst ijk)) (snd (fst ijk)) (arr w) /\
       snd ijk = l + fst (fst ijk) + snd (fst ijk)).
  - cbn [fst snd arr]. split; [now apply merge_inv_init|lia].
  - cbn [fst snd]. lia.
  - intros [[i j] k] [b s e] (Hinv & Hk). cbn [fst snd arr] in *.
    subst k.
    assert (Hi : 0 <= i <= len L) by apply Hinv.
    assert (Hj : 0 <= j <= len R) by apply Hinv.
    assert (Hlb : len b = len a) by apply Hinv.
    wp. destruct (Z.ltb_spec i (len L)) as [Hi1|Hi1];
      destruct (Z.ltb_spec j (len R)) as [Hj1|Hj1]; cbn [andb].
    + wp. destruct (Z.leb_spec (sel L i) (sel R j)) as [Hle|Hgt].
      * wp. cbn [fst snd]. split; [split; [|lia]|lia].
        apply merge_inv_left; try done; lia.
      * wp. cbn [fst snd]. split; [split; [|lia]|lia].
        apply merge_inv_right; try done; lia.
    + (* the loop is left: the first drain empties L, the second does nothing *)
      replace j with (len R) in * by lia.
      apply returns_bind.
      eapply returns_conseq;
        [apply (merge_drain_spec a L R l r i (len R)); try done; auto; lia|].
      intros ik [b1 s1 e1] (Hinv1 & Hk1). cbn [arr] in *. rewrite Hk1.
      apply returns_bind.
      eapply returns_conseq.
      { replace (l + len L + len R) with (l + len R + len L) by lia.
        apply (merge_drain_spec a R L l r (len R) (len L));
          try done; auto; try lia.
        now apply merge_inv_sym. }
      intros jk [b2 s2 e2] (Hinv2 & _). cbn [arr] in *. wp.
      apply (merge_inv_final a l m r b2); try lia.
      apply merge_inv_sym in Hinv2.
      subst L R. rewrite HlenL, HlenR in Hinv2. exact Hinv2.
    + replace i with (len L) in * by lia.
      apply returns_bind.
      eapply returns_conseq;
        [apply (merge_drain_spec a L R l r (len L) j); try done; auto; lia|].
      intros ik [b1 s1 e1] (Hinv1 & Hk1). cbn [arr] in *. rewrite Hk1.
      apply returns_bind.
      eapply returns_conseq.
      { replace (l + len L + j) with (l + j + len L) by lia.
        apply (merge_drain_spec a R L l r j (len L));
          try done; auto; try lia.
        now apply merge_inv_sym. }
      intros jk [b2 s2 e2] (Hinv2 & _). cbn [arr] in *. wp.
      apply (merge_inv_final a l m r b2); try lia.
      apply merge_inv_sym in Hinv2.
      subst L R. rewrite HlenL, HlenR in Hinv2. exact Hinv2.
    + replace i with (len L) in * by lia. replace j with (len R) in * by lia.
      apply returns_bind.
      eapply returns_conseq;
        [apply (merge_drain_spec a L R l r (len L) (len R)); try done; auto; lia|].
      intros ik [b1 s1 e1] (Hinv1 & Hk1). cbn [arr] in *. rewrite Hk1.
      apply returns_bind.
      eapply returns_conseq.
      { replace (l + len L + len R) with (l + len R + len L) by lia.
        apply (merge_drain_spec a R L l r (len R) (len L));
          try done; auto; try lia.
        now apply merge_inv_sym. }
      intros jk [b2 s2 e2] (Hinv2 & _). cbn [arr] in *. wp.
      apply (merge_inv_final a l m r b2); try lia.
      apply merge_inv_sym in Hinv2.
      subst L R. rewrite HlenL, HlenR in Hinv2. exact Hinv2.
Qed.

End Merge.

Section MergeSort.

Context {Host : Type} (K : Collaborators Host).

Lemma merge_sort_spec fuel l r a st e0 :
  0 <= l -> r < len a -> (1 <= fuel)%nat -> r - l + 1 < Z.of_nat fuel ->
  returns (merge_sort K fuel l r) (mkWorld a st e0) (fun _ w =>
    arr w ≡ₚ a /\
    (forall p, 0 <= p -> p < l \/ r < p -> sel (arr w) p = sel a p) /\
    sorted_on (arr w) l (r + 1)).
Proof.
  revert l r a st e0.
  induction fuel as [|fuel IH]; intros l r a st e0 Hl Hr Hf1 Hf; [lia|].
  cbn [merge_sort]. destruct (Z.leb_spec r l) as [Hle|Hlt].
  - apply returns_ret. cbn [arr]. repeat split; [done|].
    intros i j Hi0 Hi Hij Hj. replace j with i by lia. lia.
  - cbn zeta.
    assert (Hm : l <= l + (r - l) / 2 < r) by (Z.div_mod_to_equations; lia).
    set (m := l + (r - l) / 2) in *.
    apply returns_bind. eapply returns_conseq; [apply IH; lia|].
    intros _ [b s e] (Hpb & Hob & Hsb). cbn [arr] in *.
    pose proof (perm_len _ _ Hpb) as Hlb.
    apply returns_bind. eapply returns_conseq; [apply IH; lia|].
    intros _ [c s' e'] (Hpc & Hoc & Hsc). cbn [arr] in *.
    pose proof (perm_len _ _ Hpc) as Hlc.
    eapply returns_conseq.
    + apply merge_merge_spec; try lia; try done.
      intros i j Hi0 Hi Hij Hj. rewrite !Hoc by lia. apply Hsb; lia.
    + intros _ [d s'' e''] (Hpd & Hod & Hsd). cbn [arr] in *.
      repeat split; [|  |done].
      * now rewrite Hpd, Hpc.
      * intros p Hp0 Hp. rewrite Hod, Hoc by lia. apply Hob; lia.
Qed.

Lemma mergeSortFunc_sorts w :
  returns (mergeSortFunc K) w (fun _ w' =>
    arr w' ≡ₚ arr w /\ Sorted Z.le (arr w')).
Proof.
  destruct w as [a s e]. unfold mergeSortFunc. wp.
  eapply returns_conseq; [apply merge_sort_spec; unfold len; lia|].
  intros _ w' (Hp & _ & Hs). split; [done|].
  apply sorted_on_Sorted. rewrite (perm_len _ _ Hp).
  now replace (len a) with (len a - 1 + 1) by lia.
Qed.

End MergeSort.

(** ** heapSortFunc *)

Lemma heap_except_done lo size a i :
  heap_except lo size a i -> node_ok size a i -> heap_from lo size a.
Proof.
  intros [Ha _] Hi j Hj. destruct (decide (j = i)) as [->|]; auto.
Qed.

Lemma heap_from_except lo size a i :
  0 <= i -> heap_from (i + 1) size a -> lo = i -> heap_except lo size a i.
Proof.
  intros Hi H ->. split.
  - intros j Hj Hne. apply H. lia.
  - intros p c Hp Hpar. lia.
Qed.

Lemma sift_step lo size a i g :
  0 <= lo -> lo <= i -> i < size -> size <= len a ->
  heap_except lo size a i ->
  g = 2 * i + 1 \/ g = 2 * i + 2 -> g < size ->
  sel a i < sel a g ->
  (2 * i + 1 < size -> sel a (2 * i + 1) <= sel a g) ->
  (2 * i + 2 < size -> sel a (2 * i + 2) <= sel a g) ->
  heap_except lo size (swapped a i g) g.
Proof.
  intros Hlo Hi Hsz Hlen [Ha Hb] Hg Hgs Hlt Hl Hr.
  assert (Hsel : forall k, 0 <= k -> sel (swapped a i g) k =
    if decide (k = g) then sel a i
    else if decide (k = i) then sel a g else sel a k).
  { intros k Hk. apply sel_swapped; unfold in_range, len in *; lia. }
  split.
  - intros j Hj Hne.
    destruct (decide (j = i)) as [->|Hji].
    + (* the node the larger child moved to *)
      split; intros Hc; rewrite !Hsel by lia.
      * rewrite (decide_True (P := i = i)) by done.
        rewrite (decide_False (P := i = g)) by lia.
        rewrite (decide_False (P := 2 * i + 1 = i)) by lia.
        case_decide; [lia|auto].
      * rewrite (decide_True (P := i = i)) by done.
        rewrite (decide_False (P := i = g)) by lia.
        rewrite (decide_False (P := 2 * i + 2 = i)) by lia.
        case_decide; [lia|auto].
    + destruct (Ha j Hj Hji) as [H1 H2].
      split; intros Hc; rewrite !Hsel by lia.
      * rewrite (decide_False (P := j = g)) by lia.
        rewrite (decide_False (P := j = i)) by lia.
        rewrite (decide_False (P := 2 * j + 1 = g)) by lia.
        case_decide; [|auto].
        apply (Hb j g); lia.
      * rewrite (decide_False (P := j = g)) by lia.
        rewrite (decide_False (P := j = i)) by lia.
        rewrite (decide_False (P := 2 * j + 2 = g)) by lia.
        case_decide; [|auto].
        apply (Hb j g); lia.
  - intros p c Hp Hpar Hc Hcs.
    assert (p = i) as -> by lia.
    rewrite !Hsel by lia.
    rewrite (decide_False (P := c = g)) by lia.
    rewrite (decide_False (P := c = i)) by lia.
    rewrite (decide_False (P := i = g)) by lia.
    rewrite (decide_True (P := i = i)) by done.
    destruct (Ha g) as [H1 H2]; [lia|lia|].
    destruct Hc as [->| ->]; auto.
Qed.

Lemma heap_root_max size a :
  heap_from 0 size a ->
  forall k, 0 <= k < size -> sel a k <= sel a 0.
Proof.
  intros H k Hk.
  assert (Hstrong : forall n : nat, forall k, 0 <= k < size ->
    k <= Z.of_nat n -> sel a k <= sel a 0).
  { induction n as [|n IH]; intros k' Hk' Hn.
    - replace k' with 0 by lia. lia.
    - destruct (decide (k' = 0)) as [->|Hne]; [lia|].
      assert (Hpar : exists p, 0 <= p < k' /\ (k' = 2 * p + 1 \/ k' = 2 * p + 2)).
      { exists ((k' - 1) / 2). Z.div_mod_to_equations. lia. }
      destruct Hpar as (p & Hp & Hc).
      destruct (H p) as [H1 H2]; [lia|].
      etrans; [|apply (IH p); lia].
      destruct Hc as [->| ->]; [apply H1|apply H2]; lia. }
  apply (Hstrong (Z.to_nat k)); lia.
Qed.

Section Heap.

Context {Host : Type} (K : Collaborators Host).

Lemma heap_child_spec size c g a st e0 :
  (c < size -> in_range a c) -> in_range a g ->
  returns (heap_child K size c g) (mkWorld a st e0) (fun x w =>
    arr w = a /\
    x = if (c <? size) && (sel a g <? sel a c) then c else g).
Proof.
  intros Hc Hg. unfold heap_child.
  destruct (Z.ltb_spec c size) as [Hlt|Hge]; cbn [andb].
  - specialize (Hc Hlt). wp. done.
  - wp. done.
Qed.

Lemma heap_heapify_spec fuel size i lo a st e0 :
  0 <= lo -> lo <= i -> i < size -> size <= len a ->
  size - i < Z.of_nat fuel ->
  heap_except lo size a i ->
  returns (heap_heapify K fuel size i) (mkWorld a st e0) (fun _ w =>
    arr w ≡ₚ a /\
    (forall k, 0 <= k -> k < i \/ size <= k -> sel (arr w) k = sel a k) /\
    heap_from lo size (arr w)).
Proof.
  revert i a st e0.
  induction fuel as [|fuel IH]; intros i a st e0 Hlo Hi Hsz Hlen Hf Hex; [lia|].
  cbn [heap_heapify].
  apply returns_bind.
  eapply returns_conseq; [apply heap_child_spec; range|].
  intros g1 [a1 s1 e1] [Ha1 Hg1]. cbn [arr] in *. subst a1.
  assert (Hg1r : g1 = i \/ (g1 = 2 * i + 1 /\ 2 * i + 1 < size)).
  { subst g1. destruct (Z.ltb_spec (2 * i + 1) size); cbn [andb]; [|auto].
    destruct (_ <? _); auto. }
  apply returns_bind.
  eapply returns_conseq; [apply heap_child_spec; range|].
  intros g [a2 s2 e2] [Ha2 Hg]. cbn [arr] in *. subst a2.
  assert (Hfacts :
    (g = i \/ ((g = 2 * i + 1 \/ g = 2 * i + 2) /\ g < size /\ sel a i < sel a g)) /\
    (2 * i + 1 < size -> sel a (2 * i + 1) <= sel a g) /\
    (2 * i + 2 < size -> sel a (2 * i + 2) <= sel a g) /\
    sel a i <= sel a g).
  { subst g g1.
    destruct (Z.ltb_spec (2 * i + 1) size); cbn [andb];
      [destruct (Z.ltb_spec (sel a i) (sel a (2 * i + 1)))|];
      (destruct (Z.ltb_spec (2 * i + 2) size); cbn [andb];
       [match goal with
        | |- context [?x <? ?y] => destruct (Z.ltb_spec x y)
        end|]); lia. }
  destruct Hfacts as (Hg' & Hl & Hr & Hge).
  destruct (Z.eqb_spec g i) as [->|Hne]; cbn [negb].
  - apply returns_ret. cbn [arr]. split; [done|]. split; [done|].
    apply (heap_except_done lo size a i Hex). split; auto.
  - destruct Hg' as [?|(Hgc & Hgs & Hlt)]; [done|].
    wp.
    eapply returns_conseq.
    + apply IH; try lia; rewrite ?len_swapped; try lia.
      apply sift_step; try done; lia.
    + intros _ [b s e] (Hp & Hout & Hheap). cbn [arr] in *.
      split; [|split; [|done]].
      * rewrite Hp. apply swapped_perm; range.
      * intros k Hk0 Hk. rewrite Hout by lia.
        rewrite sel_swapped by range.
        rewrite !decide_False by lia. done.
Qed.

End Heap.

Section HeapSort.

Context {Host : Type} (K : Collaborators Host).

Lemma for_range_down_empty {St} hi lo (body : Z -> St -> M Host St) s0 :
  hi < lo -> for_range_down hi lo body s0 = ret s0.
Proof.
  intros H. unfold for_range_down.
  now replace (Z.to_nat (hi - lo + 1)) with O by lia.
Qed.

Lemma heap_build_spec a st e0 :
  returns
    (for_range_down (len a / 2 - 1) 0 (fun i _ =>
       heap_heapify K (S (Z.to_nat (len a))) (len a) i) tt)
    (mkWorld a st e0)
    (fun _ w => arr w ≡ₚ a /\ heap_from 0 (len a) (arr w)).
Proof.
  assert (Hn : 0 <= len a) by (unfold len; lia).
  assert (Hhalf : 0 <= len a / 2 /\ 2 * (len a / 2) <= len a /\
                  len a < 2 * (len a / 2) + 2)
    by (Z.div_mod_to_equations; lia).
  apply returns_for_range_down with (I := fun i (_ : unit) w =>
    arr w ≡ₚ a /\ heap_from (i + 1) (len a) (arr w)); [lia| | |].
  - cbn [arr]. split; [done|]. intros j Hj. split; lia.
  - intros i [] [b s e] Hi [Hp Hh]. cbn [arr] in *.
    pose proof (perm_len _ _ Hp) as Hl.
    eapply returns_conseq.
    + apply (heap_heapify_spec K _ (len a) i i); try lia.
      apply heap_from_except; [lia|done|done].
    + intros _ [c s' e'] (Hpc & _ & Hhc). cbn [arr] in *.
      split; [now rewrite Hpc|]. now replace (i - 1 + 1) with i by lia.
  - intros [] w [Hp Hh]. split; [done|].
    now replace (0 - 1 + 1) with 0 in Hh by lia.
Qed.

Lemma heap_extract_spec a0 a st e0 :
  a ≡ₚ a0 -> heap_from 0 (len a) a ->
  returns
    (for_range_down (len a - 1) 1 (fun i _ =>
       bind incr_swaps (fun _ =>
       bind (add_writes 2) (fun _ =>
       bind (swap_cells 0 i) (fun _ =>
       bind (emit K (hl_swapping [0; i])) (fun _ =>
       heap_heapify K (S (Z.to_nat (len a))) i 0))))) tt)
    (mkWorld a st e0)
    (fun _ w => arr w ≡ₚ a0 /\ sorted_on (arr w) 0 (len a)).
Proof.
  intros Hp0 Hh0.
  assert (Hn : 0 <= len a) by (unfold len; lia).
  destruct (decide (len a = 0)) as [Hz|Hnz].
  { rewrite for_range_down_empty by lia. apply returns_ret. cbn [arr].
    split; [done|]. intros i j ? ? ? ?. lia. }
  apply returns_for_range_down with (I := fun i (_ : unit) w =>
    arr w ≡ₚ a0 /\ len (arr w) = len a /\
    heap_from 0 (i + 1) (arr w) /\
    sorted_on (arr w) (i + 1) (len a) /\ split_at (arr w) (i + 1)); [lia| | |].
  - cbn [arr]. replace (len a - 1 + 1) with (len a) by lia.
    split; [done|]. split; [done|]. split; [done|]. split.
    + intros i j ? ? ? ?. lia.
    + intros k m ? ?. lia.
  - intros i [] [b s e] Hi (Hp & Hl & Hh & Hs & Hsp). cbn [arr] in *.
    wp.
    assert (Hsel : forall k, 0 <= k -> sel (swapped b 0 i) k =
      if decide (k = i) then sel b 0
      else if decide (k = 0) then sel b i else sel b k).
    { intros k Hk. apply sel_swapped; range. }
    pose proof (heap_root_max (i + 1) b Hh) as Hmax.
    eapply returns_conseq.
    + apply (heap_heapify_spec K _ i 0 0); rewrite ?len_swapped; try lia.
      split.
      * intros j Hj Hne. destruct (Hh j Hj) as [H1 H2].
        split; intros Hc; rewrite !Hsel by lia;
          rewrite !decide_False by lia; [apply H1|apply H2]; lia.
      * intros p c Hp' Hpar. lia.
    + intros _ [c s1 e1] (Hpc & Hout & Hhc). cbn [arr] in *.
      replace (i - 1 + 1) with i by lia.
      assert (Hlc : len c = len a).
      { rewrite (perm_len _ _ Hpc). now rewrite len_swapped. }
      assert (Hhi : forall m, i <= m < len a -> sel c m =
        if decide (m = i) then sel b 0 else sel b m).
      { intros m Hm. rewrite Hout by lia. rewrite Hsel by lia.
        case_decide; [done|]. now rewrite decide_False by lia. }
      assert (Hlow : forall v, sel b 0 <= v ->
        forall k, 0 <= k <= i - 1 -> sel c k <= v).
      { intros v Hv.
        apply (perm_frame_forall (fun x => x <= v) (swapped b 0 i) c 0 (i - 1));
          rewrite ?len_swapped; try lia; try done.
        - intros k Hk Hk'. apply Hout; lia.
        - intros k Hk. rewrite Hsel by lia. rewrite decide_False by lia.
          etrans; [|exact Hv]. case_decide; apply Hmax; lia. }
      split; [|split; [done|split; [done|split]]].
      * rewrite Hpc, <- Hp. apply swapped_perm; range.
      * intros p q Hp0' Hpi Hpq Hq. rewrite !Hhi by lia.
        destruct (decide (p = i)) as [->|].
        -- case_decide; [lia|]. apply Hsp; lia.
        -- rewrite decide_False by lia. apply Hs; lia.
      * intros k m Hk Hm. rewrite Hlc in Hm. rewrite (Hhi m) by lia.
        apply Hlow; [|lia]. case_decide; [lia|]. apply Hsp; lia.
  - intros [] [b s e] (Hp & Hl & Hh & Hs & Hsp). cbn [arr] in *.
    split; [done|]. intros p q Hp0' _ Hpq Hq.
    destruct (decide (p = 0)) as [->|]; [|apply Hs; lia].
    destruct (decide (q = 0)) as [->|]; [lia|]. apply Hsp; lia.
Qed.

Lemma heapSortFunc_sorts w :
  returns (heapSortFunc K) w (fun _ w' =>
    arr w' ≡ₚ arr w /\ Sorted Z.le (arr w')).
Proof.
  destruct w as [a s e]. unfold heapSortFunc. wp.
  eapply returns_conseq; [apply heap_build_spec|].
  intros _ [b s' e'] [Hp Hh]. cbn [arr] in *.
  pose proof (perm_len _ _ Hp) as Hl. rewrite <- Hl in *.
  eapply returns_conseq; [apply (heap_extract_spec a); done|].
  intros _ [c s'' e''] [Hpc Hs]. cbn [arr] in *.
  split; [done|]. apply sorted_on_Sorted.
  now rewrite (perm_len _ _ Hpc), <- Hl.
Qed.

End HeapSort.

(** ** bogoSortFunc *)

Lemma adjacent_sorted (a : list Z) n :
  (forall p, 0 <= p -> p + 1 < n -> sel a p <= sel a (p + 1)) ->
  sorted_on a 0 n.
Proof.
  intros H i j Hi0 _ Hij Hj.
  assert (Hgen : forall d : nat, forall j, j = i + Z.of_nat d -> j < n ->
    sel a i <= sel a j).
  { induction d as [|d IH]; intros j' -> Hj'.
    - replace (i + Z.of_nat 0) with i by lia. lia.
    - etrans; [apply (IH (i + Z.of_nat d)); lia|].
      replace (i + Z.of_nat (S d)) with (i + Z.of_nat d + 1) by lia.
      apply H; lia. }
  apply (Hgen (Z.to_nat (j - i))); lia.
Qed.

Section Bogo.

Context {Host : Type} (K : Collaborators Host).

Lemma returns_random_below b w (Q : Z -> World Host -> Prop) :
  Q (random K (draws (env w)) mod b) (with_env drawn w) ->
  returns (random_below K b) w Q.
Proof. intros H. now eexists _, _. Qed.

Lemma bogo_scan_spec k i a st (e0 : Env Host) :
  0 <= i -> i + Z.of_nat k < len a \/ k = O ->
  returns (bogo_scan k i) (mkWorld a st e0) (fun b w =>
    arr w = a /\ env w = e0 /\
    (b = true ->
     forall p, i <= p -> p < i + Z.of_nat k -> sel a p <= sel a (p + 1))).
Proof.
  revert i st. induction k as [|k IH]; intros i st Hi Hk; cbn [bogo_scan].
  - apply returns_ret. cbn [arr env]. repeat split. intros _ p ? ?. lia.
  - destruct Hk as [Hk|]; [|lia]. wp.
    destruct (Z.ltb_spec (sel a (i + 1)) (sel a i)) as [Hlt|Hge].
    + wp. repeat split. discriminate.
    + eapply returns_conseq; [apply IH; lia|].
      intros b w (Ha & He & Hb). repeat split; try done.
      intros Hbt p Hp1 Hp2. destruct (decide (p = i)) as [->|]; [done|].
      apply (Hb Hbt); lia.
Qed.

Lemma bogo_isSorted_spec a st (e0 : Env Host) :
  returns bogo_isSorted (mkWorld a st e0) (fun b w =>
    arr w = a /\ env w = e0 /\ (b = true -> sorted_on a 0 (len a))).
Proof.
  unfold bogo_isSorted. wp.
  eapply returns_conseq.
  - apply bogo_scan_spec; [lia|].
    destruct (decide (len a = 0)); [right|left]; unfold len in *; lia.
  - intros b w (Ha & He & Hb). repeat split; try done.
    intros Hbt. apply adjacent_sorted. intros p Hp0 Hp.
    apply (Hb Hbt); lia.
Qed.

Lemma bogo_shuffle_spec a st e0 :
  returns (bogo_shuffle K) (mkWorld a st e0) (fun _ w => arr w ≡ₚ a).
Proof.
  unfold bogo_shuffle. wp.
  assert (Hn : 0 <= len a) by (unfold len; lia).
  destruct (decide (len a = 0)) as [Hz|Hnz].
  { rewrite for_range_down_empty by lia. wp. done. }
  apply returns_for_range_down with (I := fun i (_ : unit) w =>
    arr w ≡ₚ a); [lia|done| |].
  - intros i [] [b s e] Hi Hp. cbn [arr] in *.
    pose proof (perm_len _ _ Hp) as Hl.
    apply returns_bind, returns_random_below. unfold with_env.
    cbn [arr stats env].
    assert (Hj : 0 <= random K (draws e) mod (i + 1) < i + 1)
      by (apply Z.mod_pos_bound; lia).
    wp. rewrite swapped_perm by range. done.
  - intros [] [b s e] Hp. cbn [arr] in *. wp. done.
Qed.

Lemma bogo_loop_sorts fuel w w' :
  bogo_loop K fuel w = Done tt w' ->
  arr w' ≡ₚ arr w /\ sorted_on (arr w') 0 (len (arr w')).
Proof.
  revert w. induction fuel as [|fuel IH]; intros [a s e] H; [done|].
  cbn [bogo_loop] in H. unfold bind in H.
  destruct (bogo_isSorted_spec a s e) as (b & w1 & -> & Ha & _ & Hb) in H.
  destruct b.
  - injection H as <-. rewrite Ha. cbn [arr]. auto.
  - destruct w1 as [a1 s1 e1]. cbn [arr] in Ha. subst a1.
    destruct (bogo_shuffle_spec a s1 e1) as ([] & w2 & -> & Hp) in H.
    apply IH in H as [Hp' Hs]. split; [|done]. now rewrite Hp', Hp.
Qed.

Lemma bogoSortFunc_sorts w w' :
  bogoSortFunc K w = Done tt w' ->
  arr w' ≡ₚ arr w /\ Sorted Z.le (arr w').
Proof.
  intros H. apply bogo_loop_sorts in H as [Hp Hs].
  split; [done|]. now apply sorted_on_Sorted.
Qed.

End Bogo.

(** ** bucketSortFunc *)

Lemma bucket_shift_spec fuel a i b j :
  shift_inv a i j b -> i < len a -> (Z.to_nat (j + 1) <= fuel)%nat ->
  shift_inv a i (snd (bucket_shift fuel b (sel a i) j))
                (fst (bucket_shift fuel b (sel a i) j)) /\
  (snd (bucket_shift fuel b (sel a i) j) < 0 \/
   sel (fst (bucket_shift fuel b (sel a i) j))
       (snd (bucket_shift fuel b (sel a i) j)) <= sel a i).
Proof.
  revert b j. induction fuel as [|fuel IH]; intros b j Hinv Hi Hf.
  - cbn. split; [done|]. left. destruct Hinv as (? & _). lia.
  - cbn [bucket_shift].
    destruct (Z.leb_spec 0 j) as [Hj0|Hjn]; cbn [andb].
    + destruct (Z.ltb_spec (sel a i) (sel b j)) as [Hlt|Hge].
      * apply IH; [|done|lia]. now apply shift_inv_step.
      * cbn. auto.
    + cbn. split; [done|]. left. lia.
Qed.

Lemma bucket_insertion_spec n j b b0 :
  1 <= j -> j + Z.of_nat n = len b0 -> b ≡ₚ b0 -> sorted_on b 0 j ->
  bucket_insertion n j b ≡ₚ b0 /\
  sorted_on (bucket_insertion n j b) 0 (len b0).
Proof.
  revert j b. induction n as [|n IH]; intros j b Hj Hn Hp Hs.
  - cbn. split; [done|]. now replace (len b0) with j by lia.
  - cbn [bucket_insertion].
    pose proof (perm_len _ _ Hp) as Hl.
    assert (Hinit : shift_inv b j (j - 1) b) by (apply shift_inv_init; [lia|done]).
    destruct (bucket_shift_spec (Z.to_nat j) b j b (j - 1) Hinit) as [Hinv Hstop];
      [lia|lia|].
    destruct (bucket_shift (Z.to_nat j) b (sel b j) (j - 1)) as [b' k].
    cbn [fst snd] in *.
    destruct (shift_inv_final b j k b' Hinv) as (Hk & Hp' & Hs'); [lia|done|].
    apply IH; [lia|lia| |done]. now rewrite Hp'.
Qed.

Lemma sorted_on_StronglySorted (l : list Z) :
  sorted_on l 0 (len l) -> StronglySorted Z.le l.
Proof.
  intros H. apply Sorted_StronglySorted.
  - intros x y z. apply Z.le_trans.
  - now apply sorted_on_Sorted.
Qed.

Lemma bucket_sort_one_spec b :
  bucket_sort_one b ≡ₚ b /\ StronglySorted Z.le (bucket_sort_one b).
Proof.
  unfold bucket_sort_one.
  destruct (decide (len b <= 1)) as [Hsmall|Hbig].
  - replace (Z.to_nat (len b - 1)) with O by lia. cbn. split; [done|].
    apply sorted_on_StronglySorted. intros i j ? ? ? ?.
    replace j with i by lia. lia.
  - destruct (bucket_insertion_spec (Z.to_nat (len b - 1)) 1 b b)
      as [Hp Hs]; [lia|lia|done| |].
    + intros i j ? ? ? ?. replace j with i by lia. lia.
    + split; [done|]. apply sorted_on_StronglySorted.
      now rewrite (perm_len _ _ Hp).
Qed.

(** ** Grouping by a key *)

Lemma StronglySorted_app_iff {A} (R : A -> A -> Prop) (l1 l2 : list A) :
  StronglySorted R (l1 ++ l2) <->
  StronglySorted R l1 /\ StronglySorted R l2 /\
  (forall x y, x ∈ l1 -> y ∈ l2 -> R x y).
Proof.
  induction l1 as [|a l1 IH]; cbn.
  - split.
    + intros H. repeat split; [constructor|done|].
      intros x y Hx. now apply elem_of_nil in Hx.
    + now intros (_ & H & _).
  - split.
    + intros H. apply StronglySorted_inv in H as [Hs Hall].
      apply IH in Hs as (H1 & H2 & H12).
      apply Forall_app in Hall as [Ha1 Ha2].
      repeat split; [now constructor|done|].
      intros x y Hx Hy. apply elem_of_cons in Hx as [->|Hx].
      * rewrite Forall_forall in Ha2. now apply Ha2.
      * now apply H12.
    + intros (H1 & H2 & H12).
      apply StronglySorted_inv in H1 as [H1 Ha1].
      constructor.
      * apply IH. repeat split; try done.
        intros x y Hx Hy. apply H12; [now apply elem_of_cons; right|done].
      * apply Forall_app. split; [done|].
        apply Forall_forall. intros y Hy. apply H12; [|done].
        apply elem_of_cons. now left.
Qed.

Lemma StronglySorted_filter {A} (R : A -> A -> Prop) (P : A -> Prop)
    `{forall x, Decision (P x)} (l : list A) :
  StronglySorted R l -> StronglySorted R (filter P l).
Proof.
  induction 1 as [|a l Hs IH Hall]; [constructor|].
  rewrite filter_cons. case_decide; [|done].
  constructor; [done|].
  apply Forall_forall. intros y Hy.
  apply list_elem_of_filter in Hy as [_ Hy].
  rewrite Forall_forall in Hall. now apply Hall.
Qed.

Lemma elem_of_concat {A} (x : A) (ls : list (list A)) :
  x ∈ concat ls <-> exists l, x ∈ l /\ l ∈ ls.
Proof.
  induction ls as [|l ls IH]; cbn.
  - split; [intros H; now apply elem_of_nil in H|].
    intros (l & _ & H). now apply elem_of_nil in H.
  - rewrite elem_of_app, IH. split.
    + intros [H|(l' & H1 & H2)].
      * exists l. split; [done|]. apply elem_of_cons. now left.
      * exists l'. split; [done|]. apply elem_of_cons. now right.
    + intros (l' & H1 & H2). apply elem_of_cons in H2 as [->|H2]; [now left|].
      right. now exists l'.
Qed.

Lemma StronglySorted_concat {A} (R : A -> A -> Prop) (ls : list (list A)) :
  Forall (StronglySorted R) ls ->
  (forall i j li lj x y, (i < j)%nat -> ls !! i = Some li -> ls !! j = Some lj ->
     x ∈ li -> y ∈ lj -> R x y) ->
  StronglySorted R (concat ls).
Proof.
  induction ls as [|l ls IH]; intros Hall Hcross; cbn; [constructor|].
  apply Forall_cons in Hall as [Hl Hall].
  apply StronglySorted_app_iff. repeat split; [done| |].
  - apply IH; [done|].
    intros i j li lj x y Hij Hi Hj. apply (Hcross (S i) (S j)); [lia|done|done].
  - intros x y Hx Hy. apply elem_of_concat in Hy as (lj & Hy & Hlj).
    apply list_elem_of_lookup in Hlj as [j Hj].
    apply (Hcross O (S j) l lj); [lia|done|done|done|done].
Qed.

Lemma groups_length f k l : length (groups f k l) = k.
Proof. unfold groups. now rewrite length_map, length_seq. Qed.

Lemma groups_lookup f k l d :
  (d < k)%nat -> groups f k l !! d = Some (group f l (Z.of_nat d)).
Proof.
  intros H. unfold groups. rewrite list_lookup_fmap.
  rewrite lookup_seq_lt by done. done.
Qed.

Lemma groups_S f k l :
  groups f (S k) l = groups f k l ++ [group f l (Z.of_nat k)].
Proof. unfold groups. rewrite seq_S, map_app. done. Qed.

Lemma concat_groups_cons f k x l :
  concat (groups f k (x :: l)) ≡ₚ
  (if decide (0 <= f x < Z.of_nat k) then [x] else []) ++ concat (groups f k l).
Proof.
  induction k as [|k IH].
  - cbn. now rewrite decide_False by lia.
  - rewrite !groups_S, !concat_app. cbn [concat]. rewrite !app_nil_r.
    rewrite IH. unfold group at 1. rewrite filter_cons.
    fold (group f l (Z.of_nat k)).
    destruct (decide (f x = Z.of_nat k)) as [Heq|Hne].
    + rewrite decide_False by lia. rewrite decide_True by lia. cbn.
      now rewrite <- Permutation_middle.
    + destruct (decide (0 <= f x < Z.of_nat k)).
      * rewrite decide_True by lia. now rewrite <- app_assoc.
      * rewrite decide_False by lia. done.
Qed.

Lemma groups_perm f k l :
  (forall x, x ∈ l -> 0 <= f x < Z.of_nat k) -> concat (groups f k l) ≡ₚ l.
Proof.
  induction l as [|x l IH]; intros H.
  - clear H. induction k as [|k IHk]; [done|].
    rewrite groups_S, concat_app, IHk. done.
  - rewrite concat_groups_cons. rewrite decide_True.
    + cbn. f_equiv. apply IH. intros y Hy. apply H. now apply elem_of_cons; right.
    + apply H. apply elem_of_cons. now left.
Qed.

Lemma elem_of_group f l d x : x ∈ group f l d <-> f x = d /\ x ∈ l.
Proof. unfold group. now rewrite list_elem_of_filter. Qed.

Lemma fold_max_ge (l : list Z) m : m <= fold_left Z.max l m.
Proof.
  revert m. induction l as [|x l IH]; intros m; cbn; [lia|].
  etrans; [|apply IH]. lia.
Qed.

Lemma fold_max_bound (l : list Z) m x :
  x ∈ l -> x <= fold_left Z.max l m.
Proof.
  revert m. induction l as [|y l IH]; intros m Hx; cbn.
  - now apply elem_of_nil in Hx.
  - apply elem_of_cons in Hx as [->|Hx]; [|now apply IH].
    etrans; [|apply fold_max_ge]. lia.
Qed.

Lemma fold_max_elem (l : list Z) m :
  fold_left Z.max l m = m \/ fold_left Z.max l m ∈ l.
Proof.
  revert m. induction l as [|y l IH]; intros m; cbn; [now left|].
  destruct (IH (Z.max m y)) as [H|H].
  - rewrite H. destruct (Z.max_spec m y) as [[_ ->]|[_ ->]].
    + right. apply elem_of_cons. now left.
    + now left.
  - right. apply elem_of_cons. now right.
Qed.

(** The maximum [Math.max(...l)] of a non-empty list. *)
Lemma list_max_spec (l : list Z) :
  l <> [] ->
  let m := fold_left Z.max (tail l) (hd 0 l) in
  m ∈ l /\ forall x, x ∈ l -> x <= m.
Proof.
  destruct l as [|y l]; [done|]. intros _. cbn. split.
  - destruct (fold_max_elem l y) as [->|H]; apply elem_of_cons; auto.
  - intros x Hx. apply elem_of_cons in Hx as [->|Hx].
    + apply fold_max_ge.
    + now apply fold_max_bound.
Qed.

Lemma bucket_key_nonneg (l : list Z) k x :
  0 < k -> (forall y, y ∈ l -> 0 <= y) -> x ∈ l ->
  0 <= bucket_key (bucket_max l) k x < k.
Proof.
  intros Hk Hpos Hx.
  assert (Hne : l <> []) by (intros ->; now apply elem_of_nil in Hx).
  destruct (list_max_spec l Hne) as [Hin Hmax]. cbn zeta in *.
  unfold bucket_key, bucket_index, bucket_max.
  set (m := fold_left Z.max (tail l) (hd 0 l)) in *.
  specialize (Hmax x Hx). pose proof (Hpos x Hx) as Hx0.
  set (m' := if m =? 0 then 1 else m).
  assert (Hm' : x < m' + 1) by (subst m'; destruct (Z.eqb_spec m 0); lia).
  destruct (Z.eqb_spec (m' + 1) 0) as [?|_]; [lia|]. unfold default, from_option, id.
  split.
  - apply Z.div_pos; nia.
  - apply Z.div_lt_upper_bound; nia.
Qed.

Lemma bucket_key_positive_divisor (l : list Z) k :
  0 < k -> l <> [] ->
  (forall x, x ∈ l -> 0 <= bucket_key (bucket_max l) k x < k) ->
  0 < bucket_max l + 1.
Proof.
  intros Hk Hne Hall.
  destruct (list_max_spec l Hne) as [Hin Hmax]. cbn zeta in *.
  unfold bucket_max in *.
  set (m := fold_left Z.max (tail l) (hd 0 l)) in *.
  destruct (Z.eqb_spec m 0) as [Hz|Hnz]; [lia|].
  destruct (Z_lt_le_dec (m + 1) 0) as [Hneg|Hge].
  - exfalso. specialize (Hall m Hin).
    unfold bucket_key, bucket_index in Hall.
    destruct (Z.eqb_spec (m + 1) 0) as [?|_]; [lia|]. unfold default, from_option, id in Hall.
    rewrite <- Z.div_opp_opp in Hall by lia.
    assert (k <= - (m * k) / - (m + 1)); [|lia].
    apply Z.div_le_lower_bound; nia.
  - destruct (decide (m + 1 = 0)) as [Heq|]; [|lia].
    exfalso. specialize (Hall m Hin).
    unfold bucket_key, bucket_index in Hall.
    destruct (Z.eqb_spec (m + 1) 0); [|lia]. cbn in Hall. lia.
Qed.

Lemma bucket_key_mono m k x y :
  0 < m + 1 -> 0 <= k -> x <= y -> bucket_key m k x <= bucket_key m k y.
Proof.
  intros Hm Hk Hxy. unfold bucket_key, bucket_index.
  destruct (Z.eqb_spec (m + 1) 0); [lia|]. cbn.
  apply Z.div_le_mono; nia.
Qed.

Lemma groups_snoc f k l v :
  0 <= f v < Z.of_nat k ->
  groups f k (l ++ [v]) =
  <[Z.to_nat (f v) := nth (Z.to_nat (f v)) (groups f k l) [] ++ [v]]>
    (groups f k l).
Proof.
  intros Hv. apply list_eq. intros d.
  destruct (decide (d < k)%nat) as [Hd|Hd].
  - rewrite groups_lookup by done.
    unfold group at 1. rewrite filter_app, filter_cons, filter_nil.
    fold (group f l (Z.of_nat d)).
    destruct (decide (d = Z.to_nat (f v))) as [->|Hne].
    + rewrite list_lookup_insert_eq by (rewrite groups_length; lia).
      rewrite decide_True by lia.
      rewrite (nth_lookup_Some _ _ _ _ (groups_lookup f k l _ Hd)). done.
    + rewrite list_lookup_insert_ne by done.
      rewrite groups_lookup by done. rewrite decide_False by lia.
      now rewrite app_nil_r.
  - rewrite !lookup_ge_None_2; [done| |];
      rewrite ?length_insert, groups_length; lia.
Qed.

Lemma sorted_buckets (l : list Z) k :
  0 < k -> l <> [] ->
  (forall x, x ∈ l -> 0 <= bucket_key (bucket_max l) k x < k) ->
  let Bs := map bucket_sort_one
              (groups (bucket_key (bucket_max l) k) (Z.to_nat k) l) in
  concat Bs ≡ₚ l /\ StronglySorted Z.le (concat Bs).
Proof.
  intros Hk Hne Hall. cbn zeta.
  pose proof (bucket_key_positive_divisor l k Hk Hne Hall) as Hdiv.
  set (f := bucket_key (bucket_max l) k).
  split.
  - rewrite <- (groups_perm f (Z.to_nat k) l) at 2
      by (intros x Hx; specialize (Hall x Hx); fold f in Hall; lia).
    generalize (groups f (Z.to_nat k) l). intros Bs.
    induction Bs as [|B Bs IH]; cbn; [done|].
    f_equiv; [apply bucket_sort_one_spec|exact IH].
  - apply StronglySorted_concat.
    + apply Forall_forall. intros B HB.
      apply list_elem_of_fmap in HB as (B0 & -> & _).
      apply bucket_sort_one_spec.
    + intros i j li lj x y Hij Hi Hj Hx Hy.
      rewrite list_lookup_fmap in Hi, Hj.
      assert (Hjk : (j < Z.to_nat k)%nat).
      { destruct (groups f (Z.to_nat k) l !! j) eqn:E; [|done].
        apply lookup_lt_Some in E. now rewrite groups_length in E. }
      rewrite groups_lookup in Hi, Hj by lia. cbn in Hi, Hj.
      injection Hi as <-. injection Hj as <-.
      destruct (bucket_sort_one_spec (group f l (Z.of_nat i))) as [Hpi _].
      destruct (bucket_sort_one_spec (group f l (Z.of_nat j))) as [Hpj _].
      rewrite Hpi in Hx. rewrite Hpj in Hy.
      apply elem_of_group in Hx as [Hfx _]. apply elem_of_group in Hy as [Hfy _].
      destruct (Z_le_gt_dec x y) as [|Hgt]; [done|].
      pose proof (bucket_key_mono (bucket_max l) k y x Hdiv) as Hm.
      fold f in Hm. lia.
Qed.

(** ** Outcomes read backwards *)

Section Inversion.

Context {Host : Type} (K : Collaborators Host).

Lemma bind_Done {A B} (m : M Host A) (k : A -> M Host B) w b w' :
  bind m k w = Done b w' ->
  exists x w1, m w = Done x w1 /\ k x w1 = Done b w'.
Proof. unfold bind. destruct (m w) as [x w1| | |]; try done. eauto. Qed.

Lemma rd_Done i (w : World Host) v w' :
  rd i w = Done v w' -> in_range (arr w) i /\ v = sel (arr w) i /\ w' = w.
Proof.
  unfold rd. destruct (in_rangeb (arr w) i) eqn:E.
  - intros [= <- <-]. now apply in_rangeb_true in E.
  - discriminate.
Qed.

Lemma returns_Done {A} (m : M Host A) w x w' (Q : A -> World Host -> Prop) :
  returns m w Q -> m w = Done x w' -> Q x w'.
Proof. intros (y & w1 & E & HQ) E'. rewrite E in E'. now injection E' as <- <-. Qed.

(** What every round of a loop that got through has established. *)
Lemma for_up_Done {St} (P : Z -> Prop) (I : St -> World Host -> Prop) n i
    (body : Z -> St -> M Host St) s w s' w' :
  for_up n i body s w = Done s' w' ->
  I s w ->
  (forall k s w s1 w1, i <= k < i + Z.of_nat n -> I s w ->
     body k s w = Done s1 w1 -> P k /\ I s1 w1) ->
  forall j, i <= j < i + Z.of_nat n -> P j.
Proof.
  revert i s w. induction n as [|n IH]; intros i s w H HI Hbody j Hj; [lia|].
  cbn [for_up] in H. apply bind_Done in H as (s1 & w1 & Hb & Hrest).
  destruct (Hbody i s w s1 w1 ltac:(lia) HI Hb) as [HP HI1].
  destruct (decide (j = i)) as [->|Hne]; [done|].
  apply (IH _ _ _ Hrest HI1); [|lia].
  intros k s2 w2 s3 w3 Hk. apply Hbody. lia.
Qed.

End Inversion.

(** ** bucketSortFunc: the three loops *)

Lemma groups_nil f k : groups f k [] = repeat [] k.
Proof.
  unfold groups. induction k as [|k IH]; [done|].
  rewrite seq_S, map_app, IH. cbn. clear IH.
  induction k as [|k IH]; [done|]. cbn. now rewrite IH.
Qed.

Lemma bucket_index_key m k v :
  0 <= bucket_key m k v -> bucket_index v m k = Some (bucket_key m k v).
Proof. unfold bucket_key. destruct (bucket_index v m k); cbn; [done|lia]. Qed.

Lemma take_next (l : list Z) i :
  in_range l i ->
  take (Z.to_nat (i + 1)) l = take (Z.to_nat i) l ++ [sel l i].
Proof.
  intros Hi. replace (Z.to_nat (i + 1)) with (S (Z.to_nat i)) by (unfold in_range in Hi; lia).
  apply take_S_r. now apply sel_lookup.
Qed.

Lemma take_upd_next (l : list Z) i v :
  in_range l i ->
  take (Z.to_nat (i + 1)) (upd l i v) = take (Z.to_nat i) l ++ [v].
Proof.
  intros Hi. rewrite take_next by now apply in_range_upd.
  rewrite sel_upd_eq by done. unfold upd. now rewrite take_insert_ge by lia.
Qed.

Lemma concat_take_next {A} (Bs : list (list A)) i B :
  Bs !! i = Some B -> concat (take (S i) Bs) = concat (take i Bs) ++ B.
Proof.
  intros H. rewrite (take_S_r _ _ _ H), concat_app. cbn. now rewrite app_nil_r.
Qed.

Lemma concat_take_length {A} (Bs : list (list A)) i B :
  Bs !! i = Some B ->
  (length (concat (take i Bs)) + length B <= length (concat Bs))%nat.
Proof.
  intros H. rewrite <- (take_drop_middle _ _ _ H) at 2.
  rewrite concat_app, length_app. cbn. rewrite length_app. lia.
Qed.

Section Bucket.

Context {Host : Type} (K : Collaborators Host).

Lemma returns_bucket_push Bs d v (w : World Host) Q :
  0 <= d < Z.of_nat (length Bs) ->
  Q (<[Z.to_nat d := nth (Z.to_nat d) Bs [] ++ [v]]> Bs) w ->
  returns (bucket_push K Bs (Some d) v) w Q.
Proof.
  intros Hd HQ. unfold bucket_push.
  replace ((0 <=? d) && (d <? Z.of_nat (length Bs))) with true
    by (symmetry; apply andb_true_iff; lia).
  now apply returns_ret.
Qed.

Lemma bucket_push_Done Bs idx v (w : World Host) Bs' w' :
  bucket_push K Bs idx v w = Done Bs' w' ->
  exists d, idx = Some d /\ 0 <= d < Z.of_nat (length Bs) /\
            length Bs' = length Bs /\ w' = w.
Proof.
  unfold bucket_push. destruct idx as [d|]; [|discriminate].
  destruct ((0 <=? d) && (d <? Z.of_nat (length Bs))) eqn:E; [|discriminate].
  intros [= <- <-]. exists d. apply andb_true_iff in E.
  rewrite length_insert. repeat split; lia.
Qed.

(** Every value goes to the bucket of its key, after those that came
    before it. *)
Lemma bucket_distribute_spec a st (e0 : Env Host) k :
  0 <= k ->
  (forall x, x ∈ a -> 0 <= bucket_key (bucket_max a) k x < k) ->
  returns (bucket_distribute K (len a) (bucket_max a) k) (mkWorld a st e0)
    (fun Bs w =>
       arr w = a /\ env w = e0 /\
       Bs = groups (bucket_key (bucket_max a) k) (Z.to_nat k) a).
Proof.
  intros Hk Hall. set (f := bucket_key (bucket_max a) k).
  unfold bucket_distribute.
  apply returns_for_range with (I := fun i Bs w =>
    arr w = a /\ env w = e0 /\
    Bs = groups f (Z.to_nat k) (take (Z.to_nat i) a)); [unfold len; lia| | |].
  - cbn. now rewrite groups_nil.
  - intros i Bs [b s e] Hi (Hb & He & HBs). cbn [arr env] in *. subst b e Bs.
    assert (Hin : in_range a i) by (unfold in_range, len in *; lia).
    assert (Hf : 0 <= f (sel a i) < k).
    { apply Hall. eapply list_elem_of_lookup_2. now apply sel_lookup. }
    wp. rewrite bucket_index_key by (fold f; lia). fold f.
    apply returns_bucket_push; [rewrite groups_length; lia|].
    wp. repeat split.
    rewrite take_next by done. rewrite groups_snoc by lia. done.
  - intros Bs w (Hb & He & ->). repeat split; [done..|].
    unfold len. now rewrite Nat2Z.id, firstn_all.
Qed.

(** The loop gets through only when every value has a bucket. *)
Lemma bucket_distribute_Done m k (w : World Host) Bs' w' :
  bucket_distribute K (len (arr w)) m k w = Done Bs' w' ->
  0 <= k ->
  forall x, x ∈ arr w -> 0 <= bucket_key m k x < k.
Proof.
  intros H Hk x Hx. unfold bucket_distribute, for_range in H.
  apply list_elem_of_lookup_1 in Hx as [j Hj].
  pose proof (lookup_lt_Some _ _ _ Hj) as Hlt.
  replace x with (sel (arr w) (Z.of_nat j))
    by (unfold sel; rewrite Nat2Z.id; now apply nth_lookup_Some).
  apply (for_up_Done (fun j => 0 <= bucket_key m k (sel (arr w) j) < k)
           (fun Bs w1 => length Bs = Z.to_nat k /\ arr w1 = arr w)
           _ _ _ _ _ _ _ H); [now rewrite repeat_length| |unfold len; lia].
  clear. intros i Bs w0 Bs1 w1 _ [HBs Ha] Hbody.
  apply bind_Done in Hbody as (v & w2 & Hrd & Hbody).
  apply rd_Done in Hrd as (Hin & -> & ->).
  apply bind_Done in Hbody as (Bs2 & w3 & Hpush & Hbody).
  apply bucket_push_Done in Hpush as (d & Hd & Hdr & Hlen & ->).
  apply bind_Done in Hbody as ([] & w4 & Hs & Hret).
  injection Hs as <-. injection Hret as <- <-. cbn [arr]. rewrite <- Ha.
  repeat split; [| |congruence]; unfold bucket_key; rewrite Hd; cbn; lia.
Qed.

(** The buckets are written back one after the other. *)
Lemma bucket_gather_spec (Bs : list (list Z)) k a st (e0 : Env Host) :
  k = Z.of_nat (length Bs) ->
  length (concat Bs) = length a ->
  returns (bucket_gather K Bs k) (mkWorld a st e0)
    (fun _ w => arr w = concat Bs).
Proof.
  intros -> Hlen. unfold bucket_gather.
  apply returns_for_range with (I := fun i index w =>
    index = len (concat (take (Z.to_nat i) Bs)) /\
    take (Z.to_nat index) (arr w) = concat (take (Z.to_nat i) Bs) /\
    length (arr w) = length a); [lia| | |].
  - cbn. now rewrite take_0.
  - intros i index w Hi (Hidx & Htake & Hla). cbn zeta.
    destruct (lookup_lt_is_Some_2 Bs (Z.to_nat i)) as [B HB]; [lia|].
    rewrite (nth_lookup_Some _ _ _ _ HB).
    pose proof (concat_take_length _ _ _ HB) as Hroom.
    apply returns_for_range with (I := fun j index' w' =>
      index' = index + j /\
      take (Z.to_nat index') (arr w') =
        concat (take (Z.to_nat i) Bs) ++ take (Z.to_nat j) B /\
      length (arr w') = length a); [unfold len; lia| | |].
    + rewrite Z.add_0_r. cbn. now rewrite take_0, app_nil_r.
    + intros j ix [b s e] Hj (-> & Htk & Hlb). cbn [arr] in *.
      assert (Hin : in_range b (index + j))
        by (unfold in_range, len in *; lia).
      wp. repeat split; [lia| |now rewrite length_upd].
      rewrite take_upd_next by done. rewrite Htk.
      rewrite (take_next B j) by (unfold in_range, len in *; lia).
      now rewrite app_assoc.
    + intros ix w' (-> & Htk & Hlb). repeat split; [| |done].
      * replace (Z.to_nat (i + 1)) with (S (Z.to_nat i)) by lia.
        rewrite (concat_take_next _ _ _ HB). unfold len in *.
        rewrite length_app. lia.
      * replace (Z.to_nat (i + 1)) with (S (Z.to_nat i)) by lia.
        rewrite (concat_take_next _ _ _ HB), Htk. unfold len.
        now rewrite Nat2Z.id, firstn_all.
  - intros index w (-> & Htk & Hla).
    rewrite Nat2Z.id, firstn_all in Htk. rewrite <- Htk.
    unfold len. rewrite Nat2Z.id, Hlen, <- Hla. now rewrite firstn_all.
Qed.

(** Every value has a bucket: the array ends up sorted. *)
Lemma bucketSortFunc_spec (w : World Host) :
  (forall x, x ∈ arr w ->
     0 <= bucket_key (bucket_max (arr w)) (Z.sqrt (len (arr w))) x
       < Z.sqrt (len (arr w))) ->
  returns (bucketSortFunc K) w (fun _ w' =>
    arr w' ≡ₚ arr w /\ Sorted Z.le (arr w')).
Proof.
  destruct w as [a s e]. cbn [arr]. intros Hall. unfold bucketSortFunc. wp.
  destruct (Z.leb_spec (len a) 0) as [Hle|Hlt].
  - wp. destruct a; [|unfold len in Hle; cbn in Hle; lia]. split; constructor.
  - cbn zeta. apply returns_bind. eexists _, _. split; [reflexivity|].
    cbn [arr]. set (k := Z.sqrt (len a)) in *.
    assert (Hk : 0 < k) by (now apply Z.sqrt_pos).
    assert (Hne : a <> []) by (intros ->; unfold len in Hlt; cbn in Hlt; lia).
    destruct (sorted_buckets a k Hk Hne Hall) as [Hperm Hsort]. cbn zeta in *.
    apply returns_bind. eapply returns_conseq;
      [apply bucket_distribute_spec; [lia|done]|].
    intros Bs [b s1 e1] (Hb & _ & ->). cbn [arr] in Hb. subst b.
    apply returns_bind. eapply returns_conseq.
    + apply bucket_gather_spec.
      * rewrite length_map, groups_length. lia.
      * now rewrite Hperm.
    + intros ix w' Ha. wp. rewrite Ha. split; [done|].
      now apply StronglySorted_Sorted.
Qed.

(** Non-negative values all have a bucket. *)
Lemma bucketSortFunc_sorts_naturals (w : World Host) :
  (forall x, x ∈ arr w -> 0 <= x) ->
  returns (bucketSortFunc K) w (fun _ w' =>
    arr w' ≡ₚ arr w /\ Sorted Z.le (arr w')).
Proof.
  intros Hpos. apply bucketSortFunc_spec. intros x Hx.
  apply bucket_key_nonneg; [|done..].
  apply Z.sqrt_pos. destruct (arr w); [now apply elem_of_nil in Hx|].
  unfold len. cbn. lia.
Qed.

(** Whenever the function gets to its end, the array is sorted. *)
Lemma bucketSortFunc_sorts (w w' : World Host) :
  bucketSortFunc K w = Done tt w' ->
  arr w' ≡ₚ arr w /\ Sorted Z.le (arr w').
Proof.
  intros H.
  refine (returns_Done _ _ _ _ _ (bucketSortFunc_spec w _) H).
  unfold bucketSortFunc in H.
  apply bind_Done in H as (n & w1 & Hn & H). injection Hn as <- <-.
  destruct (Z.leb_spec (len (arr w)) 0) as [Hle|Hlt].
  - intros x Hx. destruct (arr w); [now apply elem_of_nil in Hx|].
    unfold len in Hle. cbn in Hle. lia.
  - cbn zeta in H.
    apply bind_Done in H as (m & w1 & Hm & H). injection Hm as <- <-.
    apply bind_Done in H as (Bs & w1 & Hd & _).
    apply (bucket_distribute_Done _ _ _ _ _ Hd). apply Z.sqrt_nonneg.
Qed.

End Bucket.

(** ** radixSortFunc: digits and stable grouping *)

Lemma digit_range exp x : 0 < exp -> 0 <= x -> 0 <= digit exp x < 10.
Proof.
  intros He Hx. unfold digit.
  rewrite Z.rem_mod_nonneg by (try apply Z.div_pos; lia).
  apply Z.mod_pos_bound. lia.
Qed.

Lemma digit_split exp x :
  0 < exp -> 0 <= x ->
  x mod (exp * 10) = x mod exp + exp * digit exp x.
Proof.
  intros He Hx. unfold digit.
  rewrite Z.rem_mod_nonneg by (try apply Z.div_pos; lia).
  apply Z.rem_mul_r; lia.
Qed.

Lemma group_snoc f l v d :
  group f (l ++ [v]) d =
  group f l d ++ (if decide (f v = d) then [v] else []).
Proof. unfold group. now rewrite filter_app, filter_cons, filter_nil. Qed.

Lemma group_app f l1 l2 d : group f (l1 ++ l2) d = group f l1 d ++ group f l2 d.
Proof. unfold group. apply filter_app. Qed.

(** The place of the cells of one group in the list of all groups. *)
Lemma lookup_concat_take {A} (Bs : list (list A)) d B t :
  Bs !! d = Some B -> (t < length B)%nat ->
  concat Bs !! (length (concat (take d Bs)) + t)%nat = B !! t.
Proof.
  intros HB Ht.
  assert (E : concat Bs =
              concat (take d Bs) ++ B ++ concat (drop (S d) Bs)).
  { transitivity (concat (take d Bs ++ B :: drop (S d) Bs));
      [now rewrite take_drop_middle|now rewrite concat_app]. }
  rewrite E. rewrite lookup_app_r by lia.
  replace (length (concat (take d Bs)) + t - length (concat (take d Bs)))%nat
    with t by lia.
  now rewrite lookup_app_l.
Qed.

Lemma concat_position {A} (Bs : list (list A)) p :
  (p < length (concat Bs))%nat ->
  exists d B t, Bs !! d = Some B /\ (t < length B)%nat /\
                p = (length (concat (take d Bs)) + t)%nat.
Proof.
  revert p. induction Bs as [|B Bs IH]; intros p Hp; cbn in Hp; [lia|].
  rewrite length_app in Hp.
  destruct (decide (p < length B)%nat) as [Hlt|Hge].
  - exists O, B, p. split; [done|]. split; [done|]. cbn. lia.
  - destruct (IH (p - length B)%nat ltac:(lia)) as (d & B' & t & HB & Ht & Hpos).
    exists (S d), B', t. split; [done|]. split; [done|].
    cbn. rewrite length_app. lia.
Qed.

Lemma groups_concat_length f k l :
  (forall x, x ∈ l -> 0 <= f x < Z.of_nat k) ->
  length (concat (groups f k l)) = length l.
Proof. intros H. apply Permutation_length. now apply groups_perm. Qed.

(** Two cells of different groups are at different places. *)
Lemma groups_position_inj f k l d1 t1 d2 t2 :
  (d1 < k)%nat -> (d2 < k)%nat ->
  (t1 < length (group f l (Z.of_nat d1)))%nat ->
  (t2 < length (group f l (Z.of_nat d2)))%nat ->
  (length (concat (take d1 (groups f k l))) + t1 =
   length (concat (take d2 (groups f k l))) + t2)%nat ->
  d1 = d2 /\ t1 = t2.
Proof.
  intros Hd1 Hd2 Ht1 Ht2 Heq.
  pose proof (lookup_concat_take _ _ _ _ (groups_lookup f k l d1 Hd1) Ht1) as H1.
  pose proof (lookup_concat_take _ _ _ _ (groups_lookup f k l d2 Hd2) Ht2) as H2.
  rewrite Heq, H2 in H1.
  destruct (lookup_lt_is_Some_2 _ _ Ht1) as [x Hx].
  rewrite Hx in H1.
  apply list_elem_of_lookup_2 in Hx, H1.
  apply elem_of_group in Hx as [Hx _]. apply elem_of_group in H1 as [H1 _].
  assert (d1 = d2) by lia. subst d2. split; [done|lia].
Qed.

Lemma StronglySorted_weaken {A} (R R' : A -> A -> Prop) (l : list A) :
  (forall x y, x ∈ l -> y ∈ l -> R x y -> R' x y) ->
  StronglySorted R l -> StronglySorted R' l.
Proof.
  intros H Hs. induction Hs as [|a l Hs IH Hall]; [constructor|].
  constructor.
  - apply IH. intros x y Hx Hy. apply H; now apply elem_of_cons; right.
  - rewrite Forall_forall in *. intros y Hy. apply H.
    + apply elem_of_cons. now left.
    + apply elem_of_cons. now right.
    + now apply Hall.
Qed.

Lemma StronglySorted_trivial {A} (R : A -> A -> Prop) (l : list A) :
  (forall x y, R x y) -> StronglySorted R l.
Proof.
  intros H. induction l; constructor; [done|]. now apply Forall_forall.
Qed.

(** One pass: sorted on the low digits, then grouped in place on the next
    digit, is sorted on one digit more. *)
Lemma radix_pass_sorted exp (l : list Z) :
  0 < exp -> (forall x, x ∈ l -> 0 <= x) ->
  StronglySorted (fun x y => x mod exp <= y mod exp) l ->
  StronglySorted (fun x y => x mod (exp * 10) <= y mod (exp * 10))
    (concat (groups (digit exp) 10 l)).
Proof.
  intros He Hpos Hs. apply StronglySorted_concat.
  - apply Forall_forall. intros B HB.
    apply list_elem_of_lookup_1 in HB as [d HB].
    pose proof (lookup_lt_Some _ _ _ HB) as Hd. rewrite groups_length in Hd.
    rewrite groups_lookup in HB by done. injection HB as <-.
    apply (StronglySorted_weaken (fun x y => x mod exp <= y mod exp)).
    + intros x y Hx Hy Hxy.
      apply elem_of_group in Hx as [Hdx Hx]. apply elem_of_group in Hy as [Hdy Hy].
      rewrite !digit_split by auto. rewrite Hdx, Hdy. lia.
    + unfold group. now apply StronglySorted_filter.
  - intros i j li lj x y Hij Hi Hj Hx Hy.
    pose proof (lookup_lt_Some _ _ _ Hj) as Hd. rewrite groups_length in Hd.
    rewrite groups_lookup in Hi, Hj by lia.
    injection Hi as <-. injection Hj as <-.
    apply elem_of_group in Hx as [Hdx Hx]. apply elem_of_group in Hy as [Hdy Hy].
    rewrite !digit_split by auto. rewrite Hdx, Hdy.
    pose proof (Z.mod_pos_bound x exp He). pose proof (Z.mod_pos_bound y exp He).
    nia.
Qed.

Lemma sorted_below exp (l : list Z) :
  (forall x, x ∈ l -> 0 <= x < exp) ->
  StronglySorted (fun x y => x mod exp <= y mod exp) l ->
  StronglySorted Z.le l.
Proof.
  intros H. apply StronglySorted_weaken. intros x y Hx Hy.
  rewrite !Z.mod_small by auto. done.
Qed.

Lemma sel_map_len (Bs : list (list Z)) d :
  sel (map len Bs) d = len (nth (Z.to_nat d) Bs []).
Proof. unfold sel. change 0 with (len []). apply map_nth. Qed.

Section Radix.

Context {Host : Type} (K : Collaborators Host).

Lemma returns_bump count d by_ (w : World Host) Q :
  in_range count d ->
  Q (upd count d (sel count d + by_)) w ->
  returns (bump count d by_) w Q.
Proof.
  intros Hd HQ. unfold bump. apply in_rangeb_true in Hd. rewrite Hd.
  now apply returns_ret.
Qed.

(** The largest cell. *)
Lemma radix_getMax_spec a st (e0 : Env Host) :
  returns radix_getMax (mkWorld a st e0) (fun m w =>
    w = mkWorld a st e0 /\
    match m with
    | None => a = []
    | Some M => M ∈ a /\ forall x, x ∈ a -> x <= M
    end).
Proof.
  unfold radix_getMax. wp. destruct (Z.eqb_spec (len a) 0) as [Hz|Hnz].
  - wp. split; [done|]. destruct a; [done|]. unfold len in Hz. cbn in Hz. lia.
  - assert (Hlen : 0 < len a) by (unfold len in *; lia).
    wp.
    apply returns_for_range with (I := fun i M w =>
      w = mkWorld a st e0 /\
      M ∈ take (Z.to_nat i) a /\
      forall x, x ∈ take (Z.to_nat i) a -> x <= M); [lia| | |].
    + split; [done|]. destruct a as [|x a]; [unfold len in Hlen; cbn in Hlen; lia|].
      unfold sel. change (Z.to_nat 1) with 1%nat.
      change (Z.to_nat 0) with 0%nat. cbn. rewrite take_0. split.
      * apply elem_of_cons. now left.
      * intros y Hy.
        apply elem_of_cons in Hy as [->|Hy]; [lia|now apply elem_of_nil in Hy].
    + intros i M w Hi (-> & Hin & Hmax).
      assert (Hr : in_range a i) by (unfold in_range, len in *; lia).
      wp. split; [done|]. rewrite take_next by done. split.
      * destruct (Z.ltb_spec M (sel a i)); apply elem_of_app;
          [right; apply elem_of_cons; now left|now left].
      * intros x Hx. apply elem_of_app in Hx as [Hx|Hx].
        -- specialize (Hmax x Hx). destruct (Z.ltb_spec M (sel a i)); lia.
        -- apply elem_of_cons in Hx as [->|Hx]; [|now apply elem_of_nil in Hx].
           destruct (Z.ltb_spec M (sel a i)); lia.
    + intros M w (-> & Hin & Hmax). wp. split; [done|].
      unfold len in *. rewrite Nat2Z.id, firstn_all in *. done.
Qed.

(** The first loop counts the cells of every digit. *)
Lemma radix_tally_spec exp a st (e0 : Env Host) :
  (forall x, x ∈ a -> 0 <= digit exp x < 10) ->
  returns (radix_tally exp (len a)) (mkWorld a st e0) (fun count w =>
    w = mkWorld a st e0 /\ count = map len (groups (digit exp) 10 a)).
Proof.
  intros Hdig. unfold radix_tally.
  apply returns_for_range with (I := fun i count w =>
    w = mkWorld a st e0 /\
    count = map len (groups (digit exp) 10 (take (Z.to_nat i) a)));
    [unfold len; lia| | |].
  - split; [done|]. now rewrite take_0, groups_nil.
  - intros i count w Hi (-> & ->).
    assert (Hr : in_range a i) by (unfold in_range, len in *; lia).
    assert (Hd : 0 <= digit exp (sel a i) < 10).
    { apply Hdig. eapply list_elem_of_lookup_2. now apply sel_lookup. }
    wp. apply returns_bump.
    { unfold in_range. rewrite length_map, groups_length. lia. }
    split; [done|]. rewrite take_next by done.
    rewrite groups_snoc by lia. rewrite list_fmap_insert.
    unfold upd. f_equal. rewrite sel_map_len. unfold len.
    rewrite length_app. cbn. lia.
  - intros count w (-> & ->). split; [done|].
    unfold len. now rewrite Nat2Z.id, firstn_all.
Qed.

(** The second loop turns the counts into the places where the groups end. *)
Lemma radix_accumulate_spec (Bs : list (list Z)) (w : World Host) :
  length Bs = 10%nat ->
  returns (radix_accumulate (map len Bs)) w (fun count w' =>
    w' = w /\ length count = 10%nat /\
    forall d, (d < 10)%nat ->
      sel count (Z.of_nat d) = len (concat (take (S d) Bs))).
Proof.
  intros HBs. unfold radix_accumulate.
  apply returns_for_range with (I := fun i count w' =>
    w' = w /\ length count = 10%nat /\
    (forall d, Z.of_nat d < i ->
       sel count (Z.of_nat d) = len (concat (take (S d) Bs))) /\
    (forall d, i <= Z.of_nat d < 10 ->
       sel count (Z.of_nat d) = len (nth d Bs []))); [lia| | |].
  - split; [done|]. split; [now rewrite length_map|]. split.
    + intros d Hd. assert (d = O) by lia. subst d.
      rewrite sel_map_len. cbn. destruct Bs as [|B Bs]; [done|].
      cbn. now rewrite take_0, app_nil_r.
    + intros d Hd. rewrite sel_map_len. now rewrite Nat2Z.id.
  - intros i count w' Hi (-> & Hlen & Hlow & Hhigh). wp.
    split; [done|]. split; [now rewrite length_upd|].
    assert (Hr : in_range count i) by (unfold in_range; lia).
    destruct (lookup_lt_is_Some_2 Bs (Z.to_nat i)) as [B HB]; [lia|].
    split.
    + intros d Hd. rewrite sel_upd by (done || lia).
      destruct (decide (i = Z.of_nat d)) as [->|Hne].
      * rewrite Nat2Z.id in HB. rewrite (concat_take_next _ _ _ HB).
        rewrite (Hhigh d) by lia. rewrite (nth_lookup_Some _ _ _ _ HB).
        replace (Z.of_nat d - 1) with (Z.of_nat (d - 1)) by lia.
        rewrite (Hlow (d - 1)%nat) by lia.
        replace (S (d - 1)) with d by lia.
        unfold len. rewrite length_app. lia.
      * apply Hlow. lia.
    + intros d Hd. rewrite sel_upd by (done || lia).
      destruct (decide (i = Z.of_nat d)) as [->|Hne]; [lia|].
      apply Hhigh. lia.
  - intros count w' (-> & Hlen & Hlow & _). repeat split; [done|].
    intros d Hd. apply Hlow. lia.
Qed.

(** The last loop copies the output back. *)
Lemma radix_copy_spec (c : list Z) a st (e0 : Env Host) :
  length c = length a ->
  returns (radix_copy K (len a) (map Some c)) (mkWorld a st e0)
    (fun _ w => arr w = c).
Proof.
  intros Hlen. unfold radix_copy.
  apply returns_for_range with (I := fun i (_ : unit) w =>
    take (Z.to_nat i) (arr w) = take (Z.to_nat i) c /\
    length (arr w) = length a); [unfold len; lia| | |].
  - cbn. now rewrite !take_0.
  - intros i _ [b s e] Hi [Htk Hlb]. cbn [arr] in *. wp.
    assert (Hc : in_range c i) by (unfold in_range, len in *; lia).
    unfold take_cell.
    rewrite (nth_lookup_Some (map Some c) _ None (Some (sel c i)))
      by (rewrite list_lookup_fmap, sel_lookup; done).
    wp.
    split; [|now rewrite length_upd].
    rewrite take_upd_next by (unfold in_range, len in *; lia).
    now rewrite Htk, take_next.
  - intros _ w [Htk Hlb]. unfold len in Htk. rewrite Nat2Z.id in Htk.
    rewrite firstn_all2 in Htk by lia. rewrite Htk. apply firstn_all2. lia.
Qed.

End Radix.

Section RadixPlace.

Context {Host : Type} (K : Collaborators Host).

Lemma returns_fill output p v (w : World Host) Q :
  0 <= p < Z.of_nat (length output) ->
  Q (<[Z.to_nat p := Some v]> output) w ->
  returns (fill output p v) w Q.
Proof.
  intros Hp HQ. unfold fill.
  replace ((0 <=? p) && (p <? Z.of_nat (length output))) with true
    by (symmetry; apply andb_true_iff; lia).
  now apply returns_ret.
Qed.

(** The third loop, from the last cell to the first, puts every cell at
    its place in the list of the groups. *)
Lemma radix_place_spec exp a st (e0 : Env Host) count :
  (forall x, x ∈ a -> 0 <= digit exp x < 10) ->
  length count = 10%nat ->
  (forall d, (d < 10)%nat ->
     sel count (Z.of_nat d) =
     len (concat (take (S d) (groups (digit exp) 10 a)))) ->
  returns (radix_place exp (len a) count) (mkWorld a st e0) (fun co w =>
    w = mkWorld a st e0 /\
    snd co = map Some (concat (groups (digit exp) 10 a))).
Proof.
  intros Hdig Hlen Hends.
  set (f := digit exp) in *. set (Bs := groups f 10 a) in *.
  assert (Htotal : length (concat Bs) = length a)
    by (apply groups_concat_length; intros x Hx; specialize (Hdig x Hx); lia).
  assert (HBs : forall d, (d < 10)%nat -> Bs !! d = Some (group f a (Z.of_nat d)))
    by (intros d Hd; now apply groups_lookup).
  unfold radix_place.
  apply returns_for_range_down with (I := fun i co w =>
    w = mkWorld a st e0 /\
    length (fst co) = 10%nat /\ length (snd co) = length a /\
    (forall d, (d < 10)%nat ->
       sel (fst co) (Z.of_nat d) =
       len (concat (take d Bs)) +
       len (group f (take (Z.to_nat (i + 1)) a) (Z.of_nat d))) /\
    (forall d t, (d < 10)%nat ->
       (length (group f (take (Z.to_nat (i + 1)) a) (Z.of_nat d)) <= t)%nat ->
       (t < length (group f a (Z.of_nat d)))%nat ->
       snd co !! (length (concat (take d Bs)) + t)%nat =
       Some (group f a (Z.of_nat d) !! t))); [unfold len; lia| | |].
  - cbn [fst snd]. split; [done|]. split; [done|].
    split; [rewrite repeat_length; unfold len; lia|].
    replace (Z.to_nat (len a - 1 + 1)) with (length a) by (unfold len; lia).
    rewrite firstn_all. split.
    + intros d Hd. rewrite Hends by done.
      rewrite (concat_take_next _ _ _ (HBs d Hd)). unfold len.
      rewrite length_app. lia.
    + intros d t Hd H1 H2. lia.
  - intros i [cnt out] w Hi (-> & Hlc & Hlo & Hcnt & Hout). cbn [fst snd] in *.
    assert (Hr : in_range a i) by (unfold in_range, len in *; lia).
    wp. cbn zeta. set (v := sel a i).
    assert (Hv : 0 <= f v < 10).
    { apply Hdig. eapply list_elem_of_lookup_2. now apply sel_lookup. }
    set (d := Z.to_nat (f v)).
    assert (Hfd : f v = Z.of_nat d) by lia.
    assert (Hd : (d < 10)%nat) by lia.
    replace (Z.to_nat (i - 1 + 1)) with (Z.to_nat i) by lia.
    assert (Htake : take (Z.to_nat (i + 1)) a = take (Z.to_nat i) a ++ [v])
      by now apply take_next.
    rewrite Htake in Hcnt, Hout.
    set (c := length (group f (take (Z.to_nat i) a) (Z.of_nat d))).
    assert (HG : group f a (Z.of_nat d) =
                 group f (take (Z.to_nat i) a) (Z.of_nat d) ++ [v] ++
                 group f (drop (Z.to_nat (i + 1)) a) (Z.of_nat d)).
    { rewrite <- (take_drop (Z.to_nat (i + 1)) a) at 1.
      rewrite group_app, Htake, group_snoc, decide_True by done.
      now rewrite <- app_assoc. }
    assert (Hc : (c < length (group f a (Z.of_nat d)))%nat).
    { rewrite HG, !length_app. cbn. fold c. lia. }
    assert (Hgv : group f a (Z.of_nat d) !! c = Some v).
    { rewrite HG. rewrite lookup_app_r by (fold c; lia). fold c.
      now replace (c - c)%nat with O by lia. }
    pose proof (concat_take_length _ _ _ (HBs d Hd)) as Hroom.
    assert (Hcd : sel cnt (f v) = len (concat (take d Bs)) + Z.of_nat c + 1).
    { rewrite Hfd, Hcnt by done. rewrite group_snoc, decide_True by done.
      unfold len. rewrite length_app. cbn. fold c. lia. }
    assert (Hrc : in_range cnt (f v)) by (unfold in_range; lia).
    fold f. apply in_rangeb_true in Hrc as Hrb. rewrite Hrb.
    apply returns_bind, returns_fill; [unfold len in *; lia|].
    apply returns_bind, returns_bump; [done|]. apply returns_ret.
    cbn [fst snd].
    split; [done|]. split; [now rewrite length_upd|].
    split; [now rewrite length_insert|]. split.
    + intros d' Hd'. rewrite sel_upd by (done || lia).
      destruct (decide (f v = Z.of_nat d')) as [E|E].
      * assert (d' = d) by lia. subst d'. rewrite Hcd. unfold len. subst c. lia.
      * rewrite Hcnt by done. rewrite group_snoc, decide_False by done.
        now rewrite app_nil_r.
    + intros d' t Hd' H1 H2.
      destruct (decide (d' = d /\ t = c)) as [[-> ->]|Hne].
      * replace (Z.to_nat (sel cnt (f v) - 1))
          with (length (concat (take d Bs)) + c)%nat by (unfold len in *; lia).
        rewrite list_lookup_insert_eq by (unfold len in *; lia).
        now rewrite Hgv.
      * rewrite list_lookup_insert_ne.
        -- apply Hout; [done| |done].
           rewrite group_snoc. destruct (decide (f v = Z.of_nat d')) as [E|E].
           ++ assert (d' = d) by lia. subst d'. rewrite length_app. cbn.
              fold c. fold c in H1. lia.
           ++ now rewrite app_nil_r.
        -- intros E. apply Hne.
           apply (groups_position_inj f 10 a d' t d c); try done.
           fold Bs. unfold len in *. lia.
  - intros [cnt out] w (-> & _ & Hlo & _ & Hout). cbn [fst snd] in *.
    split; [done|]. apply list_eq. intros p.
    rewrite list_lookup_fmap.
    destruct (decide (p < length a)%nat) as [Hp|Hp].
    + destruct (concat_position Bs p ltac:(lia)) as (d & B & t & HB & Ht & ->).
      pose proof (lookup_lt_Some _ _ _ HB) as Hd.
      unfold Bs in Hd. rewrite groups_length in Hd.
      rewrite (HBs d Hd) in HB. injection HB as <-.
      change (Z.to_nat (0 - 1 + 1)) with O in Hout. rewrite take_0 in Hout.
      rewrite Hout; [|done|cbn; lia|done].
      rewrite (lookup_concat_take _ _ _ _ (HBs d Hd) Ht).
      destruct (lookup_lt_is_Some_2 _ _ Ht) as [x Hx]. now rewrite Hx.
    + rewrite !lookup_ge_None_2 by lia. done.
Qed.

(** One pass groups the cells on the digit at [exp], keeping the order
    within each group. *)
Lemma radix_countingSort_spec exp a st (e0 : Env Host) :
  (forall x, x ∈ a -> 0 <= digit exp x < 10) ->
  returns (radix_countingSort K exp) (mkWorld a st e0) (fun _ w =>
    arr w = concat (groups (digit exp) 10 a)).
Proof.
  intros Hdig. unfold radix_countingSort. wp.
  eapply returns_conseq; [now apply radix_tally_spec|].
  intros count w (-> & ->).
  apply returns_bind. eapply returns_conseq;
    [apply radix_accumulate_spec, groups_length|].
  intros count w (-> & Hlen & Hends).
  apply returns_bind. eapply returns_conseq;
    [now apply radix_place_spec|].
  intros [cnt out] w (-> & ->). cbn [snd].
  apply radix_copy_spec. apply groups_concat_length.
  intros x Hx. specialize (Hdig x Hx). lia.
Qed.

(** On non-negative cells the passes sort the array, one digit after the
    other, and there are enough of them. *)
Lemma radixSortFunc_sorts_naturals (w : World Host) :
  (forall x, x ∈ arr w -> 0 <= x) ->
  returns (radixSortFunc K) w (fun _ w' =>
    arr w' ≡ₚ arr w /\ Sorted Z.le (arr w')).
Proof.
  destruct w as [a st e0]. cbn [arr]. intros Hpos. unfold radixSortFunc.
  apply returns_bind. eapply returns_conseq; [apply radix_getMax_spec|].
  intros [M|] w [-> HM]; cbn [arr].
  - destruct HM as [HMin HMmax]. pose proof (Hpos M HMin) as HM0.
    apply returns_bind.
    apply returns_while_loop with
      (I := fun exp w =>
         0 < exp /\ arr w ≡ₚ a /\
         StronglySorted (fun x y => x mod exp <= y mod exp) (arr w))
      (V := fun exp => Z.to_nat (Z.log2 M + 1 - Z.log2 exp)).
    + cbn [arr]. split; [lia|]. split; [done|].
      apply StronglySorted_trivial. intros x y. rewrite !Z.mod_1_r. lia.
    + change (Z.log2 1) with 0. pose proof (Z.log2_nonneg M). lia.
    + intros exp [b s e] (He & Hperm & Hs). cbn [arr] in *. wp.
      assert (Hposb : forall x, x ∈ b -> 0 <= x)
        by (intros x Hx; apply Hpos; now rewrite <- Hperm).
      destruct (Z.ltb_spec 0 (M / exp)) as [Hgo|Hstop].
      * apply returns_bind. eapply returns_conseq.
        { apply radix_countingSort_spec. intros x Hx.
          apply digit_range; auto. }
        intros u w' Ha. wp. rewrite Ha.
        assert (HeM : exp <= M).
        { destruct (Z_le_gt_dec exp M); [done|].
          rewrite Z.div_small in Hgo by lia. lia. }
        split; [split; [lia|split]|].
        -- rewrite groups_perm; [done|]. intros x Hx.
           pose proof (digit_range exp x He (Hposb x Hx)). lia.
        -- now apply radix_pass_sorted.
        -- pose proof (Z.log2_le_mono exp M HeM).
           pose proof (Z.log2_double exp He).
           pose proof (Z.log2_le_mono (2 * exp) (exp * 10) ltac:(lia)).
           lia.
      * wp. split; [done|]. apply StronglySorted_Sorted.
        apply (sorted_below exp); [|done].
        intros x Hx. split; [now apply Hposb|].
        assert (x <= M) by (apply HMmax; now rewrite <- Hperm).
        destruct (Z_lt_le_dec M exp); [lia|].
        assert (1 <= M / exp); [|lia].
        apply Z.div_le_lower_bound; lia.
  - subst a. wp. split; constructor.
Qed.

End RadixPlace.

(** ** The built-in variants sort *)

Section Variants.

Context {Host : Type} (K : Collaborators Host).

Lemma returns_unit (m : M Host unit) (w : World Host)
    (Q : unit -> World Host -> Prop) :
  returns m w Q ->
  (forall w', m w = Done tt w' -> Q tt w') /\ exists w', m w = Done tt w'.
Proof.
  intros ([] & w1 & E & HQ). split; [|now exists w1].
  intros w' E'. rewrite E in E'. now injection E' as <-.
Qed.

(** C1, amended.  For every built-in variant and every array of integers --
    of safe integers in the case of radixSort and bucketSort, where the
    source divides in doubles, and of non-negative ones in the case of
    radixSort: whenever the step function returns, the working array is a
    permutation of the input array, in ascending order.  And every variant
    but bogoSort does return, bucketSort on the arrays of non-negative
    integers. *)
Theorem builtin_variants_sort key source f (w : World Host) :
  sortFunc_of K key source = inr f ->
  key <> userCode ->
  (key = radixSort \/ key = bucketSort -> safe (arr w)) ->
  (key = radixSort -> natural (arr w)) ->
  (forall w', f w = Done tt w' ->
     arr w' ≡ₚ arr w /\ Sorted Z.le (arr w')) /\
  (key <> bogoSort -> (key = bucketSort -> natural (arr w)) ->
   exists w', f w = Done tt w').
Proof.
  intros Hf Hkey _ Hradix.
  destruct key; cbn in Hf; try done; injection Hf as <-.
  - split; [|intros _ _]; apply (returns_unit _ _ _ (bubbleSortFunc_sorts K w)).
  - split; [|intros _ _]; apply (returns_unit _ _ _ (selectionSortFunc_sorts K w)).
  - split; [|intros _ _]; apply (returns_unit _ _ _ (insertionSortFunc_sorts K w)).
  - split; [|intros _ _]; apply (returns_unit _ _ _ (quickSortFunc_sorts K w)).
  - split; [|intros _ _]; apply (returns_unit _ _ _ (mergeSortFunc_sorts K w)).
  - split; [|intros _ _]; apply (returns_unit _ _ _ (heapSortFunc_sorts K w)).
  - specialize (Hradix eq_refl). unfold natural in Hradix.
    rewrite Forall_forall in Hradix.
    split; [|intros _ _];
      apply (returns_unit _ _ _ (radixSortFunc_sorts_naturals K w Hradix)).
  - split; [apply bucketSortFunc_sorts|].
    intros _ Hnat. specialize (Hnat eq_refl). unfold natural in Hnat.
    rewrite Forall_forall in Hnat.
    apply (returns_unit _ _ _ (bucketSortFunc_sorts_naturals K w Hnat)).
  - split; [apply bogoSortFunc_sorts|]. intros Hne. done.
Qed.

End Variants.

(** C1, as stated, fails.  On [0, -1] the largest cell of radixSort is [0]:
    no pass is made, and the function returns with the array as it was. *)
Lemma radix_sort_leaves_negative_last :
  sortFunc_of quiet radixSort None = inr (radixSortFunc quiet) /\
  radixSortFunc quiet (start (quiet_env [0; -1])) =
    Done tt (start (quiet_env [0; -1])) /\
  arr (start (quiet_env [0; -1])) = [0; -1] /\
  ~ Sorted Z.le [0; -1].
Proof.
  repeat split. intros H.
  apply Sorted_inv in H as [_ H]. apply HdRel_inv in H. lia.
Qed.

Lemma builtin_variants_sort_witness :
  sortFunc_of quiet radixSort None = inr (radixSortFunc quiet) /\
  radixSort <> userCode /\
  safe [170; 45; 75; 90; 2; 24; 802; 66] /\
  natural [170; 45; 75; 90; 2; 24; 802; 66] /\
  (forall w',
     radixSortFunc quiet (start (quiet_env [170; 45; 75; 90; 2; 24; 802; 66]))
       = Done tt w' ->
     arr w' ≡ₚ [170; 45; 75; 90; 2; 24; 802; 66] /\ Sorted Z.le (arr w')) /\
  exists w',
    radixSortFunc quiet (start (quiet_env [170; 45; 75; 90; 2; 24; 802; 66]))
      = Done tt w'.
Proof.
  assert (Hn : natural [170; 45; 75; 90; 2; 24; 802; 66])
    by (unfold natural; repeat (constructor; [lia|]); constructor).
  assert (Hsafe : safe [170; 45; 75; 90; 2; 24; 802; 66])
    by (unfold safe; repeat (constructor; [vm_compute; intuition discriminate|]);
        constructor).
  split; [reflexivity|]. split; [discriminate|]. split; [exact Hsafe|].
  split; [exact Hn|].
  destruct (builtin_variants_sort quiet radixSort None (radixSortFunc quiet)
              (start (quiet_env [170; 45; 75; 90; 2; 24; 802; 66]))
              eq_refl ltac:(discriminate) (fun _ => Hsafe) (fun _ => Hn))
    as [Hs Ht].
  split; [exact Hs|]. apply Ht; [discriminate|]. intros _. exact Hn.
Defined.

(** * Counters and callbacks *)

(** ** What a computation ensures *)

Section Ensures.

Context {Host : Type} (K : Collaborators Host).
Implicit Types (w : World Host) (e : Env Host).

Lemma ensures_ret {A} (x : A) w Q E : Q x w -> ensures (ret x) w Q E.
Proof. done. Qed.

Lemma ensures_throw {A} ex w (Q : A -> World Host -> Prop) E :
  E ex w -> ensures (throw ex) w Q E.
Proof. done. Qed.

Lemma ensures_off_model {A} w (Q : A -> World Host -> Prop) E :
  ensures off_model w Q E.
Proof. done. Qed.

Lemma ensures_bind {A B} (m : M Host A) (k : A -> M Host B) w Q E :
  ensures m w (fun x w' => ensures (k x) w' Q E) E ->
  ensures (bind m k) w Q E.
Proof. unfold ensures, bind. now destruct (m w). Qed.

Lemma ensures_conseq {A} (m : M Host A) w (Q Q' : A -> World Host -> Prop)
    (E E' : JsThrown -> World Host -> Prop) :
  ensures m w Q E ->
  (forall x w', Q x w' -> Q' x w') -> (forall ex w', E ex w' -> E' ex w') ->
  ensures m w Q' E'.
Proof. unfold ensures. destruct (m w); auto. Qed.

Lemma ensures_rd i w Q E :
  (in_range (arr w) i -> Q (sel (arr w) i) w) -> ensures (rd i) w Q E.
Proof.
  intros H. unfold ensures, rd. destruct (in_rangeb (arr w) i) eqn:Hi; [|done].
  now apply H, in_rangeb_true.
Qed.

Lemma ensures_wr i v w Q E :
  (in_range (arr w) i -> Q tt (mkWorld (upd (arr w) i v) (stats w) (env w))) ->
  ensures (wr i v) w Q E.
Proof.
  intros H. unfold ensures, wr. destruct (in_rangeb (arr w) i) eqn:Hi; [|done].
  now apply H, in_rangeb_true.
Qed.

Lemma ensures_swap_cells i j w Q E :
  (in_range (arr w) i -> in_range (arr w) j ->
   Q tt (mkWorld (swapped (arr w) i j) (stats w) (env w))) ->
  ensures (swap_cells i j) w Q E.
Proof.
  intros H. unfold swap_cells.
  apply ensures_bind, ensures_rd. intros Hj.
  apply ensures_bind, ensures_rd. intros Hi.
  apply ensures_bind, ensures_wr. intros _.
  apply ensures_wr. intros _. now apply H.
Qed.

Lemma ensures_arr_length w Q E : Q (len (arr w)) w -> ensures arr_length w Q E.
Proof. done. Qed.

Lemma ensures_incr_comparisons w Q E :
  Q tt (mkWorld (arr w)
          (mkStats (comparisons (stats w) + 1) (swaps (stats w))
                   (writes (stats w)) (time (stats w))) (env w)) ->
  ensures incr_comparisons w Q E.
Proof. done. Qed.

Lemma ensures_incr_swaps w Q E :
  Q tt (mkWorld (arr w)
          (mkStats (comparisons (stats w)) (swaps (stats w) + 1)
                   (writes (stats w)) (time (stats w))) (env w)) ->
  ensures incr_swaps w Q E.
Proof. done. Qed.

Lemma ensures_add_writes k w Q E :
  Q tt (mkWorld (arr w)
          (mkStats (comparisons (stats w)) (swaps (stats w))
                   (writes (stats w) + k) (time (stats w))) (env w)) ->
  ensures (add_writes k) w Q E.
Proof. done. Qed.

(** An emit invokes the callback once, draws no random number, and leaves
    the array, the counters and the caller's array as they are. *)
Lemma ensures_emit h w Q E :
  (forall e',
     length (calls e') = S (length (calls (env w))) ->
     draws e' = draws (env w) ->
     initial e' = initial (env w) ->
     Q tt (mkWorld (arr w) (stats w) e')) ->
  ensures (emit K h) w Q E.
Proof.
  intros H. change (Q tt (update K h no_update w)).
  destruct (update_fields K h no_update w)
    as (_ & _ & Hi & Hc & _ & _ & _ & Hd & _).
  rewrite update_eta. apply H; [|done..].
  rewrite Hc, length_app. cbn. lia.
Qed.

(** A draw is a number below the bound. *)
Lemma ensures_random_below b w Q E :
  (forall r, (0 < b -> 0 <= r < b) ->
     Q r (mkWorld (arr w) (stats w) (drawn (env w)))) ->
  ensures (random_below K b) w Q E.
Proof.
  intros H. apply H. intros Hb. now apply Z.mod_pos_bound.
Qed.

Lemma ensures_for_up {St} (I : Z -> St -> World Host -> Prop) n i
    (body : Z -> St -> M Host St) s0 w Q E :
  I i s0 w ->
  (forall k s w, i <= k < i + Z.of_nat n -> I k s w ->
     ensures (body k s) w (I (k + 1)) E) ->
  (forall s w, I (i + Z.of_nat n) s w -> Q s w) ->
  ensures (for_up n i body s0) w Q E.
Proof.
  revert i s0 w. induction n as [|n IH]; intros i s0 w HI Hbody HQ.
  - apply ensures_ret, HQ. now replace (i + Z.of_nat 0) with i by lia.
  - cbn [for_up]. apply ensures_bind.
    eapply ensures_conseq; [apply Hbody; [lia | exact HI]| |done].
    intros s1 w1 H1. apply IH; [exact H1| |].
    + intros k s w' Hk. apply Hbody. lia.
    + intros s w'.
      replace (i + 1 + Z.of_nat n) with (i + Z.of_nat (S n)) by lia. apply HQ.
Qed.

Lemma ensures_for_range {St} (I : Z -> St -> World Host -> Prop) lo hi
    (body : Z -> St -> M Host St) s0 w Q E :
  I lo s0 w ->
  (forall k s w, lo <= k < hi -> I k s w -> ensures (body k s) w (I (k + 1)) E) ->
  (forall s w, I (Z.max lo hi) s w -> Q s w) ->
  ensures (for_range lo hi body s0) w Q E.
Proof.
  intros HI Hbody HQ. unfold for_range.
  apply ensures_for_up with (I := I); [done| |].
  - intros k s w' Hk. apply Hbody. lia.
  - intros s w'.
    replace (lo + Z.of_nat (Z.to_nat (hi - lo))) with (Z.max lo hi) by lia.
    apply HQ.
Qed.

Lemma ensures_for_down {St} (I : Z -> St -> World Host -> Prop) n i
    (body : Z -> St -> M Host St) s0 w Q E :
  I i s0 w ->
  (forall k s w, i - Z.of_nat n < k <= i -> I k s w ->
     ensures (body k s) w (I (k - 1)) E) ->
  (forall s w, I (i - Z.of_nat n) s w -> Q s w) ->
  ensures (for_down n i body s0) w Q E.
Proof.
  revert i s0 w. induction n as [|n IH]; intros i s0 w HI Hbody HQ.
  - apply ensures_ret, HQ. now replace (i - Z.of_nat 0) with i by lia.
  - cbn [for_down]. apply ensures_bind.
    eapply ensures_conseq; [apply Hbody; [lia | exact HI]| |done].
    intros s1 w1 H1. apply IH; [exact H1| |].
    + intros k s w' Hk. apply Hbody. lia.
    + intros s w'.
      replace (i - 1 - Z.of_nat n) with (i - Z.of_nat (S n)) by lia. apply HQ.
Qed.

Lemma ensures_for_range_down {St} (I : Z -> St -> World Host -> Prop) hi lo
    (body : Z -> St -> M Host St) s0 w Q E :
  I hi s0 w ->
  (forall k s w, lo <= k <= hi -> I k s w -> ensures (body k s) w (I (k - 1)) E) ->
  (forall s w, I (Z.min hi (lo - 1)) s w -> Q s w) ->
  ensures (for_range_down hi lo body s0) w Q E.
Proof.
  intros HI Hbody HQ. unfold for_range_down.
  apply ensures_for_down with (I := I); [done| |].
  - intros k s w' Hk. apply Hbody. lia.
  - intros s w'.
    replace (hi - Z.of_nat (Z.to_nat (hi - lo + 1))) with (Z.min hi (lo - 1))
      by lia.
    apply HQ.
Qed.

Lemma ensures_while_loop {St} (I : St -> World Host -> Prop) fuel
    (cond : St -> M Host bool) (body : St -> M Host St) s0 w Q E :
  I s0 w ->
  (forall s w, I s w ->
     ensures (cond s) w (fun b w' =>
       if b then ensures (body s) w' I E else Q s w') E) ->
  ensures (while_loop fuel cond body s0) w Q E.
Proof.
  intros HI Hstep. revert s0 w HI.
  induction fuel as [|fuel IH]; intros s0 w HI; [done|].
  cbn [while_loop]. apply ensures_bind.
  eapply ensures_conseq; [apply Hstep, HI| |done].
  intros [|] w' Hb; [|now apply ensures_ret].
  apply ensures_bind. eapply ensures_conseq; [exact Hb| |done].
  intros s' w'' HI'. now apply IH.
Qed.

(** What a computation that returns ensures, it returns with. *)
Lemma returns_ensures {A} (m : M Host A) w (Q Q' : A -> World Host -> Prop) E :
  returns m w Q -> ensures m w Q' E ->
  returns m w (fun x w' => Q x w' /\ Q' x w').
Proof.
  intros (x & w' & Hm & HQ) H. exists x, w'. unfold ensures in H.
  rewrite Hm in H. done.
Qed.

Lemma ensures_Done {A} (m : M Host A) w Q E x w' :
  ensures m w Q E -> m w = Done x w' -> Q x w'.
Proof. unfold ensures. intros H Hm. now rewrite Hm in H. Qed.



End Ensures.

Ltac track1 K :=
  lazymatch goal with
  | |- ensures (bind _ _) _ _ _ => apply ensures_bind
  | |- ensures (ret _) _ _ _ => apply ensures_ret
  | |- ensures incr_comparisons _ _ _ => apply ensures_incr_comparisons
  | |- ensures incr_swaps _ _ _ => apply ensures_incr_swaps
  | |- ensures (add_writes _) _ _ _ => apply ensures_add_writes
  | |- ensures arr_length _ _ _ => apply ensures_arr_length
  | |- ensures (emit _ _) _ _ _ => apply (ensures_emit K); intros ? ? ? ?
  | |- ensures (rd _) _ _ _ => apply ensures_rd; intros ?
  | |- ensures (wr _ _) _ _ _ => apply ensures_wr; intros ?
  | |- ensures (swap_cells _ _) _ _ _ => apply ensures_swap_cells; intros ? ?
  | |- ensures off_model _ _ _ => apply ensures_off_model
  | |- ensures (bump _ _ _) _ _ _ => unfold bump
  | |- ensures (fill _ _ _) _ _ _ => unfold fill
  | |- ensures (take_cell _ _) _ _ _ => unfold take_cell
  | |- ensures (if ?c then _ else _) _ _ _ => destruct c
  | |- ensures (match ?x with Some _ => _ | None => _ end) _ _ _ => destruct x
  end;
  cbn [arr stats env comparisons swaps writes time].

Ltac track K := repeat track1 K.

Ltac books :=
  unfold swap_account, move_account, shown in *;
  cbn [arr stats env comparisons swaps writes time] in *; lia.

(** ** The books of the variants *)

Section Books.

Context {Host : Type} (K : Collaborators Host).
Implicit Types (w : World Host) (e : Env Host).

#[local] Abbreviation never := (fun (_ : JsThrown) (_ : World Host) => False).

(** *** Bubble, selection, quick and heap sort *)

Lemma bubble_pass_books c n w :
  swap_account c w ->
  ensures (bubble_pass K n) w (fun _ w' => swap_account c w') never.
Proof.
  intros H. unfold bubble_pass.
  apply ensures_for_range with (I := fun _ _ w' => swap_account c w');
    [done| |auto].
  intros i s w0 _ H0. track K; books.
Qed.

Lemma bubble_loop_books c fuel n w :
  swap_account c w ->
  ensures (bubble_loop K fuel n) w (fun _ w' => swap_account c w') never.
Proof.
  revert n w. induction fuel as [|fuel IH]; intros n w H; [done|].
  cbn [bubble_loop]. apply ensures_bind.
  eapply ensures_conseq; [apply bubble_pass_books; cbv beta in *; eassumption| |done].
  intros [|] w' H'; [now apply IH|now apply ensures_ret].
Qed.

Lemma bubbleSortFunc_books c w :
  swap_account c w ->
  ensures (bubbleSortFunc K) w (fun _ w' => swap_account c w') never.
Proof. intros H. unfold bubbleSortFunc. track K. now apply bubble_loop_books. Qed.

Lemma selectionSortFunc_books c w :
  swap_account c w ->
  ensures (selectionSortFunc K) w (fun _ w' => swap_account c w') never.
Proof.
  intros H. unfold selectionSortFunc. track K.
  apply ensures_for_range with (I := fun _ _ w' => swap_account c w');
    [done| |auto].
  intros i _ w0 _ H0. apply ensures_bind. unfold selection_min.
  apply ensures_for_range with (I := fun _ _ w' => swap_account c w');
    [done| |].
  - intros j s w1 _ H1. track K; books.
  - intros m w1 H1. track K; books.
Qed.

Lemma quick_partition_books c low high w :
  swap_account c w ->
  ensures (quick_partition K low high) w (fun _ w' => swap_account c w') never.
Proof.
  intros H. unfold quick_partition. track K.
  apply ensures_for_range with (I := fun _ _ w' => swap_account c w');
    [done| |].
  - intros j s w1 _ H1. track K; books.
  - intros m w1 H1. track K; books.
Qed.

Lemma quick_sort_books c fuel low high w :
  swap_account c w ->
  ensures (quick_sort K fuel low high) w (fun _ w' => swap_account c w') never.
Proof.
  revert low high w. induction fuel as [|fuel IH]; intros low high w H; [done|].
  cbn [quick_sort]. destruct (low <? high); [|now apply ensures_ret].
  apply ensures_bind.
  eapply ensures_conseq; [apply quick_partition_books; cbv beta in *; eassumption| |done].
  intros p w1 H1. apply ensures_bind.
  eapply ensures_conseq; [apply IH; cbv beta in *; eassumption| |done].
  intros ? w2 H2. now apply IH.
Qed.

Lemma quickSortFunc_books c w :
  swap_account c w ->
  ensures (quickSortFunc K) w (fun _ w' => swap_account c w') never.
Proof. intros H. unfold quickSortFunc. track K. now apply quick_sort_books. Qed.

Lemma heap_child_books c size ch largest w :
  swap_account (c + 1) w \/ swap_account c w ->
  ensures (heap_child K size ch largest) w
    (fun _ w' => swap_account (c + 1) w' \/ swap_account c w') never.
Proof. intros [H|H]; unfold heap_child; track K; (left; books) || (right; books). Qed.

Lemma heap_heapify_books c fuel size i w :
  swap_account c w ->
  ensures (heap_heapify K fuel size i) w (fun _ w' => swap_account c w') never.
Proof.
  revert i w. induction fuel as [|fuel IH]; intros i w H; [done|].
  cbn [heap_heapify]. apply ensures_bind.
  assert (Hc : forall ch largest w0, swap_account c w0 ->
    ensures (heap_child K size ch largest) w0
      (fun _ w' => swap_account c w') never).
  { intros ch largest w0 H0. unfold heap_child. track K; books. }
  eapply ensures_conseq; [apply Hc; cbv beta in *; eassumption| |done].
  intros l1 w1 H1. apply ensures_bind.
  eapply ensures_conseq; [apply Hc; cbv beta in *; eassumption| |done].
  intros l2 w2 H2. destruct (negb (l2 =? i)); [|now apply ensures_ret].
  track K. apply IH. books.
Qed.

Lemma heapSortFunc_books c w :
  swap_account c w ->
  ensures (heapSortFunc K) w (fun _ w' => swap_account c w') never.
Proof.
  intros H. unfold heapSortFunc. track K.
  apply ensures_for_range_down with (I := fun _ _ w' => swap_account c w');
    [done| |].
  - intros i _ w1 _ H1. now apply heap_heapify_books.
  - intros ? w1 H1.
    apply ensures_for_range_down with (I := fun _ _ w' => swap_account c w');
      [done| |auto].
    intros i _ w2 _ H2. track K. apply heap_heapify_books. books.
Qed.

(** *** Insertion, merge, radix and bucket sort *)

Lemma insertion_shift_books i current w :
  ensures (insertion_shift K i current) w
    (fun _ w' =>
       shown w' - writes (stats w') = shown w - writes (stats w) /\
       writes (stats w') - swaps (stats w') =
         writes (stats w) - swaps (stats w) /\
       comparisons (stats w') - swaps (stats w') =
         comparisons (stats w) - swaps (stats w)) never.
Proof.
  unfold insertion_shift.
  apply ensures_while_loop with (I := fun _ w' =>
    shown w' - writes (stats w') = shown w - writes (stats w) /\
    writes (stats w') - swaps (stats w') = writes (stats w) - swaps (stats w) /\
    comparisons (stats w') - swaps (stats w') =
      comparisons (stats w) - swaps (stats w)); [done|].
  intros j w1 H1. destruct (0 <=? j).
  - track K. destruct (current <? _); [|done]. track K. books.
  - track K. done.
Qed.

Lemma insertionSortFunc_books c w :
  move_account c w ->
  writes (stats w) = swaps (stats w) ->
  comparisons (stats w) <= writes (stats w) ->
  ensures (insertionSortFunc K) w
    (fun _ w' =>
       move_account c w' /\
       writes (stats w') =
         swaps (stats w') + Z.max (len (arr w) - 1) 0 /\
       comparisons (stats w') <= writes (stats w')) never.
Proof.
  intros H Hws Hcw. unfold insertionSortFunc. track K.
  apply ensures_for_range with (I := fun i _ w' =>
    move_account c w' /\
    writes (stats w') = swaps (stats w') + (i - 1) /\
    comparisons (stats w') <= writes (stats w')); [repeat split; books| |].
  - intros i _ w1 Hi (H1 & H2 & H3). track K.
    eapply ensures_conseq; [apply insertion_shift_books| |done].
    intros j w2 (Ha & Hb & Hc). cbn [arr stats env] in *.
    track K; repeat split; books.
  - intros ? w1 (H1 & H2 & H3). repeat split; [done| |done].
    rewrite H2. lia.
Qed.

Lemma merge_slice_books from n w :
  ensures (merge_slice from n) w (fun _ w' => w' = w) never.
Proof.
  unfold merge_slice.
  apply ensures_for_range with (I := fun _ _ w' => w' = w); [done| |auto].
  intros i L w1 _ ->. track K. done.
Qed.

Lemma merge_drain_books c L n ik w :
  even_books c w ->
  ensures (merge_drain K L n ik) w (fun _ w' => even_books c w') never.
Proof.
  intros H. unfold merge_drain.
  apply ensures_while_loop with (I := fun _ w' => even_books c w'); [done|].
  intros [i k] w1 H1. track K. destruct (i <? n); [|done].
  unfold even_books in *. track K. repeat split; books.
Qed.

Lemma merge_merge_books c l m r w :
  even_books c w ->
  ensures (merge_merge K l m r) w (fun _ w' => even_books c w') never.
Proof.
  intros H. unfold merge_merge. cbn zeta. apply ensures_bind.
  eapply ensures_conseq; [apply merge_slice_books| |done].
  intros L w1 ->. apply ensures_bind.
  eapply ensures_conseq; [apply merge_slice_books| |done].
  intros R w1 ->. apply ensures_bind.
  apply ensures_conseq with (Q := fun _ w' => even_books c w') (E := never);
    [| |done].
  - apply ensures_while_loop with (I := fun _ w' => even_books c w'); [done|].
    intros [[i j] k] w1 H1. track K.
    destruct ((i <? m - l + 1) && (j <? r - m)); [|done].
    unfold even_books in *. track K; repeat split; books.
  - intros [[i j] k] w1 H1. apply ensures_bind.
    eapply ensures_conseq; [apply merge_drain_books; cbv beta in *; eassumption| |done].
    intros ik w2 H2. apply ensures_bind.
    eapply ensures_conseq; [apply merge_drain_books; cbv beta in *; eassumption| |done].
    intros jk w3 H3. now apply ensures_ret.
Qed.

Lemma merge_sort_books c fuel l r w :
  even_books c w ->
  ensures (merge_sort K fuel l r) w (fun _ w' => even_books c w') never.
Proof.
  revert l r w. induction fuel as [|fuel IH]; intros l r w H; [done|].
  cbn [merge_sort]. destruct (r <=? l); [now apply ensures_ret|].
  cbn zeta. apply ensures_bind.
  eapply ensures_conseq; [apply IH; cbv beta in *; eassumption| |done].
  intros ? w1 H1. apply ensures_bind.
  eapply ensures_conseq; [apply IH; cbv beta in *; eassumption| |done].
  intros ? w2 H2. now apply merge_merge_books.
Qed.

Lemma mergeSortFunc_books c w :
  even_books c w ->
  ensures (mergeSortFunc K) w (fun _ w' => even_books c w') never.
Proof. intros H. unfold mergeSortFunc. track K. now apply merge_sort_books. Qed.

Lemma radix_getMax_books w :
  ensures radix_getMax w (fun _ w' => w' = w) never.
Proof.
  unfold radix_getMax. track K; [done|].
  apply ensures_for_range with (I := fun _ _ w' => w' = w); [done| |].
  - intros i M w1 _ ->. track K. done.
  - intros M w1 ->. now apply ensures_ret.
Qed.

(** One pass makes as many moves as there are cells. *)
Lemma radix_countingSort_books exp w :
  ensures (radix_countingSort K exp) w
    (fun _ w' =>
       shown w' - writes (stats w') = shown w - writes (stats w) /\
       writes (stats w') - swaps (stats w') =
         writes (stats w) - swaps (stats w) /\
       comparisons (stats w') = comparisons (stats w) /\
       writes (stats w') = writes (stats w) + len (arr w) /\
       len (arr w') = len (arr w)) never.
Proof.
  unfold radix_countingSort. track K.
  apply ensures_conseq with (Q := fun _ w' => w' = w) (E := never); [| |done].
  { unfold radix_tally.
    apply ensures_for_range with (I := fun _ _ w' => w' = w); [done| |auto].
    intros i cnt w1 _ ->. track K. done. }
  intros cnt w1 ->. apply ensures_bind.
  apply ensures_conseq with (Q := fun _ w' => w' = w) (E := never); [| |done].
  { unfold radix_accumulate.
    apply ensures_for_range with (I := fun _ _ w' => w' = w); [done| |auto].
    intros i c1 w1 _ ->. now apply ensures_ret. }
  intros cnt2 w1 ->. apply ensures_bind.
  apply ensures_conseq with (Q := fun _ w' => w' = w) (E := never); [| |done].
  { unfold radix_place.
    apply ensures_for_range_down with (I := fun _ _ w' => w' = w);
      [done| |auto].
    intros i [c1 out] w1 _ ->. track K. cbn zeta. track K. done. }
  intros co w1 ->. unfold radix_copy.
  apply ensures_for_range with (I := fun i _ w' =>
    shown w' - writes (stats w') = shown w - writes (stats w) /\
    writes (stats w') - swaps (stats w') = writes (stats w) - swaps (stats w) /\
    comparisons (stats w') = comparisons (stats w) /\
    writes (stats w') = writes (stats w) + i /\
    len (arr w') = len (arr w)); [repeat split; lia| |].
  - intros i ? w1 Hi (H1 & H2 & H3 & H4 & H5). track K.
    repeat split; try books. now rewrite len_upd.
  - intros ? w1 (H1 & H2 & H3 & H4 & H5). repeat split; try done.
    unfold len in *. lia.
Qed.

Lemma returns_implies_ensures {A} (m : M Host A) w Q E :
  returns m w Q -> ensures m w Q E.
Proof. intros (x & w' & Hm & HQ). unfold ensures. now rewrite Hm. Qed.

Lemma radixSortFunc_books c w :
  even_books c w ->
  ensures (radixSortFunc K) w
    (fun _ w' =>
       even_books c w' /\ comparisons (stats w') = comparisons (stats w))
    never.
Proof.
  intros H. unfold radixSortFunc. apply ensures_bind.
  eapply ensures_conseq; [apply radix_getMax_books| |done].
  intros [M|] w1 ->; [|now apply ensures_ret].
  apply ensures_bind.
  apply ensures_while_loop with (I := fun _ w' =>
    even_books c w' /\ comparisons (stats w') = comparisons (stats w));
    [done|].
  intros exp w1 [H1 H2]. track K. destruct (0 <? M / exp).
  - apply ensures_bind.
    eapply ensures_conseq; [apply radix_countingSort_books| |done].
    intros ? w2 (Ha & Hb & Hc & Hd & _). apply ensures_ret.
    unfold even_books in *. pose proof (Z.le_refl (len (arr w1))).
    unfold len in *. repeat split; books.
  - now apply ensures_ret.
Qed.

End Books.

Lemma concat_push_length (Bs : list (list Z)) k v :
  (k < length Bs)%nat ->
  length (concat (<[k := nth k Bs [] ++ [v]]> Bs)) = S (length (concat Bs)).
Proof.
  intros Hk. destruct (lookup_lt_is_Some_2 Bs k Hk) as [B HB].
  rewrite (nth_lookup_Some _ _ _ _ HB).
  rewrite insert_take_drop by done.
  transitivity (S (length (concat (take k Bs ++ B :: drop (S k) Bs))));
    [|now rewrite take_drop_middle].
  rewrite !concat_app. cbn [concat]. rewrite !length_app. cbn. lia.
Qed.

Lemma concat_sorted_length (Bs : list (list Z)) :
  length (concat (map bucket_sort_one Bs)) = length (concat Bs).
Proof.
  induction Bs as [|B Bs IH]; cbn; [done|].
  rewrite !length_app, IH. f_equal.
  apply Permutation_length, bucket_sort_one_spec.
Qed.

Section MoreBooks.

Context {Host : Type} (K : Collaborators Host).
Implicit Types (w : World Host) (e : Env Host).

#[local] Abbreviation never := (fun (_ : JsThrown) (_ : World Host) => False).

(** *** Bucket sort *)

(** The first loop only counts moves; it throws, if at all, before anything
    is written or shown. *)
Lemma bucket_distribute_books n max k w :
  0 <= n ->
  ensures (bucket_distribute K n max k) w
    (fun Bs w' =>
       arr w' = arr w /\ env w' = env w /\
       comparisons (stats w') = comparisons (stats w) /\
       swaps (stats w') = swaps (stats w) + n /\
       writes (stats w') = writes (stats w) /\
       length Bs = Z.to_nat k /\ Z.of_nat (length (concat Bs)) = n)
    (fun ex w' =>
       ex = new_Error K push_message /\
       arr w' = arr w /\ env w' = env w /\
       comparisons (stats w') = comparisons (stats w) /\
       writes (stats w') = writes (stats w)).
Proof.
  intros Hn. unfold bucket_distribute.
  apply ensures_for_range with (I := fun i Bs w' =>
    arr w' = arr w /\ env w' = env w /\
    comparisons (stats w') = comparisons (stats w) /\
    swaps (stats w') = swaps (stats w) + i /\
    writes (stats w') = writes (stats w) /\
    length Bs = Z.to_nat k /\ Z.of_nat (length (concat Bs)) = i).
  - repeat split; [lia|apply repeat_length|].
    clear. induction (Z.to_nat k); [done|]. cbn. done.
  - intros i Bs w1 Hi (H1 & H2 & H3 & H4 & H5 & H6 & H7). track K.
    unfold bucket_push. destruct (bucket_index _ _ _) as [d|].
    + destruct ((0 <=? d) && (d <? Z.of_nat (length Bs))) eqn:Hd.
      * apply andb_true_iff in Hd. track K.
        split; [done|]. split; [done|]. split; [done|].
        split; [cbn; lia|]. split; [done|].
        split; [now rewrite length_insert|].
        rewrite concat_push_length by lia. lia.
      * repeat split; done.
    + repeat split; done.
  - intros Bs w1. replace (Z.max 0 n) with n by lia. done.
Qed.

(** The last loops make one write, shown at once, for every bucketed cell. *)
Lemma bucket_gather_books (Bs : list (list Z)) k w :
  k = Z.of_nat (length Bs) ->
  ensures (bucket_gather K Bs k) w
    (fun _ w' =>
       shown w' - writes (stats w') = shown w - writes (stats w) /\
       comparisons (stats w') = comparisons (stats w) /\
       swaps (stats w') = swaps (stats w) /\
       writes (stats w') = writes (stats w) + Z.of_nat (length (concat Bs)))
    never.
Proof.
  intros ->. unfold bucket_gather.
  apply ensures_for_range with (I := fun i _ w' =>
    shown w' - writes (stats w') = shown w - writes (stats w) /\
    comparisons (stats w') = comparisons (stats w) /\
    swaps (stats w') = swaps (stats w) /\
    writes (stats w') =
      writes (stats w) + Z.of_nat (length (concat (take (Z.to_nat i) Bs)))).
  - cbn. rewrite take_0. cbn. repeat split; lia.
  - intros i ix w1 Hi (H1 & H2 & H3 & H4). cbn zeta.
    destruct (lookup_lt_is_Some_2 Bs (Z.to_nat i)) as [B HB]; [lia|].
    rewrite (nth_lookup_Some _ _ _ _ HB).
    replace (Z.to_nat (i + 1)) with (S (Z.to_nat i)) by lia.
    rewrite (concat_take_next _ _ _ HB), length_app.
    apply ensures_for_range with (I := fun j _ w' =>
      shown w' - writes (stats w') = shown w - writes (stats w) /\
      comparisons (stats w') = comparisons (stats w) /\
      swaps (stats w') = swaps (stats w) /\
      writes (stats w') =
        writes (stats w) +
        Z.of_nat (length (concat (take (Z.to_nat i) Bs))) + j).
    + repeat split; try done. lia.
    + intros j jx w2 Hj (Ha & Hb & Hc & Hd). track K. repeat split; books.
    + intros jx w2 (Ha & Hb & Hc & Hd). repeat split; try done.
      unfold len in *. lia.
  - intros ix w1 (H1 & H2 & H3 & H4). repeat split; try done.
    replace (Z.to_nat (Z.max 0 (Z.of_nat (length Bs)))) with (length Bs) in H4
      by lia.
    now rewrite firstn_all in H4.
Qed.

Lemma bucketSortFunc_books c w :
  move_account c w ->
  ensures (bucketSortFunc K) w
    (fun _ w' =>
       move_account c w' /\
       comparisons (stats w') = comparisons (stats w) /\
       swaps (stats w') = swaps (stats w) + len (arr w) /\
       writes (stats w') = writes (stats w) + len (arr w))
    (fun ex w' =>
       ex = new_Error K push_message /\ arr w' = arr w /\ env w' = env w /\
       writes (stats w') = writes (stats w)).
Proof.
  intros H. unfold bucketSortFunc. apply ensures_bind, ensures_arr_length.
  destruct (Z.leb_spec (len (arr w)) 0) as [Hle|Hlt].
  { apply ensures_ret. repeat split; try done; unfold len in *; lia. }
  cbn zeta. apply ensures_bind. unfold ensures at 1. cbn [arr].
  apply ensures_bind.
  eapply ensures_conseq; [apply bucket_distribute_books; unfold len; lia| |].
  - intros Bs w1 (H1 & H2 & H3 & H4 & H5 & H6 & H7). apply ensures_bind.
    eapply ensures_conseq.
    + apply bucket_gather_books. rewrite length_map, H6.
      pose proof (Z.sqrt_nonneg (len (arr w))). lia.
    + intros ? w2 (Ha & Hb & Hc & Hd). apply ensures_ret.
      rewrite concat_sorted_length, H7 in Hd.
      unfold move_account, shown in *. rewrite H2 in Ha.
      repeat split; lia.
    + done.
  - intros ex w1 (-> & H1 & H2 & H3 & H4). done.
Qed.

End MoreBooks.

Section BogoBooks.

Context {Host : Type} (K : Collaborators Host).
Implicit Types (w : World Host) (e : Env Host).

#[local] Abbreviation never := (fun (_ : JsThrown) (_ : World Host) => False).

Lemma bogo_scan_books k i w :
  ensures (bogo_scan k i) w
    (fun _ w' =>
       arr w' = arr w /\ env w' = env w /\
       swaps (stats w') = swaps (stats w) /\
       writes (stats w') = writes (stats w)) never.
Proof.
  revert i w. induction k as [|k IH]; intros i w; [done|].
  cbn [bogo_scan]. track K; [done|].
  eapply ensures_conseq; [apply IH| |done].
  intros b w' (H1 & H2 & H3 & H4). cbn [arr stats env swaps writes] in *. done.
Qed.

Lemma bogo_shuffle_books c d w :
  bogo_books c d w ->
  ensures (bogo_shuffle K) w (fun _ w' => bogo_books c d w') never.
Proof.
  intros (H1 & H2 & H3). unfold bogo_shuffle. track K.
  apply ensures_conseq with
    (Q := fun (_ : unit) w' =>
       writes (stats w') = 2 * swaps (stats w') /\
       Z.of_nat (draws (env w')) = d + swaps (stats w') /\
       swaps (stats w') = swaps (stats w) + Z.max (len (arr w) - 1) 0 /\
       len (arr w') = len (arr w) /\ shown w' = shown w)
    (E := never); [| |done].
  - apply ensures_for_range_down with (I := fun i (_ : unit) w' =>
      writes (stats w') = 2 * swaps (stats w') /\
      Z.of_nat (draws (env w')) = d + swaps (stats w') /\
      swaps (stats w') = swaps (stats w) + (len (arr w) - 1 - i) /\
      len (arr w') = len (arr w) /\ shown w' = shown w).
    + repeat split; try done; lia.
    + intros i ? w1 Hi (Ha & Hb & Hc & Hd & He).
      apply ensures_bind, (ensures_random_below K). intros r Hr. track K.
      unfold shown, drawn in *.
      cbn [arr stats env calls draws comparisons swaps writes time] in *.
      rewrite len_swapped. repeat split; lia.
    + intros ? w1 (Ha & Hb & Hc & Hd & He). repeat split; try done.
      unfold len in *. lia.
  - intros ? w1 (Ha & Hb & Hc & Hd & He). track K.
    unfold bogo_books, shown in *. cbn [arr stats env].
    split; [done|]. split; [lia|]. rewrite Hd. nia.
Qed.

Lemma bogo_loop_books c d fuel w :
  bogo_books c d w ->
  ensures (bogo_loop K fuel) w (fun _ w' => bogo_books c d w') never.
Proof.
  revert w. induction fuel as [|fuel IH]; intros w H; [done|].
  cbn [bogo_loop]. apply ensures_bind. unfold bogo_isSorted. track K.
  eapply ensures_conseq; [apply bogo_scan_books| |done].
  intros b w1 (H1 & H2 & H3 & H4).
  assert (bogo_books c d w1).
  { unfold bogo_books, shown in *. rewrite H1, H2, H3, H4. done. }
  destruct b; [now apply ensures_ret|].
  apply ensures_bind.
  eapply ensures_conseq;
    [apply bogo_shuffle_books; cbv beta in *; eassumption| |done].
  intros ? w2 H2'. now apply IH.
Qed.

(** On an array in ascending order [isSorted] says so, having compared every
    cell but the last with the next. *)
Lemma bogo_scan_sorted k i a st (e0 : Env Host) :
  0 <= i -> i + Z.of_nat k < len a \/ k = O ->
  (forall p, i <= p < i + Z.of_nat k -> sel a p <= sel a (p + 1)) ->
  returns (bogo_scan k i) (mkWorld a st e0) (fun b w =>
    b = true /\
    w = mkWorld a
          (mkStats (comparisons st + Z.of_nat k) (swaps st) (writes st)
             (time st)) e0).
Proof.
  revert i st. induction k as [|k IH]; intros i st Hi Hk Hs.
  - apply returns_ret. split; [done|]. destruct st. cbn.
    now rewrite Z.add_0_r.
  - destruct Hk as [Hk|Hk]; [|done].
    cbn [bogo_scan]. wp.
    destruct (Z.ltb_spec (sel a (i + 1)) (sel a i)) as [Hlt|_].
    { specialize (Hs i ltac:(lia)). lia. }
    eapply returns_conseq.
    + apply IH; [lia|left; lia|intros p Hp; apply Hs; lia].
    + intros b w [-> ->]. split; [done|].
      cbn [comparisons swaps writes time]. do 2 f_equal. lia.
Qed.

End BogoBooks.

(** ** Whole runs *)

Section Runs.

Context {Host : Type} (K : Collaborators Host).
Implicit Types (w : World Host) (e : Env Host).

(** A run whose step function returns ends with the final update. *)
Lemma run_completes key source f e w1 :
  sortFunc_of K key source = inr f ->
  f (start e) = Done tt w1 ->
  let st :=
    set_time (clock (env w1) - clock e - pausedTime (env w1)) (stats w1) in
  exists w',
    run K key source e = inr (Done (Some st) w') /\
    calls (env w') =
      calls (env w1) ++
        [mkCall (Snapshot (length (snaps (env w1)))) (arr w1) no_highlight st
           None] /\
    arr w' = arr w1 /\ initial (env w') = initial (env w1) /\
    host (env w') =
      cb_host (updateCallback K (arr w1) no_highlight st None
                 (host (env w1))) /\
    draws (env w') = draws (env w1).
Proof.
  intros Hf H st. rewrite (run_runner K _ _ _ _ Hf). unfold runner.
  rewrite H. unfold complete, copy_arr, invoke, with_stats, with_env, now.
  cbn [arr stats env fst snd deref snaps host]. eexists. split; [reflexivity|].
  rewrite nth_middle. unfold assign, with_env, set_snap, delivered.
  cbn [arr stats env calls initial host draws]. done.
Qed.

(** A run whose step function throws ends with the report to the callback,
    which is given the caller's array. *)
Lemma run_fails key source f e ex w1 :
  sortFunc_of K key source = inr f ->
  f (start e) = Throw ex w1 ->
  let st :=
    set_time (clock (env w1) - clock e - pausedTime (env w1)) (stats w1) in
  exists w',
    run K key source e = inr (Done None w') /\
    calls (env w') =
      calls (env w1) ++
        [mkCall InitialArray (initial (env w1)) no_highlight st
           (Some (failure_text ex))] /\
    arr w' = arr w1 /\
    host (env w') =
      cb_host (updateCallback K (initial (env w1)) no_highlight st
                 (Some (failure_text ex)) (host (env w1))).
Proof.
  intros Hf H st. rewrite (run_runner K _ _ _ _ Hf). unfold runner.
  rewrite H. unfold fail, invoke, with_env, now.
  cbn [arr stats env deref]. eexists. split; [reflexivity|].
  unfold assign, with_env, set_initial, delivered.
  cbn [arr stats env calls initial host draws]. done.
Qed.

Lemma start_books e :
  swap_account (Z.of_nat (length (calls e))) (start e) /\
  even_books (Z.of_nat (length (calls e))) (start e) /\
  bogo_books (Z.of_nat (length (calls e))) (Z.of_nat (draws e)) (start e).
Proof.
  unfold swap_account, even_books, move_account, bogo_books, shown, start.
  cbn. repeat split; lia.
Qed.

End Runs.

(** ** Costs *)

Lemma Sorted_sel (l : list Z) i j :
  Sorted Z.le l -> 0 <= i -> i <= j -> j < len l -> sel l i <= sel l j.
Proof.
  intros Hs. apply Sorted_StronglySorted in Hs; [|intros x y z; lia].
  revert i j. induction Hs as [|a l Hs IH Hall]; intros i j Hi Hij Hj.
  - unfold len in Hj. cbn in Hj. lia.
  - unfold len in Hj. cbn [length] in Hj.
    destruct (decide (i = 0)) as [->|Hi0].
    + destruct (decide (j = 0)) as [->|Hj0]; [lia|].
      unfold sel. change (Z.to_nat 0) with O. cbn [nth].
      replace (Z.to_nat j) with (S (Z.to_nat (j - 1))) by lia. cbn [nth].
      rewrite Forall_forall in Hall. apply Hall.
      apply list_elem_of_In, nth_In. lia.
    + unfold sel.
      replace (Z.to_nat i) with (S (Z.to_nat (i - 1))) by lia.
      replace (Z.to_nat j) with (S (Z.to_nat (j - 1))) by lia. cbn [nth].
      apply (IH (i - 1) (j - 1)); unfold len; lia.
Qed.

Section Costs.

Context {Host : Type} (K : Collaborators Host).
Implicit Types (w : World Host) (e : Env Host).

#[local] Abbreviation never := (fun (_ : JsThrown) (_ : World Host) => False).

(** Selection sort compares every pair of places once. *)
Lemma selectionSortFunc_cost w :
  ensures (selectionSortFunc K) w
    (fun _ w' =>
       2 * (comparisons (stats w') - comparisons (stats w)) =
         len (arr w) * (len (arr w) - 1) /\
       swaps (stats w') - swaps (stats w) <= Z.max (len (arr w) - 1) 0) never.
Proof.
  unfold selectionSortFunc. track K. set (n := len (arr w)).
  assert (Hn : 0 <= n) by (unfold n, len; lia).
  apply ensures_for_range with (I := fun i _ w' =>
    2 * (comparisons (stats w') - comparisons (stats w)) = i * (2 * n - i - 1) /\
    swaps (stats w') - swaps (stats w) <= i).
  - split; lia.
  - intros i ? w1 Hi [H1 H2]. apply ensures_bind. unfold selection_min.
    apply ensures_for_range with (I := fun j _ w' =>
      comparisons (stats w') = comparisons (stats w1) + (j - (i + 1)) /\
      swaps (stats w') = swaps (stats w1)).
    + split; lia.
    + intros j m w2 Hj [Ha Hb]. track K; split; books.
    + intros m w2 [Ha Hb]. replace (Z.max (i + 1) n) with n in Ha by lia.
      track K; split; cbn [comparisons swaps]; nia.
  - intros ? w1 [H1 H2]. split; [|lia].
    destruct (Z.max_spec 0 (n - 1)) as [[? E]|[? E]]; rewrite E in H1; nia.
Qed.

(** On an array in ascending order the first pass of bubble sort swaps
    nothing, having compared every cell but the last with the next. *)
Lemma bubble_pass_sorted a st (e0 : Env Host) :
  Sorted Z.le a ->
  returns (bubble_pass K (len a)) (mkWorld a st e0) (fun swapped w =>
    swapped = false /\ arr w = a /\
    stats w =
      mkStats (comparisons st + Z.max (len a - 1) 0) (swaps st) (writes st)
        (time st)).
Proof.
  intros Hs. unfold bubble_pass.
  destruct (decide (len a - 1 <= 0)) as [Hsmall|Hbig].
  - rewrite for_range_empty by lia. apply returns_ret.
    repeat split. destruct st. cbn. f_equal. lia.
  - apply returns_for_range with (I := fun i swapped w =>
      swapped = false /\ arr w = a /\
      stats w =
        mkStats (comparisons st + i) (swaps st) (writes st) (time st));
      [lia| | |].
    + repeat split. destruct st. cbn. f_equal. lia.
    + intros i swapped [b s e] Hi (-> & Hb & Hst). cbn [arr stats] in *.
      subst b s. wp.
      destruct (Z.ltb_spec (sel a (i + 1)) (sel a i)) as [Hlt|_].
      { pose proof (Sorted_sel a i (i + 1) Hs). lia. }
      wp. repeat split. cbn. f_equal. lia.
    + intros swapped w (-> & Hb & Hst). repeat split; [done|].
      rewrite Hst. f_equal. lia.
Qed.

(** The passes of radix sort: one for every decimal digit of the largest
    cell, each of them writing every cell once. *)
Lemma radixSortFunc_passes w :
  natural (arr w) ->
  ensures (radixSortFunc K) w
    (fun _ w' => exists p,
       0 <= p /\
       writes (stats w') = writes (stats w) + len (arr w) * p /\
       (forall x, x ∈ arr w -> x < 10 ^ p) /\
       (p = 0 \/ exists x, x ∈ arr w /\ 10 ^ (p - 1) <= x)) never.
Proof.
  intros Hnat. unfold natural in Hnat. rewrite Forall_forall in Hnat.
  destruct w as [a st e0]. cbn [arr stats] in *.
  unfold radixSortFunc. apply ensures_bind.
  eapply ensures_conseq;
    [apply (returns_implies_ensures _ _ _ never), radix_getMax_spec| |done].
  intros [M|] w1 [-> HM]; cbn [arr stats].
  - destruct HM as [HMin HMmax]. pose proof (Hnat M HMin) as HM0.
    apply ensures_bind.
    apply ensures_while_loop with (I := fun exp w' => exists p,
      0 <= p /\ exp = 10 ^ p /\
      writes (stats w') = writes st + len a * p /\
      len (arr w') = len a /\
      (p = 0 \/ 10 ^ (p - 1) <= M)).
    + exists 0. cbn [arr stats]. repeat split; lia.
    + intros exp w1 (p & Hp & -> & Hw & Hl & Hlow). track K.
      assert (Hpos : 0 < 10 ^ p) by (apply Z.pow_pos_nonneg; lia).
      destruct (Z.ltb_spec 0 (M / 10 ^ p)) as [Hgo|Hstop].
      * apply ensures_bind.
        eapply ensures_conseq; [apply radix_countingSort_books| |done].
        intros ? w2 (_ & _ & _ & Hd & Hl2). apply ensures_ret.
        exists (p + 1). rewrite Z.pow_add_r by lia.
        change (10 ^ 1) with 10. replace (p + 1 - 1) with p by lia.
        repeat split; try lia.
        right. destruct (Z_le_gt_dec (10 ^ p) M); [done|].
        rewrite Z.div_small in Hgo by lia. lia.
      * apply ensures_ret. exists p.
        split; [done|]. split; [done|]. split.
        -- intros x Hx. specialize (HMmax x Hx).
           destruct (Z_lt_le_dec M (10 ^ p)); [lia|].
           assert (1 <= M / 10 ^ p); [|lia].
           apply Z.div_le_lower_bound; lia.
        -- destruct Hlow as [->|Hlow]; [now left|right; eauto].
  - subst a. apply ensures_ret. exists 0. cbn [arr stats].
    split; [lia|]. split; [lia|]. split; [|now left].
    intros x Hx. now apply elem_of_nil in Hx.
Qed.


Lemma bogoSortFunc_never_throws w :
  ensures (bogoSortFunc K) w (fun _ _ => True) never.
Proof.
  unfold bogoSortFunc. generalize (S (patience K)). intros fuel.
  revert w. induction fuel as [|fuel IH]; intros w; [done|].
  cbn [bogo_loop]. apply ensures_bind. unfold bogo_isSorted. track K.
  eapply ensures_conseq; [apply bogo_scan_books| |done].
  intros [|] w1 _; [done|]. apply ensures_bind. unfold bogo_shuffle. track K.
  apply ensures_for_range_down with (I := fun _ _ _ => True); [done| |].
  - intros i ? w2 _ _. apply ensures_bind, (ensures_random_below K).
    intros r _. track K. done.
  - intros ? w2 _. track K. apply IH.
Qed.

End Costs.

(** ** What the counters of a run say *)

Section RunBooks.

Context {Host : Type} (K : Collaborators Host).
Implicit Types (w : World Host) (e : Env Host).

#[local] Abbreviation never := (fun (_ : JsThrown) (_ : World Host) => False).

Lemma completed_run key source f e (Q Q' : unit -> World Host -> Prop) E :
  sortFunc_of K key source = inr f ->
  returns f (start e) Q -> ensures f (start e) Q' E ->
  exists w1 w',
    Q tt w1 /\ Q' tt w1 /\ f (start e) = Done tt w1 /\
    let st :=
      set_time (clock (env w1) - clock e - pausedTime (env w1)) (stats w1) in
    run K key source e = inr (Done (Some st) w') /\
    calls (env w') =
      calls (env w1) ++
        [mkCall (Snapshot (length (snaps (env w1)))) (arr w1) no_highlight st
           None] /\
    arr w' = arr w1 /\ initial (env w') = initial (env w1) /\
    host (env w') =
      cb_host (updateCallback K (arr w1) no_highlight st None
                 (host (env w1))) /\
    draws (env w') = draws (env w1).
Proof.
  intros Hf Hr He.
  destruct (returns_ensures _ _ _ _ _ Hr He) as ([] & w1 & Hd & HQ & HQ').
  destruct (run_completes K key source f e w1 Hf Hd) as (w' & Hrun).
  exists w1, w'. auto.
Qed.

Lemma run_completed_inv key source f e st w' :
  sortFunc_of K key source = inr f ->
  run K key source e = inr (Done (Some st) w') ->
  exists w1,
    f (start e) = Done tt w1 /\
    st = set_time (clock (env w1) - clock e - pausedTime (env w1)) (stats w1) /\
    calls (env w') =
      calls (env w1) ++
        [mkCall (Snapshot (length (snaps (env w1)))) (arr w1) no_highlight st
           None] /\
    arr w' = arr w1 /\ initial (env w') = initial (env w1) /\
    draws (env w') = draws (env w1).
Proof.
  intros Hf Hrun. destruct (f (start e)) as [[] w1|ex w1| |] eqn:Hd.
  - destruct (run_completes K key source f e w1 Hf Hd)
      as (w2 & Hrun2 & Hc & Ha & Hi & _ & Hdr).
    rewrite Hrun in Hrun2. injection Hrun2 as -> ->. exists w1.
    repeat split; done.
  - destruct (run_fails K key source f e ex w1 Hf Hd) as (w2 & Hrun2 & _).
    rewrite Hrun in Hrun2. discriminate.
  - rewrite (run_runner K _ _ _ _ Hf) in Hrun. unfold runner in Hrun.
    rewrite Hd in Hrun. discriminate.
  - rewrite (run_runner K _ _ _ _ Hf) in Hrun. unfold runner in Hrun.
    rewrite Hd in Hrun. discriminate.
Qed.

(** X1.  Every run of bubble, selection, quick or heap sort completes.  It
    reports two writes for every swap, and it has invoked the callback once
    for every comparison and for every swap it reports, and once more at the
    end. *)
Theorem swapping_variants_books key source e :
  In key [bubbleSort; selectionSort; quickSort; heapSort] ->
  exists st w',
    run K key source e = inr (Done (Some st) w') /\
    writes st = 2 * swaps st /\
    Z.of_nat (length (calls (env w'))) =
      Z.of_nat (length (calls e)) + comparisons st + swaps st + 1.
Proof.
  intros Hkey. destruct (start_books e) as (Hs & _ & _).
  assert (H : exists f,
    sortFunc_of K key source = inr f /\
    returns f (start e) (fun _ _ => True) /\
    ensures f (start e)
      (fun _ w' => swap_account (Z.of_nat (length (calls e))) w') never).
  { destruct Hkey as [<-|[<-|[<-|[<-|[]]]]]; eexists; (split; [reflexivity|]).
    - split; [|now apply bubbleSortFunc_books].
      eapply returns_conseq; [apply bubbleSortFunc_sorts|done].
    - split; [|now apply selectionSortFunc_books].
      eapply returns_conseq; [apply selectionSortFunc_sorts|done].
    - split; [|now apply quickSortFunc_books].
      eapply returns_conseq; [apply quickSortFunc_sorts|done].
    - split; [|now apply heapSortFunc_books].
      eapply returns_conseq; [apply heapSortFunc_sorts|done]. }
  destruct H as (f & Hf & Hr & He).
  destruct (completed_run _ _ _ _ _ _ _ Hf Hr He)
    as (w1 & w' & _ & [Hw Hc] & _ & Hrun & Hcalls & _).
  eexists _, w'. split; [exact Hrun|]. cbn [writes swaps comparisons set_time].
  split; [done|]. rewrite Hcalls, length_app. unfold shown in Hc. cbn. lia.
Qed.

(** X2.  Every run of insertion or merge sort completes.  It has invoked the
    callback once for every write it reports, and once more at the end; it
    reports no more comparisons than writes; merge sort reports as many
    swaps as writes, insertion sort one write more than swaps for every cell
    but the first. *)
Theorem moving_variants_books key source e :
  In key [insertionSort; mergeSort] ->
  exists st w',
    run K key source e = inr (Done (Some st) w') /\
    Z.of_nat (length (calls (env w'))) =
      Z.of_nat (length (calls e)) + writes st + 1 /\
    comparisons st <= writes st /\
    writes st =
      swaps st +
      match key with
      | insertionSort => Z.max (len (initial e) - 1) 0
      | _ => 0
      end.
Proof.
  intros Hkey. destruct (start_books e) as (_ & Hs & _).
  destruct Hkey as [<-|[<-|[]]].
  - destruct Hs as (Hm & Hws & Hcw).
    destruct (completed_run insertionSort source _ e _ _ _ eq_refl
                (insertionSortFunc_sorts K (start e))
                (insertionSortFunc_books K _ _ Hm Hws Hcw))
      as (w1 & w' & _ & (Ha & Hb & Hc) & _ & Hrun & Hcalls & _).
    eexists _, w'. split; [exact Hrun|].
    cbn [writes swaps comparisons set_time].
    rewrite Hcalls, length_app. unfold move_account, shown in Ha. cbn.
    cbn [arr start] in Hb. repeat split; lia.
  - destruct (completed_run mergeSort source _ e _ _ _ eq_refl
                (mergeSortFunc_sorts K (start e))
                (mergeSortFunc_books K _ _ Hs))
      as (w1 & w' & _ & (Ha & Hb & Hc) & _ & Hrun & Hcalls & _).
    eexists _, w'. split; [exact Hrun|].
    cbn [writes swaps comparisons set_time].
    rewrite Hcalls, length_app. unfold move_account, shown in Ha. cbn.
    repeat split; lia.
Qed.

(** X3.  On an array of non-negative safe integers every run of radix sort
    completes.  It reports no comparison and as many swaps as writes: as many
    as there are cells, times the number [p] of decimal digits of the largest
    cell; and it has invoked the callback once for every write, and once more
    at the end. *)
Theorem radix_sort_books source e :
  natural (initial e) -> safe (initial e) ->
  exists st w' p,
    run K radixSort source e = inr (Done (Some st) w') /\
    comparisons st = 0 /\
    swaps st = writes st /\
    writes st = len (initial e) * p /\
    Z.of_nat (length (calls (env w'))) =
      Z.of_nat (length (calls e)) + writes st + 1 /\
    0 <= p /\
    (forall x, x ∈ initial e -> x < 10 ^ p) /\
    (p = 0 \/ exists x, x ∈ initial e /\ 10 ^ (p - 1) <= x).
Proof.
  intros Hnat _. destruct (start_books e) as (_ & Hs & _).
  assert (Hn : forall x, x ∈ arr (start e) -> 0 <= x)
    by (unfold natural in Hnat; now rewrite Forall_forall in Hnat).
  pose proof (returns_ensures _ _ _ _ never
                (radixSortFunc_sorts_naturals K (start e) Hn)
                (radixSortFunc_books K _ _ Hs)) as Hr.
  destruct (completed_run radixSort source _ e _ _ _ eq_refl Hr
              (radixSortFunc_passes K (start e) Hnat))
    as (w1 & w' & (_ & ((Ha & Hb & Hc) & Hd)) & (p & Hp & Hw & Hup & Hlow)
          & _ & Hrun & Hcalls & _).
  eexists _, w', p. split; [exact Hrun|].
  cbn [writes swaps comparisons set_time].
  rewrite Hcalls, length_app. unfold move_account, shown in Ha.
  cbn in Hd, Hw, Hup, Hlow |- *. repeat split; try done; lia.
Qed.

(** X4.  On an array of non-negative safe integers every run of bucket
    sort completes.  It reports no comparison, and one swap and one write for
    every cell; and it has invoked the callback once for every cell, and
    once more at the end. *)
Theorem bucket_sort_books source e :
  natural (initial e) -> safe (initial e) ->
  exists st w',
    run K bucketSort source e = inr (Done (Some st) w') /\
    comparisons st = 0 /\
    swaps st = len (initial e) /\
    writes st = len (initial e) /\
    Z.of_nat (length (calls (env w'))) =
      Z.of_nat (length (calls e)) + len (initial e) + 1.
Proof.
  intros Hnat _. destruct (start_books e) as (_ & (Hs & _) & _).
  assert (Hn : forall x, x ∈ arr (start e) -> 0 <= x)
    by (unfold natural in Hnat; now rewrite Forall_forall in Hnat).
  destruct (completed_run bucketSort source _ e _ _ _ eq_refl
              (bucketSortFunc_sorts_naturals K (start e) Hn)
              (bucketSortFunc_books K _ _ Hs))
    as (w1 & w' & _ & (Ha & Hb & Hc & Hd) & _ & Hrun & Hcalls & _).
  eexists _, w'. split; [exact Hrun|].
  cbn [writes swaps comparisons set_time].
  rewrite Hcalls, length_app. unfold move_account, shown in Ha.
  cbn in Hb, Hc, Hd |- *. repeat split; lia.
Qed.

(** X5.  Every run of selection sort reports the same number of comparisons,
    one for every pair of cells, whatever the cells hold; and at most one
    swap for every cell but the last. *)
Theorem selection_sort_cost source e :
  exists st w',
    run K selectionSort source e = inr (Done (Some st) w') /\
    2 * comparisons st = len (initial e) * (len (initial e) - 1) /\
    swaps st <= Z.max (len (initial e) - 1) 0.
Proof.
  destruct (completed_run selectionSort source _ e _ _ _ eq_refl
              (selectionSortFunc_sorts K (start e))
              (selectionSortFunc_cost K (start e)))
    as (w1 & w' & _ & (Ha & Hb) & _ & Hrun & _).
  eexists _, w'. split; [exact Hrun|].
  cbn in Ha, Hb |- *. split; lia.
Qed.

End RunBooks.

Lemma swapping_variants_books_witness :
  In heapSort [bubbleSort; selectionSort; quickSort; heapSort] /\
  exists st w',
    run quiet heapSort None (quiet_env [3; 1; 2]) = inr (Done (Some st) w') /\
    writes st = 2 * swaps st /\
    Z.of_nat (length (calls (env w'))) =
      Z.of_nat (length (calls (quiet_env [3; 1; 2]))) +
      comparisons st + swaps st + 1.
Proof.
  assert (H : In heapSort [bubbleSort; selectionSort; quickSort; heapSort])
    by (cbn; auto).
  split; [exact H|].
  exact (swapping_variants_books quiet heapSort None (quiet_env [3; 1; 2]) H).
Defined.

Lemma moving_variants_books_witness :
  In insertionSort [insertionSort; mergeSort] /\
  exists st w',
    run quiet insertionSort None (quiet_env [3; 1; 2]) =
      inr (Done (Some st) w') /\
    Z.of_nat (length (calls (env w'))) =
      Z.of_nat (length (calls (quiet_env [3; 1; 2]))) + writes st + 1 /\
    comparisons st <= writes st /\
    writes st = swaps st + Z.max (len (initial (quiet_env [3; 1; 2])) - 1) 0.
Proof.
  assert (H : In insertionSort [insertionSort; mergeSort]) by (cbn; auto).
  split; [exact H|].
  exact (moving_variants_books quiet insertionSort None (quiet_env [3; 1; 2]) H).
Defined.

Lemma radix_sort_books_witness :
  natural (initial (quiet_env [170; 45; 75])) /\
  safe (initial (quiet_env [170; 45; 75])) /\
  exists st w' p,
    run quiet radixSort None (quiet_env [170; 45; 75]) =
      inr (Done (Some st) w') /\
    comparisons st = 0 /\
    swaps st = writes st /\
    writes st = len (initial (quiet_env [170; 45; 75])) * p /\
    Z.of_nat (length (calls (env w'))) =
      Z.of_nat (length (calls (quiet_env [170; 45; 75]))) + writes st + 1 /\
    0 <= p /\
    (forall x, x ∈ initial (quiet_env [170; 45; 75]) -> x < 10 ^ p) /\
    (p = 0 \/ exists x, x ∈ initial (quiet_env [170; 45; 75]) /\ 10 ^ (p - 1) <= x).
Proof.
  assert (H : natural (initial (quiet_env [170; 45; 75])))
    by (unfold natural; cbn; repeat (constructor; [lia|]); constructor).
  assert (Hsafe : safe (initial (quiet_env [170; 45; 75])))
    by (unfold safe; cbn;
        repeat (constructor; [vm_compute; intuition discriminate|]);
        constructor).
  split; [exact H|]. split; [exact Hsafe|].
  exact (radix_sort_books quiet None (quiet_env [170; 45; 75]) H Hsafe).
Defined.

Lemma bucket_sort_books_witness :
  natural (initial (quiet_env [5; 0; 3; 9])) /\
  safe (initial (quiet_env [5; 0; 3; 9])) /\
  exists st w',
    run quiet bucketSort None (quiet_env [5; 0; 3; 9]) =
      inr (Done (Some st) w') /\
    comparisons st = 0 /\
    swaps st = len (initial (quiet_env [5; 0; 3; 9])) /\
    writes st = len (initial (quiet_env [5; 0; 3; 9])) /\
    Z.of_nat (length (calls (env w'))) =
      Z.of_nat (length (calls (quiet_env [5; 0; 3; 9]))) +
      len (initial (quiet_env [5; 0; 3; 9])) + 1.
Proof.
  assert (H : natural (initial (quiet_env [5; 0; 3; 9])))
    by (unfold natural; cbn; repeat (constructor; [lia|]); constructor).
  assert (Hsafe : safe (initial (quiet_env [5; 0; 3; 9])))
    by (unfold safe; cbn;
        repeat (constructor; [vm_compute; intuition discriminate|]);
        constructor).
  split; [exact H|]. split; [exact Hsafe|].
  exact (bucket_sort_books quiet None (quiet_env [5; 0; 3; 9]) H Hsafe).
Defined.

(** ** Bucket sort on a negative cell *)

Section Settles.

Context {Host : Type} (K : Collaborators Host).
Implicit Types (w : World Host).





End Settles.

Section BestCases.

Context {Host : Type} (K : Collaborators Host).
Implicit Types (w : World Host) (e : Env Host).

#[local] Abbreviation never := (fun (_ : JsThrown) (_ : World Host) => False).

Lemma bubbleSortFunc_sorted a st (e0 : Env Host) :
  Sorted Z.le a ->
  returns (bubbleSortFunc K) (mkWorld a st e0) (fun _ w =>
    arr w = a /\
    stats w =
      mkStats (comparisons st + Z.max (len a - 1) 0) (swaps st) (writes st)
        (time st)).
Proof.
  intros Hs. unfold bubbleSortFunc. wp. cbn [bubble_loop]. apply returns_bind.
  eapply returns_conseq; [now apply bubble_pass_sorted|].
  intros swapped w (-> & Ha & Hst). now apply returns_ret.
Qed.

Lemma bogoSortFunc_sorted a st (e0 : Env Host) :
  Sorted Z.le a ->
  returns (bogoSortFunc K) (mkWorld a st e0) (fun _ w =>
    w = mkWorld a
          (mkStats (comparisons st + Z.max (len a - 1) 0) (swaps st)
             (writes st) (time st)) e0).
Proof.
  intros Hs. unfold bogoSortFunc. cbn [bogo_loop]. apply returns_bind.
  unfold bogo_isSorted. wp. eapply returns_conseq.
  - apply bogo_scan_sorted; [lia| |].
    + destruct (decide (len a - 1 <= 0)); [right|left]; lia.
    + intros p Hp. apply Sorted_sel; [done|lia..].
  - intros b w [-> ->]. apply returns_ret. do 2 f_equal. lia.
Qed.

(** X6.  On an array in ascending order a run of bubble sort makes one
    pass: it reports one comparison for every cell but the last, no swap
    and no write, and has invoked the callback once for every comparison and
    once more at the end. *)
Theorem bubble_sort_best_case source e :
  Sorted Z.le (initial e) ->
  exists st w',
    run K bubbleSort source e = inr (Done (Some st) w') /\
    comparisons st = Z.max (len (initial e) - 1) 0 /\
    swaps st = 0 /\ writes st = 0 /\
    Z.of_nat (length (calls (env w'))) =
      Z.of_nat (length (calls e)) + Z.max (len (initial e) - 1) 0 + 1 /\
    arr w' = initial e.
Proof.
  intros Hs. destruct (start_books e) as (Hb & _ & _).
  destruct (completed_run K bubbleSort source _ e _ _ _ eq_refl
              (bubbleSortFunc_sorted _ _ _ Hs)
              (bubbleSortFunc_books K _ _ Hb))
    as (w1 & w' & (Ha & Hst) & (_ & Hc) & _ & Hrun & Hcalls & Harr & _).
  eexists _, w'. split; [exact Hrun|]. unfold shown in Hc.
  rewrite Hcalls, length_app, Harr, Ha. rewrite Hst in Hc |- *.
  cbn in Hc |- *. repeat split; lia.
Qed.

(** X7.  On an array in ascending order a run of bogo sort completes,
    however little patience there is: it reports one comparison for every
    cell but the last, no swap and no write; it draws no random number; and
    it invokes the callback once, at the end, with a copy of the array as it
    was. *)
Theorem bogo_sort_best_case source e :
  Sorted Z.le (initial e) ->
  exists st w',
    run K bogoSort source e = inr (Done (Some st) w') /\
    comparisons st = Z.max (len (initial e) - 1) 0 /\
    swaps st = 0 /\ writes st = 0 /\
    draws (env w') = draws e /\
    calls (env w') =
      calls e ++
        [mkCall (Snapshot (length (snaps e))) (initial e) no_highlight st
           None].
Proof.
  intros Hs.
  destruct (completed_run K bogoSort source _ e _ (fun _ _ => True) never eq_refl
              (bogoSortFunc_sorted _ _ _ Hs))
    as (w1 & w' & -> & _ & _ & Hrun & Hcalls & _ & _ & _ & Hd).
  { eapply ensures_conseq; [apply bogoSortFunc_never_throws|done|done]. }
  eexists _, w'. split; [exact Hrun|]. cbn in Hcalls, Hd |- *.
  repeat split; try lia; done.
Qed.

(** X8.  A completed run of bogo sort reports two writes for every swap; it
    has drawn one random number for every swap; and it has made, in every
    shuffle, one swap for every cell but the first, invoking the callback
    once after every shuffle and once more at the end. *)
Theorem bogo_sort_books source e st w' :
  run K bogoSort source e = inr (Done (Some st) w') ->
  writes st = 2 * swaps st /\
  Z.of_nat (draws (env w')) = Z.of_nat (draws e) + swaps st /\
  swaps st =
    (Z.of_nat (length (calls (env w'))) - Z.of_nat (length (calls e)) - 1) *
    Z.max (len (initial e) - 1) 0.
Proof.
  intros Hrun.
  destruct (run_completed_inv K bogoSort source _ e st w' eq_refl Hrun)
    as (w1 & Hd & -> & Hcalls & _ & _ & Hdr).
  destruct (start_books e) as (_ & _ & Hb).
  pose proof (ensures_Done _ _ _ _ _ _
                (bogo_loop_books K _ _ (S (patience K)) _ Hb) Hd)
    as (H1 & H2 & H3).
  apply bogoSortFunc_sorts in Hd as [Hp _].
  apply perm_len in Hp. cbn [arr start] in Hp.
  rewrite Hcalls, length_app, Hdr. unfold shown in H3. rewrite Hp in H3.
  cbn [writes swaps set_time length]. repeat split; lia.
Qed.


End BestCases.

Lemma bubble_sort_best_case_witness :
  Sorted Z.le (initial (quiet_env [1; 2; 3])) /\
  exists st w',
    run quiet bubbleSort None (quiet_env [1; 2; 3]) =
      inr (Done (Some st) w') /\
    comparisons st = Z.max (len (initial (quiet_env [1; 2; 3])) - 1) 0 /\
    swaps st = 0 /\ writes st = 0 /\
    Z.of_nat (length (calls (env w'))) =
      Z.of_nat (length (calls (quiet_env [1; 2; 3]))) +
      Z.max (len (initial (quiet_env [1; 2; 3])) - 1) 0 + 1 /\
    arr w' = initial (quiet_env [1; 2; 3]).
Proof.
  assert (H : Sorted Z.le (initial (quiet_env [1; 2; 3])))
    by (cbn; repeat constructor; lia).
  split; [exact H|].
  exact (bubble_sort_best_case quiet None (quiet_env [1; 2; 3]) H).
Defined.

Lemma bogo_sort_best_case_witness :
  Sorted Z.le (initial (quiet_env [1; 2; 2; 5])) /\
  exists st w',
    run quiet bogoSort None (quiet_env [1; 2; 2; 5]) =
      inr (Done (Some st) w') /\
    comparisons st = Z.max (len (initial (quiet_env [1; 2; 2; 5])) - 1) 0 /\
    swaps st = 0 /\ writes st = 0 /\
    draws (env w') = draws (quiet_env [1; 2; 2; 5]) /\
    calls (env w') =
      calls (quiet_env [1; 2; 2; 5]) ++
        [mkCall (Snapshot (length (snaps (quiet_env [1; 2; 2; 5]))))
           (initial (quiet_env [1; 2; 2; 5])) no_highlight st None].
Proof.
  assert (H : Sorted Z.le (initial (quiet_env [1; 2; 2; 5])))
    by (cbn; repeat constructor; lia).
  split; [exact H|].
  exact (bogo_sort_best_case quiet None (quiet_env [1; 2; 2; 5]) H).
Defined.

Lemma bogo_sort_books_witness :
  exists st w',
    run lucky bogoSort None (quiet_env [2; 1]) = inr (Done (Some st) w') /\
    swaps st = 1 /\
    writes st = 2 * swaps st /\
    Z.of_nat (draws (env w')) =
      Z.of_nat (draws (quiet_env [2; 1])) + swaps st /\
    swaps st =
      (Z.of_nat (length (calls (env w'))) -
       Z.of_nat (length (calls (quiet_env [2; 1]))) - 1) *
      Z.max (len (initial (quiet_env [2; 1])) - 1) 0.
Proof.
  assert (H : exists st w',
    run lucky bogoSort None (quiet_env [2; 1]) = inr (Done (Some st) w') /\
    swaps st = 1)
    by (eexists _, _; vm_compute; split; reflexivity).
  destruct H as (st & w' & H & Hs). exists st, w'.
  split; [exact H|]. split; [exact Hs|].
  exact (bogo_sort_books lucky None (quiet_env [2; 1]) st w' H).
Defined.


Section Tiny.

Context {Host : Type} (K : Collaborators Host).

(** X10.  On an array of at most one cell bubble, selection, insertion,
    quick, merge, heap and bogo sort return at once: no counter has moved,
    nothing was drawn, and the callback was not invoked. *)
Theorem tiny_arrays_are_left_alone key source f (w : World Host) :
  sortFunc_of K key source = inr f ->
  In key [bubbleSort; selectionSort; insertionSort; quickSort; mergeSort;
          heapSort; bogoSort] ->
  len (arr w) <= 1 ->
  f w = Done tt w.
Proof.
  intros Hf Hkey Hlen. destruct w as [[|x [|y l]] st e0];
    [| |unfold len in Hlen; cbn in Hlen; lia].
  - destruct Hkey as [<-|[<-|[<-|[<-|[<-|[<-|[<-|[]]]]]]]];
      injection Hf as <-; reflexivity.
  - destruct Hkey as [<-|[<-|[<-|[<-|[<-|[<-|[<-|[]]]]]]]];
      injection Hf as <-; reflexivity.
Qed.

End Tiny.

Lemma tiny_arrays_are_left_alone_witness :
  sortFunc_of quiet heapSort None = inr (heapSortFunc quiet) /\
  In heapSort [bubbleSort; selectionSort; insertionSort; quickSort; mergeSort;
               heapSort; bogoSort] /\
  len (arr (start (quiet_env [7]))) <= 1 /\
  heapSortFunc quiet (start (quiet_env [7])) = Done tt (start (quiet_env [7])).
Proof.
  assert (H1 : In heapSort [bubbleSort; selectionSort; insertionSort;
                            quickSort; mergeSort; heapSort; bogoSort])
    by (cbn; auto 10).
  assert (H2 : len (arr (start (quiet_env [7]))) <= 1) by (vm_compute; discriminate).
  split; [reflexivity|]. split; [exact H1|]. split; [exact H2|].
  exact (tiny_arrays_are_left_alone quiet heapSort None (heapSortFunc quiet)
           (start (quiet_env [7])) eq_refl H1 H2).
Defined.

(** ** The arrays of the battle screen *)

Lemma one_to_length size : length (one_to size) = Z.to_nat size.
Proof. unfold one_to. now rewrite length_map, length_seq. Qed.

Lemma elem_of_one_to size x : x ∈ one_to size <-> 1 <= x <= size.
Proof.
  unfold one_to. rewrite list_elem_of_fmap. split.
  - intros (i & -> & Hi). apply elem_of_seq in Hi. lia.
  - intros Hx. exists (Z.to_nat (x - 1)). split; [lia|].
    apply elem_of_seq. lia.
Qed.

Lemma sel_one_to size i : 0 <= i < size -> sel (one_to size) i = i + 1.
Proof.
  intros Hi. unfold sel. apply nth_lookup_Some. unfold one_to.
  rewrite list_lookup_fmap, lookup_seq_lt by lia. cbn. f_equal. lia.
Qed.

Lemma one_to_sorted size : Sorted Z.le (one_to size).
Proof.
  apply sorted_on_Sorted. intros i j Hi _ Hij Hj.
  unfold len in Hj. rewrite one_to_length in Hj.
  rewrite !sel_one_to by lia. lia.
Qed.

Lemma shuffle_from_perm rand k n i l :
  Z.of_nat n <= i -> i < len l -> shuffle_from rand k n i l ≡ₚ l.
Proof.
  revert k i l. induction n as [|n IH]; intros k i l Hn Hi; [done|].
  cbn [shuffle_from]. cbn zeta.
  assert (Hj : 0 <= rand k mod (i + 1) < i + 1) by (apply Z.mod_pos_bound; lia).
  rewrite IH; [|lia|rewrite len_swapped; lia].
  apply swapped_perm; unfold in_range, len in *; lia.
Qed.

Lemma disturb_perm rand size k n l :
  (n <> O -> 0 < size /\ size = len l) -> disturb rand size k n l ≡ₚ l.
Proof.
  revert k l. induction n as [|n IH]; intros k l Hn; [done|].
  cbn [disturb]. cbn zeta. destruct (Hn ltac:(done)) as [Hpos Hs].
  pose proof (Z.mod_pos_bound (rand k) size Hpos).
  pose proof (Z.mod_pos_bound (rand (S k)) size Hpos).
  rewrite IH; [|intros _; now rewrite len_swapped].
  apply swapped_perm; unfold in_range, len in *; lia.
Qed.

Lemma initialArray_perm c rand :
  initialArray c rand ≡ₚ one_to (battle_size c).
Proof.
  unfold initialArray. cbn zeta. destruct (arrayType c).
  - destruct (decide (len (one_to (battle_size c)) = 0)) as [E|E].
    + rewrite E. done.
    + apply shuffle_from_perm; unfold len in *; lia.
  - apply disturb_perm. intros Hn.
    destruct (Z_lt_le_dec 0 (battle_size c)) as [Hpos|Hneg].
    + split; [done|]. unfold len. rewrite one_to_length. lia.
    + exfalso. apply Hn.
      assert (battle_size c / 10 <= 0) by (apply Z.div_le_upper_bound; lia).
      lia.
  - symmetry. apply Permutation_rev.
Qed.

(** A list in ascending order is the only one among its permutations. *)
Lemma Sorted_perm_eq (l1 l2 : list Z) :
  Sorted Z.le l1 -> Sorted Z.le l2 -> l1 ≡ₚ l2 -> l1 = l2.
Proof.
  intros H1 H2.
  apply Sorted_StronglySorted in H1; [|intros x y z; lia].
  apply Sorted_StronglySorted in H2; [|intros x y z; lia].
  revert l2 H2. induction H1 as [|a l1 Hs1 IH Hall1]; intros l2 H2 Hp.
  - now apply Permutation_nil_l in Hp.
  - destruct H2 as [|b l2 Hs2 Hall2].
    + now apply Permutation_nil_r in Hp.
    + rewrite Forall_forall in Hall1, Hall2.
      assert (Hab : a = b).
      { assert (Ha : a ∈ b :: l2) by (rewrite <- Hp; apply elem_of_cons; auto).
        assert (Hb : b ∈ a :: l1) by (rewrite Hp; apply elem_of_cons; auto).
        apply elem_of_cons in Ha as [?|Ha]; [done|].
        apply elem_of_cons in Hb as [?|Hb]; [done|].
        specialize (Hall1 b Hb). specialize (Hall2 a Ha). lia. }
      subst b. f_equal. apply IH; [done|].
      now apply Permutation_cons_inv in Hp.
Qed.

Section Generated.

Context {Host : Type} (K : Collaborators Host).
Implicit Types (w : World Host) (e : Env Host).

(** The variants that sort whatever they are given -- radix and bucket sort
    provided no cell is negative. *)
Lemma deterministic_variant_sorts key source f w :
  sortFunc_of K key source = inr f ->
  key <> userCode -> key <> bogoSort ->
  (key = radixSort \/ key = bucketSort -> natural (arr w)) ->
  returns f w (fun _ w' => arr w' ≡ₚ arr w /\ Sorted Z.le (arr w')).
Proof.
  intros Hf Hu Hb Hnat. unfold natural in Hnat.
  rewrite Forall_forall in Hnat.
  destruct key; cbn in Hf; try done; injection Hf as <-.
  - apply bubbleSortFunc_sorts.
  - apply selectionSortFunc_sorts.
  - apply insertionSortFunc_sorts.
  - apply quickSortFunc_sorts.
  - apply mergeSortFunc_sorts.
  - apply heapSortFunc_sorts.
  - apply radixSortFunc_sorts_naturals. auto.
  - apply bucketSortFunc_sorts_naturals. auto.
Qed.

(** X13.  A run of a deterministic built-in variant -- of radix or bucket
    sort on non-negative safe integers -- completes, and its last invocation of
    the callback passes the final counters, no highlight, no error, and a
    copy of the array that is a permutation of the caller's array in
    ascending order; the caller's array is as it was. *)
Theorem completed_run_delivers_sorted key source e :
  key <> userCode -> key <> bogoSort ->
  (key = radixSort \/ key = bucketSort ->
   natural (initial e) /\ safe (initial e)) ->
  exists st w' cs k sorted,
    run K key source e = inr (Done (Some st) w') /\
    calls (env w') =
      calls e ++ cs ++ [mkCall (Snapshot k) sorted no_highlight st None] /\
    sorted ≡ₚ initial e /\ Sorted Z.le sorted /\
    initial (env w') = initial e.
Proof.
  intros Hu Hb Hnat.
  assert (Hf : exists f, sortFunc_of K key source = inr f)
    by (destruct key; cbn; eauto; done).
  destruct Hf as [f Hf].
  destruct (deterministic_variant_sorts key source f (start e) Hf Hu Hb
              (fun Hk => proj1 (Hnat Hk)))
    as ([] & w1 & Hd & Hp & Hs).
  destruct (run_completes K key source f e w1 Hf Hd)
    as (w' & Hrun & Hcalls & _ & Hi & _).
  assert (Hc : confined K f).
  { apply (sortFunc_of_confined K key source f Hf). intros s ->. done. }
  specialize (Hc (start e)). rewrite Hd in Hc.
  destruct (reach_invariant K _ _ Hc) as (Hi1 & (cs & Hcs & _) & _).
  eexists _, w', cs, _, (arr w1). split; [exact Hrun|].
  rewrite Hcalls, Hcs, <- app_assoc. repeat split; try done.
  now rewrite Hi, Hi1.
Qed.

End Generated.

Lemma initialArray_natural c rand : natural (initialArray c rand).
Proof.
  unfold natural. apply Forall_forall. intros x Hx.
  rewrite initialArray_perm in Hx. apply elem_of_one_to in Hx. lia.
Qed.

(** X11.  Whatever the configuration and the random numbers, the array of a
    battle is a permutation of [1 .. size], where [size] is the configured
    size, or ten if that is larger and bogo sort takes part; so it holds
    positive integers only, and at most ten cells when bogo sort takes
    part. *)
Theorem battle_array_is_a_shuffle c rand :
  initialArray c rand ≡ₚ one_to (battle_size c) /\
  (forall x, x ∈ initialArray c rand <-> 1 <= x <= battle_size c) /\
  natural (initialArray c rand) /\
  (algo1 c = bogoSort \/ algo2 c = bogoSort ->
   len (initialArray c rand) <= 10).
Proof.
  pose proof (initialArray_perm c rand) as Hp.
  split; [done|]. split; [|split].
  - intros x. rewrite Hp. apply elem_of_one_to.
  - apply initialArray_natural.
  - intros Hbogo. unfold len. rewrite (Permutation_length Hp), one_to_length.
    assert (battle_size c <= 10); [|lia].
    unfold battle_size.
    destruct (Z.ltb_spec 10 (arraySize c)) as [Hbig|Hsmall].
    + destruct Hbogo as [-> | ->]; cbn; rewrite ?orb_true_r; cbn; lia.
    + rewrite andb_false_r. lia.
Qed.

Section Battle.

Context {Host : Type} (K : Collaborators Host).
Implicit Types (w : World Host) (e : Env Host).

(** X12.  Every deterministic built-in variant, run on the array of a
    battle, completes, and its last invocation of the callback passes
    [1 .. size]. *)
Theorem battle_array_gets_sorted c rand key source e :
  initial e = initialArray c rand ->
  key <> userCode -> key <> bogoSort ->
  exists st w' cs k,
    run K key source e = inr (Done (Some st) w') /\
    calls (env w') =
      calls e ++ cs ++
        [mkCall (Snapshot k) (one_to (battle_size c)) no_highlight st None].
Proof.
  intros He Hu Hb.
  pose proof (initialArray_perm c rand) as Hp.
  pose proof (initialArray_natural c rand) as Hnat.
  rewrite <- He in Hp, Hnat.
  assert (Hf : exists f, sortFunc_of K key source = inr f)
    by (destruct key; cbn; eauto; done).
  destruct Hf as [f Hf].
  destruct (deterministic_variant_sorts K key source f (start e) Hf Hu Hb
              (fun _ => Hnat))
    as ([] & w1 & Hd & Hps & Hs).
  destruct (run_completes K key source f e w1 Hf Hd)
    as (w' & Hrun & Hcalls & _).
  assert (Hc : confined K f).
  { apply (sortFunc_of_confined K key source f Hf). intros s ->. done. }
  specialize (Hc (start e)). rewrite Hd in Hc.
  destruct (reach_invariant K _ _ Hc) as (_ & (cs & Hcs & _) & _).
  eexists _, w', cs, _. split; [exact Hrun|].
  rewrite Hcalls, Hcs, <- app_assoc. do 4 f_equal.
  apply Sorted_perm_eq; [done|apply one_to_sorted|].
  cbn [arr start] in Hps. now rewrite Hps.
Qed.

End Battle.

Lemma completed_run_delivers_sorted_witness :
  radixSort <> userCode /\ radixSort <> bogoSort /\
  natural (initial (quiet_env [170; 45; 75])) /\
  safe (initial (quiet_env [170; 45; 75])) /\
  exists st w' cs k sorted,
    run quiet radixSort None (quiet_env [170; 45; 75]) =
      inr (Done (Some st) w') /\
    calls (env w') =
      calls (quiet_env [170; 45; 75]) ++ cs ++
        [mkCall (Snapshot k) sorted no_highlight st None] /\
    sorted ≡ₚ initial (quiet_env [170; 45; 75]) /\ Sorted Z.le sorted /\
    initial (env w') = initial (quiet_env [170; 45; 75]).
Proof.
  assert (H : natural (initial (quiet_env [170; 45; 75])))
    by (unfold natural; cbn; repeat (constructor; [lia|]); constructor).
  assert (Hsafe : safe (initial (quiet_env [170; 45; 75])))
    by (unfold safe; cbn;
        repeat (constructor; [vm_compute; intuition discriminate|]);
        constructor).
  split; [discriminate|]. split; [discriminate|]. split; [exact H|].
  split; [exact Hsafe|].
  exact (completed_run_delivers_sorted quiet radixSort None
           (quiet_env [170; 45; 75]) ltac:(discriminate) ltac:(discriminate)
           (fun _ => conj H Hsafe)).
Defined.

Lemma battle_array_gets_sorted_witness :
  initial (quiet_env (initialArray sample_battle sample_numbers)) =
    initialArray sample_battle sample_numbers /\
  heapSort <> userCode /\ heapSort <> bogoSort /\
  battle_size sample_battle = 10 /\
  initialArray sample_battle sample_numbers = [1; 3; 5; 6; 7; 8; 10; 9; 2; 4] /\
  exists st w' cs k,
    run quiet heapSort None
      (quiet_env (initialArray sample_battle sample_numbers)) =
      inr (Done (Some st) w') /\
    calls (env w') =
      calls (quiet_env (initialArray sample_battle sample_numbers)) ++ cs ++
        [mkCall (Snapshot k) (one_to (battle_size sample_battle)) no_highlight
           st None].
Proof.
  split; [reflexivity|]. split; [discriminate|]. split; [discriminate|].
  split; [reflexivity|]. split; [vm_compute; reflexivity|].
  exact (battle_array_gets_sorted quiet sample_battle sample_numbers heapSort
           None (quiet_env (initialArray sample_battle sample_numbers))
           eq_refl ltac:(discriminate) ltac:(discriminate)).
Defined.

(** ** What the arena shows *)

Lemma strip_error_failure m :
  strip_error ("Error: " +:+ m) = skip_spaces m.
Proof. reflexivity. Qed.

Section Live.

Variable script : nat -> ArenaPacing.
Variable random : nat -> Z.
Variable js_eval : string -> EvalOutcome Arena.
Variable new_stack : string -> option string.
Variable patience : nat.

Let K : Collaborators Arena :=
  arena_collaborators script random js_eval new_stack patience.

Hypothesis never_cleaned_up : forall n, ap_cleanup (script n) = false.

Lemma arena_update_live h d (w : World Arena) :
  isCancelled (host (env w)) = false ->
  host (env (update K h d w)) =
    mkArena false (arr w) h (assign_stats (stats w) d) (error (host (env w))).
Proof.
  intros Hc. destruct w as [a s [i0 sn ho cs cl pt ps em dr]].
  cbn [env host] in Hc.
  unfold update, invoke, suspended, copy_arr, with_stats, with_env.
  cbn [deref assign with_env arr stats env initial snaps host calls clock
       pausedTime pauseStartTime emits draws delivered set_snap].
  match goal with |- context [pause_step ?p ?e1] =>
    destruct (pause_step_fields p e1) as (_ & _ & _ & _ & Hh & _);
    destruct (delay_step_fields p (pause_step p e1))
      as (_ & _ & _ & Hh' & _)
  end.
  rewrite Hh', Hh.
  cbn [K arena_collaborators updateCallback pace host]. unfold arenaCallback.
  rewrite Hc. cbn [cb_host]. unfold arena_pace. cbn [meanwhile].
  rewrite never_cleaned_up. rewrite nth_middle. done.
Qed.

Lemma arena_reach_live (w w' : World Arena) :
  reach K w w' ->
  isCancelled (host (env w)) = false ->
  isCancelled (host (env w')) = false /\
  error (host (env w')) = error (host (env w)).
Proof.
  intros Hr. induction Hr as [w|w w1 w' Hstep _ IH]; [done|].
  intros Hc.
  assert (H1 : isCancelled (host (env w1)) = false /\
               error (host (env w1)) = error (host (env w))).
  { destruct Hstep as [w a s|w|w h' d']; try done.
    now rewrite arena_update_live. }
  destruct H1 as [H1 H2]. destruct (IH H1) as [H3 H4].
  split; [done|]. now rewrite H4.
Qed.

Lemma arena_run_live f e (w1 : World Arena) :
  confined K f ->
  (f (start e) = Done tt w1 \/ exists ex, f (start e) = Throw ex w1) ->
  isCancelled (host e) = false ->
  isCancelled (host (env w1)) = false /\
  error (host (env w1)) = error (host e) /\
  initial (env w1) = initial e.
Proof.
  intros Hc Hd Hlive. specialize (Hc (start e)).
  assert (Hr : reach K (start e) w1)
    by (destruct Hd as [Hd|[ex Hd]]; now rewrite Hd in Hc).
  destruct (arena_reach_live _ _ Hr Hlive) as [H1 H2].
  destruct (reach_invariant K _ _ Hr) as (Hi & _).
  done.
Qed.

(** X14.  In an arena whose effect is not cleaned up, when the run of a
    deterministic built-in variant -- of radix or bucket sort on non-negative
    safe integers -- is over, the arena shows a permutation of the initial array
    in ascending order, no highlight, the counters the run returned, and the
    error, if any, it showed before. *)
Theorem arena_shows_the_sorted_array key source e :
  isCancelled (host e) = false ->
  key <> userCode -> key <> bogoSort ->
  (key = radixSort \/ key = bucketSort ->
   natural (initial e) /\ safe (initial e)) ->
  exists st w' sorted,
    run K key source e = inr (Done (Some st) w') /\
    sorted ≡ₚ initial e /\ Sorted Z.le sorted /\
    host (env w') = mkArena false sorted no_highlight st (error (host e)).
Proof.
  intros Hlive Hu Hb Hnat.
  assert (Hf : exists f, sortFunc_of K key source = inr f)
    by (destruct key; cbn; eauto; done).
  destruct Hf as [f Hf].
  destruct (deterministic_variant_sorts K key source f (start e) Hf Hu Hb
              (fun Hk => proj1 (Hnat Hk)))
    as ([] & w1 & Hd & Hp & Hs).
  destruct (run_completes K key source f e w1 Hf Hd)
    as (w' & Hrun & _ & _ & _ & Hh & _).
  assert (Hc : confined K f).
  { apply (sortFunc_of_confined K key source f Hf). intros s ->. done. }
  destruct (arena_run_live f e w1 Hc (or_introl Hd) Hlive) as (H1 & H2 & _).
  eexists _, w', (arr w1). split; [exact Hrun|]. split; [done|]. split; [done|].
  rewrite Hh. cbn [K arena_collaborators updateCallback]. unfold arenaCallback.
  rewrite H1, H2. done.
Qed.

(** X15.  In an arena whose effect is not cleaned up, when the step function
    throws, the arena shows the caller's array as it was given, no highlight,
    the counters at the failure, and as the error the message of the thrown
    [Error] without the white space at its head -- the ["Error: "] the
    engine had put in front is taken off again -- or, for any other thrown
    value, "An unknown error occurred.". *)
Theorem arena_shows_the_error key source f e ex w1 :
  isCancelled (host e) = false ->
  sortFunc_of K key source = inr f ->
  confined K f ->
  f (start e) = Throw ex w1 ->
  exists w',
    run K key source e = inr (Done None w') /\
    host (env w') =
      mkArena false (initial e) no_highlight
        (set_time (clock (env w1) - clock e - pausedTime (env w1)) (stats w1))
        (Some match ex with
              | JsError m _ => skip_spaces m
              | JsOther => "An unknown error occurred."
              end).
Proof.
  intros Hlive Hf Hc Hd.
  destruct (run_fails K key source f e ex w1 Hf Hd) as (w' & Hrun & _ & _ & Hh).
  destruct (arena_run_live f e w1 Hc (or_intror (ex_intro _ ex Hd)) Hlive)
    as (H1 & H2 & H3).
  exists w'. split; [exact Hrun|].
  rewrite Hh. cbn [K arena_collaborators updateCallback]. unfold arenaCallback.
  rewrite H1, H3. cbn [cb_host]. f_equal.
  destruct ex as [m stack|]; [|reflexivity].
  unfold failure_text. rewrite strip_error_failure.
  destruct (decide ("Error: " +:+ m = "")) as [E|_]; [discriminate E|done].
Qed.

End Live.

Lemma arena_shows_the_sorted_array_witness :
  (forall n : nat, ap_cleanup (mkArenaPacing None 0 0 false) = false) /\
  isCancelled (host (arena_env [30; 1; 12])) = false /\
  radixSort <> userCode /\ radixSort <> bogoSort /\
  natural (initial (arena_env [30; 1; 12])) /\
  safe (initial (arena_env [30; 1; 12])) /\
  exists st w' sorted,
    run steady radixSort None (arena_env [30; 1; 12]) =
      inr (Done (Some st) w') /\
    sorted ≡ₚ initial (arena_env [30; 1; 12]) /\ Sorted Z.le sorted /\
    host (env w') =
      mkArena false sorted no_highlight st
        (error (host (arena_env [30; 1; 12]))).
Proof.
  assert (H : natural (initial (arena_env [30; 1; 12])))
    by (unfold natural; cbn; repeat (constructor; [lia|]); constructor).
  assert (Hsafe : safe (initial (arena_env [30; 1; 12])))
    by (unfold safe; cbn;
        repeat (constructor; [vm_compute; intuition discriminate|]);
        constructor).
  split; [reflexivity|]. split; [reflexivity|].
  split; [discriminate|]. split; [discriminate|].
  split; [exact H|]. split; [exact Hsafe|].
  exact (arena_shows_the_sorted_array
           (fun _ => mkArenaPacing None 0 0 false) (fun _ => 0)
           (fun _ => EvalNotCallable) (fun _ => None) 0 (fun _ => eq_refl)
           radixSort None (arena_env [30; 1; 12]) eq_refl
           ltac:(discriminate) ltac:(discriminate) (fun _ => conj H Hsafe)).
Defined.

Lemma arena_shows_the_error_witness :
  (forall n : nat, ap_cleanup (mkArenaPacing None 0 0 false) = false) /\
  isCancelled (host (arena_env [5; -3])) = false /\
  sortFunc_of steady bucketSort None = inr (bucketSortFunc steady) /\
  confined steady (bucketSortFunc steady) /\
  exists ex w1,
    bucketSortFunc steady (start (arena_env [5; -3])) = Throw ex w1 /\
    ex = JsError push_message None /\
    exists w',
      run steady bucketSort None (arena_env [5; -3]) = inr (Done None w') /\
      host (env w') =
        mkArena false (initial (arena_env [5; -3])) no_highlight
          (set_time
             (clock (env w1) - clock (arena_env [5; -3]) - pausedTime (env w1))
             (stats w1))
          (Some match ex with
                | JsError m _ => skip_spaces m
                | JsOther => "An unknown error occurred."
                end).
Proof.
  split; [reflexivity|]. split; [reflexivity|]. split; [reflexivity|].
  split; [apply confined_bucketSortFunc|].
  assert (H : exists ex w1,
    bucketSortFunc steady (start (arena_env [5; -3])) = Throw ex w1 /\
    ex = JsError push_message None)
    by (eexists _, _; vm_compute; split; reflexivity).
  destruct H as (ex & w1 & H & Hex). exists ex, w1.
  split; [exact H|]. split; [exact Hex|].
  exact (arena_shows_the_error
           (fun _ => mkArenaPacing None 0 0 false) (fun _ => 0)
           (fun _ => EvalNotCallable) (fun _ => None) 0 (fun _ => eq_refl)
           bucketSort None (bucketSortFunc steady) (arena_env [5; -3]) ex w1
           eq_refl eq_refl (confined_bucketSortFunc steady) H).
Defined.

(** ** The location in the stack text *)

Lemma span_digits_spec s d r :
  span_digits s = (d, r) ->
  s = d +:+ r /\ all_digits d = true /\ digit_ahead r = false.
Proof.
  revert d r. induction s as [|c s IH]; intros d r H; cbn in H.
  - now injection H as <- <-.
  - destruct (is_digit c) eqn:Hc.
    + destruct (span_digits s) as [d' r'] eqn:Hs. injection H as <- <-.
      destruct (IH d' r' eq_refl) as (-> & Hd & Hr).
      cbn. now rewrite Hc.
    + injection H as <- <-. cbn. now rewrite Hc.
Qed.

Lemma span_digits_app d r :
  all_digits d = true ->
  span_digits (d +:+ r) = (d +:+ fst (span_digits r), snd (span_digits r)).
Proof.
  induction d as [|c d IH]; intros Hd.
  - change (EmptyString +:+ r) with r. now destruct (span_digits r).
  - cbn in Hd. apply andb_true_iff in Hd as [Hc Hd].
    change (String c d +:+ r) with (String c (d +:+ r)).
    cbn [span_digits]. rewrite Hc, (IH Hd). done.
Qed.

Lemma span_digits_stop r :
  digit_ahead r = false -> span_digits r = (EmptyString, r).
Proof. destruct r as [|c r]; cbn; [done|]. now intros ->. Qed.

Lemma strip_prefix_spec p s r : strip_prefix p s = Some r <-> s = p +:+ r.
Proof.
  revert s. induction p as [|a p IH]; intros s; cbn.
  - split; [now intros [= ->]|now intros ->].
  - destruct s as [|b s]; [split; discriminate|].
    destruct (Ascii.eqb_spec a b) as [->|Hne].
    + rewrite IH. split; [now intros ->|now intros [= ->]].
    + split; [discriminate|]. intros [= ? ?]. done.
Qed.

Lemma location_here_sound s l c :
  location_here s = Some (l, c) ->
  exists post,
    s = "<anonymous>:" +:+ l +:+ ":" +:+ c +:+ post /\
    all_digits l = true /\ l <> "" /\
    all_digits c = true /\ c <> "" /\ digit_ahead post = false.
Proof.
  unfold location_here. intros H.
  destruct (strip_prefix "<anonymous>:" s) as [r|] eqn:Hp; [|done].
  apply strip_prefix_spec in Hp as ->.
  destruct (span_digits r) as [d1 r1] eqn:H1.
  apply span_digits_spec in H1 as (-> & Hd1 & Hr1).
  destruct d1 as [|c1 line]; [done|].
  destruct r1 as [|colon r2]; [done|].
  destruct (decide (colon = ":"%char)) as [->|Hne];
    [|destruct colon as [[] [] [] [] [] [] [] []]; done].
  destruct (span_digits r2) as [d2 r3] eqn:H2.
  apply span_digits_spec in H2 as (-> & Hd2 & Hr3).
  destruct d2 as [|c2 column]; [done|]. injection H as <- <-.
  exists r3. repeat split; done.
Qed.

Lemma string_app_nil_r (s : string) : s +:+ "" = s.
Proof.
  induction s as [|c s IH]; [done|].
  change (String c s +:+ "") with (String c (s +:+ "")). now rewrite IH.
Qed.

Lemma location_here_complete l c post :
  all_digits l = true -> l <> "" -> all_digits c = true -> c <> "" ->
  location_here ("<anonymous>:" +:+ l +:+ ":" +:+ c +:+ post) =
    Some (l, c +:+ fst (span_digits post)).
Proof.
  intros Hl Hl0 Hc Hc0. unfold location_here.
  rewrite (proj2 (strip_prefix_spec "<anonymous>:" _ _) eq_refl).
  rewrite (span_digits_app l _ Hl).
  rewrite (span_digits_stop (":" +:+ c +:+ post)) by done.
  cbn [fst snd]. rewrite string_app_nil_r.
  destruct l as [|c1 line]; [done|].
  change (":" +:+ c +:+ post) with (String ":" (c +:+ post)).
  cbv beta iota.
  rewrite (span_digits_app c _ Hc). destruct c as [|c2 column]; [done|].
  reflexivity.
Qed.

Lemma find_location_here s m : location_here s = Some m -> find_location s = Some m.
Proof. intros H. destruct s; cbn [find_location]; now rewrite H. Qed.

Lemma find_location_skip pre s :
  find_location s <> None -> find_location (pre +:+ s) <> None.
Proof.
  intros H. induction pre as [|a pre IH]; [done|].
  change (String a pre +:+ s) with (String a (pre +:+ s)).
  cbn [find_location]. now destruct (location_here _).
Qed.

(** X16.  The location put behind a runtime message is read off the first
    place in the stack text where ["<anonymous>:"] is followed by digits, a
    colon and digits: line and column are these two runs of digits, each as
    long as it can be; and there is a location as soon as the stack text has
    such a place. *)
Theorem stack_location_is_the_anonymous_frame s :
  (forall l c,
     find_location s = Some (l, c) ->
     exists pre post,
       s = pre +:+ "<anonymous>:" +:+ l +:+ ":" +:+ c +:+ post /\
       all_digits l = true /\ l <> "" /\
       all_digits c = true /\ c <> "" /\ digit_ahead post = false) /\
  (forall pre l c post,
     s = pre +:+ "<anonymous>:" +:+ l +:+ ":" +:+ c +:+ post ->
     all_digits l = true -> l <> "" -> all_digits c = true -> c <> "" ->
     find_location s <> None).
Proof.
  split.
  - induction s as [|a s IH]; intros l c H.
    + cbn in H. done.
    + cbn [find_location] in H.
      destruct (location_here (String a s)) as [m|] eqn:Hm.
      * injection H as ->. apply location_here_sound in Hm as (post & Hs).
        exists "", post. done.
      * destruct (IH l c H) as (pre & post & -> & Hrest).
        exists (String a pre), post. done.
  - intros pre l c post -> Hl Hl0 Hc Hc0. apply find_location_skip.
    rewrite (find_location_here _ _ (location_here_complete l c post Hl Hl0 Hc Hc0)).
    done.
Qed.

(** ** The commentary *)

Lemma addCommentary_fold (ts : list string) :
  fold_left (fun log t => addCommentary t log) ts [] =
  map (fun t => "> " +:+ t) (drop (length ts - 101) ts).
Proof.
  induction ts as [|t ts IH] using rev_ind; [done|].
  rewrite fold_left_app. cbn [fold_left]. rewrite IH. unfold addCommentary.
  rewrite length_map, length_drop, length_app. cbn [length].
  destruct (decide (length ts <= 100)%nat) as [Hs|Hb].
  - replace (length ts - 101)%nat with O by lia.
    replace (length ts + 1 - 101)%nat with O by lia.
    replace (length ts - 0 - 100)%nat with O by lia.
    rewrite !drop_0, map_app. done.
  - replace (length ts - (length ts - 101) - 100)%nat with 1%nat by lia.
    rewrite skipn_map, drop_drop.
    replace (length ts - 101 + 1)%nat with (length ts + 1 - 101)%nat by lia.
    rewrite drop_app_le by lia. now rewrite map_app.
Qed.

(** X17.  The commentary of a battle holds the last hundred and one
    messages, each behind ["> "], in the order they came: a message pushes
    out the oldest line only when there are a hundred and one lines
    already. *)
Theorem commentary_keeps_101_lines (ts : list string) :
  let log := fold_left (fun log t => addCommentary t log) ts [] in
  log = map (fun t => "> " +:+ t) (drop (length ts - 101) ts) /\
  length log = Nat.min (length ts) 101.
Proof.
  cbn zeta. rewrite addCommentary_fold. split; [done|].
  rewrite length_map, length_drop. lia.
Qed.

Section Quadratic.

Context {Host : Type} (K : Collaborators Host).
Implicit Types (w : World Host) (e : Env Host).

#[local] Abbreviation never := (fun (_ : JsThrown) (_ : World Host) => False).

Lemma bubble_pass_cost n w :
  ensures (bubble_pass K n) w
    (fun _ w' =>
       comparisons (stats w') = comparisons (stats w) + Z.max (n - 1) 0)
    never.
Proof.
  unfold bubble_pass.
  apply ensures_for_range with (I := fun i _ w' =>
    comparisons (stats w') = comparisons (stats w) + i); [lia| |].
  - intros i s w1 Hi H1. track K; books.
  - intros s w1 H1. lia.
Qed.

Lemma bubble_loop_cost fuel n w :
  ensures (bubble_loop K fuel n) w
    (fun _ w' =>
       2 * (comparisons (stats w') - comparisons (stats w)) <=
       Z.max n 0 * (Z.max n 0 - 1)) never.
Proof.
  revert n w. induction fuel as [|fuel IH]; intros n w; [done|].
  cbn [bubble_loop]. apply ensures_bind.
  eapply ensures_conseq; [apply bubble_pass_cost| |done].
  intros [|] w1 H1.
  - eapply ensures_conseq; [apply IH| |done].
    intros ? w2 H2. cbv beta in *.
    destruct (Z_le_gt_dec n 0).
    + rewrite (Z.max_r (n - 1) 0) in * by lia.
      rewrite (Z.max_r n 0) in * by lia. lia.
    + rewrite (Z.max_l (n - 1) 0) in * by lia.
      rewrite (Z.max_l n 0) in * by lia. nia.
  - apply ensures_ret. cbv beta in *.
    destruct (Z_le_gt_dec n 0).
    + rewrite (Z.max_r (n - 1) 0) in * by lia.
      rewrite (Z.max_r n 0) in * by lia. lia.
    + rewrite (Z.max_l (n - 1) 0) in * by lia.
      rewrite (Z.max_l n 0) in * by lia.
      assert (0 <= (n - 1) * (n - 2))
        by (destruct (decide (n = 1)) as [->|]; [lia|apply Z.mul_nonneg_nonneg; lia]).
      nia.
Qed.

Lemma insertion_shift_cost i current w :
  0 <= i ->
  ensures (insertion_shift K i current) w
    (fun j w' =>
       -1 <= j /\
       comparisons (stats w') = comparisons (stats w) + (i - 1 - j)) never.
Proof.
  intros Hi. unfold insertion_shift.
  apply ensures_while_loop with (I := fun j w' =>
    -1 <= j /\
    comparisons (stats w') = comparisons (stats w) + (i - 1 - j)); [lia|].
  intros j w1 [H1 H2]. destruct (Z.leb_spec 0 j).
  - track K. destruct (current <? _); [|done]. track K. split; books.
  - track K. done.
Qed.

Lemma insertionSortFunc_cost w :
  ensures (insertionSortFunc K) w
    (fun _ w' =>
       2 * (comparisons (stats w') - comparisons (stats w)) <=
       len (arr w) * (len (arr w) - 1)) never.
Proof.
  unfold insertionSortFunc. track K. set (n := len (arr w)).
  assert (Hn : 0 <= n) by (unfold n, len; lia).
  apply ensures_for_range with (I := fun i _ w' =>
    2 * (comparisons (stats w') - comparisons (stats w)) <= i * (i - 1));
    [lia| |].
  - intros i ? w1 Hi H1. track K.
    eapply ensures_conseq; [apply insertion_shift_cost; lia| |done].
    intros j w2 [Hj Hc]. cbn [arr stats env] in Hc.
    destruct (Z.leb_spec 0 j); track K; cbn [comparisons]; nia.
  - intros ? w1 H1. cbv beta in H1.
    destruct (Z.max_spec 1 n) as [[? E]|[? E]]; rewrite E in H1; nia.
Qed.

Lemma quick_partition_cost low high w :
  low < high ->
  ensures (quick_partition K low high) w
    (fun p w' =>
       low <= p <= high /\
       comparisons (stats w') = comparisons (stats w) + (high - low)) never.
Proof.
  intros Hlh. unfold quick_partition. track K.
  apply ensures_for_range with (I := fun j i w' =>
    low - 1 <= i < j /\
    comparisons (stats w') = comparisons (stats w) + (j - low)); [lia| |].
  - intros j i w1 Hj [Hi Hc]. track K; split; books.
  - intros i w1 [Hi Hc]. track K. split; books.
Qed.

Lemma quick_sort_cost fuel low high w :
  ensures (quick_sort K fuel low high) w
    (fun _ w' =>
       2 * (comparisons (stats w') - comparisons (stats w)) <=
       Z.max (high - low + 1) 0 * (Z.max (high - low + 1) 0 - 1)) never.
Proof.
  revert low high w. induction fuel as [|fuel IH]; intros low high w; [done|].
  cbn [quick_sort]. destruct (Z.ltb_spec low high) as [Hlt|Hge].
  - apply ensures_bind.
    eapply ensures_conseq; [now apply quick_partition_cost| |done].
    intros p w1 [Hp Hc]. apply ensures_bind.
    eapply ensures_conseq; [apply IH| |done].
    intros ? w2 H2. eapply ensures_conseq; [apply IH| |done].
    intros ? w3 H3. cbv beta in *.
    replace (Z.max (p - 1 - low + 1) 0) with (p - low) in H2 by lia.
    replace (Z.max (high - (p + 1) + 1) 0) with (high - p) in H3 by lia.
    replace (Z.max (high - low + 1) 0) with (high - low + 1) by lia.
    nia.
  - apply ensures_ret. nia.
Qed.

Lemma quickSortFunc_cost w :
  ensures (quickSortFunc K) w
    (fun _ w' =>
       2 * (comparisons (stats w') - comparisons (stats w)) <=
       len (arr w) * (len (arr w) - 1)) never.
Proof.
  unfold quickSortFunc. track K.
  eapply ensures_conseq; [apply quick_sort_cost| |done].
  intros ? w1 H1. cbv beta in H1.
  replace (Z.max (len (arr w) - 1 - 0 + 1) 0) with (len (arr w)) in H1
    by (unfold len; lia).
  done.
Qed.

Lemma bubbleSortFunc_cost w :
  ensures (bubbleSortFunc K) w
    (fun _ w' =>
       2 * (comparisons (stats w') - comparisons (stats w)) <=
       len (arr w) * (len (arr w) - 1)) never.
Proof.
  unfold bubbleSortFunc. track K.
  eapply ensures_conseq; [apply bubble_loop_cost| |done].
  intros ? w1 H1. cbv beta in H1.
  replace (Z.max (len (arr w)) 0) with (len (arr w)) in H1
    by (unfold len; lia).
  done.
Qed.

(** X18.  A run of bubble, selection, insertion or quick sort reports at
    most one comparison for every pair of cells. *)
Theorem quadratic_variants_cost key source e :
  In key [bubbleSort; selectionSort; insertionSort; quickSort] ->
  exists st w',
    run K key source e = inr (Done (Some st) w') /\
    2 * comparisons st <= len (initial e) * (len (initial e) - 1).
Proof.
  intros Hkey.
  assert (H : exists f,
    sortFunc_of K key source = inr f /\
    returns f (start e) (fun _ _ => True) /\
    ensures f (start e)
      (fun _ w' =>
         2 * (comparisons (stats w') - comparisons (stats (start e))) <=
         len (arr (start e)) * (len (arr (start e)) - 1)) never).
  { destruct Hkey as [<-|[<-|[<-|[<-|[]]]]]; eexists; (split; [reflexivity|]).
    - split; [|apply bubbleSortFunc_cost].
      eapply returns_conseq; [apply bubbleSortFunc_sorts|done].
    - split.
      + eapply returns_conseq; [apply selectionSortFunc_sorts|done].
      + eapply ensures_conseq; [apply selectionSortFunc_cost| |done].
        intros ? w1 [H1 _]. lia.
    - split; [|apply insertionSortFunc_cost].
      eapply returns_conseq; [apply insertionSortFunc_sorts|done].
    - split; [|apply quickSortFunc_cost].
      eapply returns_conseq; [apply quickSortFunc_sorts|done]. }
  destruct H as (f & Hf & Hr & He).
  destruct (completed_run K _ _ _ _ _ _ _ Hf Hr He)
    as (w1 & w' & _ & Hc & _ & Hrun & _).
  eexists _, w'. split; [exact Hrun|]. cbn in Hc |- *. lia.
Qed.

End Quadratic.

Lemma quadratic_variants_cost_witness :
  In quickSort [bubbleSort; selectionSort; insertionSort; quickSort] /\
  exists st w',
    run quiet quickSort None (quiet_env [3; 1; 2]) = inr (Done (Some st) w') /\
    2 * comparisons st <=
      len (initial (quiet_env [3; 1; 2])) *
      (len (initial (quiet_env [3; 1; 2])) - 1).
Proof.
  assert (H : In quickSort [bubbleSort; selectionSort; insertionSort; quickSort])
    by (cbn; auto).
  split; [exact H|].
  exact (quadratic_variants_cost quiet quickSort None (quiet_env [3; 1; 2]) H).
Defined.

Lemma log2_up_half s :
  2 <= s -> Z.log2_up ((s - 1) / 2 + 1) <= Z.log2_up s - 1.
Proof.
  intros Hs.
  assert (HL : 0 < Z.log2_up s) by (apply Z.log2_up_pos; lia).
  destruct (Z.log2_log2_up_spec s ltac:(lia)) as [_ Hup].
  apply Z.log2_up_le_pow2; [Z.div_mod_to_equations; lia|].
  replace (Z.log2_up s) with (Z.succ (Z.log2_up s - 1)) in Hup by lia.
  rewrite Z.pow_succ_r in Hup by lia.
  Z.div_mod_to_equations. lia.
Qed.

Section MergeCost.

Context {Host : Type} (K : Collaborators Host).
Implicit Types (w : World Host) (e : Env Host).

#[local] Abbreviation never := (fun (_ : JsThrown) (_ : World Host) => False).

Lemma merge_drain_cost L n i k w :
  ensures (merge_drain K L n (i, k)) w
    (fun _ w' => writes (stats w') = writes (stats w) + Z.max (n - i) 0)
    never.
Proof.
  unfold merge_drain.
  apply ensures_while_loop with (I := fun ik w' =>
    i <= fst ik <= Z.max i n /\
    writes (stats w') = writes (stats w) + (fst ik - i)); [cbn; lia|].
  intros [i' k'] w1 [Hi Hw]. cbn [fst] in *. track K.
  destruct (Z.ltb_spec i' n).
  - track K. cbn [fst]. split; books.
  - lia.
Qed.

(** A merge writes every cell of its range once. *)
Lemma merge_merge_cost l m r w :
  l <= m <= r ->
  ensures (merge_merge K l m r) w
    (fun _ w' => writes (stats w') = writes (stats w) + (r - l + 1)) never.
Proof.
  intros Hm. unfold merge_merge. cbn zeta. apply ensures_bind.
  eapply ensures_conseq; [apply merge_slice_books| |done].
  intros L w1 ->. apply ensures_bind.
  eapply ensures_conseq; [apply merge_slice_books| |done].
  intros R w1 ->. apply ensures_bind.
  apply ensures_conseq with
    (Q := fun ijk w' =>
       0 <= fst (fst ijk) <= m - l + 1 /\ 0 <= snd (fst ijk) <= r - m /\
       writes (stats w') =
         writes (stats w) + fst (fst ijk) + snd (fst ijk))
    (E := never); [| |done].
  - apply ensures_while_loop with (I := fun ijk w' =>
      0 <= fst (fst ijk) <= m - l + 1 /\ 0 <= snd (fst ijk) <= r - m /\
      writes (stats w') =
        writes (stats w) + fst (fst ijk) + snd (fst ijk)); [cbn; lia|].
    intros [[i j] k] w1 (Hi & Hj & Hw). cbn [fst snd] in *. track K.
    destruct (Z.ltb_spec i (m - l + 1)); destruct (Z.ltb_spec j (r - m));
      cbn [andb]; try done.
    track K; cbn [fst snd]; repeat split; books.
  - intros [[i j] k] w1 (Hi & Hj & Hw). cbn [fst snd] in *.
    apply ensures_bind.
    eapply ensures_conseq; [apply merge_drain_cost| |done].
    intros ik w2 H2. apply ensures_bind.
    eapply ensures_conseq; [apply merge_drain_cost| |done].
    intros jk w3 H3. apply ensures_ret. cbv beta in *. lia.
Qed.

Lemma merge_sort_cost fuel l r w :
  ensures (merge_sort K fuel l r) w
    (fun _ w' =>
       writes (stats w') - writes (stats w) <=
       Z.max (r - l + 1) 1 * Z.log2_up (Z.max (r - l + 1) 1)) never.
Proof.
  revert l r w. induction fuel as [|fuel IH]; intros l r w; [done|].
  cbn [merge_sort]. destruct (Z.leb_spec r l) as [Hle|Hlt].
  - apply ensures_ret. replace (Z.max (r - l + 1) 1) with 1 by lia. cbn. lia.
  - cbn zeta. set (m := l + (r - l) / 2).
    assert (Hm : l <= m < r) by (unfold m; Z.div_mod_to_equations; lia).
    apply ensures_bind. eapply ensures_conseq; [apply IH| |done].
    intros ? w1 H1. apply ensures_bind.
    eapply ensures_conseq; [apply IH| |done].
    intros ? w2 H2.
    eapply ensures_conseq; [apply merge_merge_cost; lia| |done].
    intros ? w3 H3. cbv beta in *.
    set (s := r - l + 1) in *.
    replace (Z.max s 1) with s by lia.
    replace (Z.max (m - l + 1) 1) with ((s - 1) / 2 + 1) in H1
      by (unfold m, s; Z.div_mod_to_equations; lia).
    pose proof (log2_up_half s ltac:(lia)) as Hhalf.
    assert (Hs2 : 1 <= r - (m + 1) + 1 <= (s - 1) / 2 + 1)
      by (unfold m, s; Z.div_mod_to_equations; lia).
    replace (Z.max (r - (m + 1) + 1) 1) with (r - (m + 1) + 1) in H2 by lia.
    pose proof (Z.log2_up_le_mono (r - (m + 1) + 1) ((s - 1) / 2 + 1)
                  ltac:(lia)) as Hmono.
    pose proof (Z.log2_up_nonneg (r - (m + 1) + 1)).
    pose proof (Z.log2_up_nonneg ((s - 1) / 2 + 1)).
    assert (Hsum : (s - 1) / 2 + 1 + (r - (m + 1) + 1) = s)
      by (unfold m, s; Z.div_mod_to_equations; lia).
    nia.
Qed.

(** X19.  A run of merge sort reports at most [n] writes for every halving
    it takes to get from [n] cells down to one, and no more comparisons than
    writes. *)
Theorem merge_sort_cost_bound source e :
  exists st w',
    run K mergeSort source e = inr (Done (Some st) w') /\
    writes st <=
      Z.max (len (initial e)) 1 * Z.log2_up (Z.max (len (initial e)) 1) /\
    comparisons st <= writes st.
Proof.
  destruct (start_books e) as (_ & Hs & _).
  assert (He : ensures (mergeSortFunc K) (start e)
    (fun _ w' =>
       writes (stats w') <=
         Z.max (len (initial e)) 1 * Z.log2_up (Z.max (len (initial e)) 1))
    never).
  { unfold mergeSortFunc. track K.
    eapply ensures_conseq; [apply merge_sort_cost| |done].
    intros ? w1 H1. cbv beta in H1. unfold start, zero_stats in H1.
    cbn [arr stats writes] in H1.
    replace (len (initial e) - 1 - 0 + 1) with (len (initial e)) in H1 by lia.
    lia. }
  pose proof (returns_ensures _ _ _ _ never
                (mergeSortFunc_sorts K (start e)) He) as Hr.
  destruct (completed_run K mergeSort source _ e _ _ _ eq_refl Hr
              (mergeSortFunc_books K _ _ Hs))
    as (w1 & w' & (_ & Hw) & (_ & _ & Hc) & _ & Hrun & _).
  eexists _, w'. split; [exact Hrun|]. cbn. split; done.
Qed.

End MergeCost.

Section HeapCost.

Context {Host : Type} (K : Collaborators Host).
Implicit Types (w : World Host) (e : Env Host).

#[local] Abbreviation never := (fun (_ : JsThrown) (_ : World Host) => False).

Lemma heap_child_cost size c largest w :
  ensures (heap_child K size c largest) w
    (fun r w' =>
       (r = largest \/ r = c /\ c < size) /\
       comparisons (stats w) <= comparisons (stats w') <=
         comparisons (stats w) + 1) never.
Proof.
  unfold heap_child. destruct (Z.ltb_spec c size).
  - track K. split; [|lia]. destruct (_ <? _); auto.
  - track K. split; [auto|lia].
Qed.

(** Sifting down from node [i] takes two comparisons for each level below
    it. *)
Lemma heap_heapify_cost fuel size i w :
  0 <= i < size ->
  ensures (heap_heapify K fuel size i) w
    (fun _ w' =>
       comparisons (stats w') - comparisons (stats w) <=
       2 * (Z.log2 size - Z.log2 (i + 1) + 1)) never.
Proof.
  revert i w. induction fuel as [|fuel IH]; intros i w Hi; [done|].
  pose proof (Z.log2_le_mono (i + 1) size ltac:(lia)) as Hmono.
  cbn [heap_heapify]. apply ensures_bind.
  eapply ensures_conseq; [apply heap_child_cost| |done].
  intros l1 w1 [Hl1 Hc1]. apply ensures_bind.
  eapply ensures_conseq; [apply heap_child_cost| |done].
  intros l2 w2 [Hl2 Hc2]. destruct (Z.eqb_spec l2 i) as [->|Hne]; cbn [negb].
  - apply ensures_ret. lia.
  - track K.
    assert (Hl : 2 * i + 1 <= l2 < size) by lia.
    eapply ensures_conseq; [apply IH; lia| |done].
    intros ? w3 Hrec. cbn [arr stats env comparisons] in Hrec.
    pose proof (Z.log2_le_mono (2 * (i + 1)) (l2 + 1) ltac:(lia)) as Hm2.
    rewrite Z.log2_double in Hm2 by lia. lia.
Qed.

Lemma heapSortFunc_cost w :
  ensures (heapSortFunc K) w
    (fun _ w' =>
       comparisons (stats w') - comparisons (stats w) <=
       3 * len (arr w) * (Z.log2 (len (arr w)) + 1)) never.
Proof.
  unfold heapSortFunc. track K. set (n := len (arr w)).
  assert (Hn : 0 <= n) by (unfold n, len; lia).
  pose proof (Z.log2_nonneg n) as HL. set (L := Z.log2 n) in *.
  assert (Hhalf : 0 <= n / 2 /\ 2 * (n / 2) <= n)
    by (Z.div_mod_to_equations; lia).
  apply ensures_conseq with
    (Q := fun (_ : unit) w' =>
       comparisons (stats w') - comparisons (stats w) <=
       2 * (L + 1) * (n / 2))
    (E := never); [| |done].
  - apply ensures_for_range_down with (I := fun i (_ : unit) w' =>
      -1 <= i /\
      comparisons (stats w') - comparisons (stats w) <=
      2 * (L + 1) * (n / 2 - 1 - i)); [split; lia| |].
    + intros i ? w1 Hi [_ H1].
      eapply ensures_conseq; [apply heap_heapify_cost; lia| |done].
      intros ? w2 H2. cbv beta in *. fold L in H2.
      pose proof (Z.log2_nonneg (i + 1)). split; [lia|]. nia.
    + intros ? w1 [Hi H1]. cbv beta in *.
      replace (Z.min (n / 2 - 1) (0 - 1)) with (-1) in H1 by lia.
      replace (n / 2 - 1 - -1) with (n / 2) in H1 by lia. done.
  - intros ? w1 H1.
    apply ensures_for_range_down with (I := fun i (_ : unit) w' =>
      -1 <= i /\
      comparisons (stats w') - comparisons (stats w) <=
      2 * (L + 1) * (n / 2) + 2 * (L + 1) * (n - 1 - i)); [split; lia| |].
    + intros i ? w2 Hi [_ H2]. track K.
      eapply ensures_conseq; [apply heap_heapify_cost; lia| |done].
      intros ? w3 Hrec. cbn [arr stats env comparisons] in Hrec.
      change (Z.log2 (0 + 1)) with 0 in Hrec.
      pose proof (Z.log2_le_mono i n ltac:(lia)) as Hm. fold L in Hm.
      split; [lia|]. nia.
    + intros ? w2 [Hi H2]. cbv beta in *.
      destruct (decide (n = 0)) as [E|E].
      * rewrite E in *. cbn in H2 |- *. lia.
      * replace (Z.min (n - 1) (1 - 1)) with 0 in H2 by lia. nia.
Qed.

(** X20.  A run of heap sort reports at most [3 n (log2 n + 1)]
    comparisons, for [n] cells. *)
Theorem heap_sort_cost_bound source e :
  exists st w',
    run K heapSort source e = inr (Done (Some st) w') /\
    comparisons st <=
      3 * len (initial e) * (Z.log2 (len (initial e)) + 1).
Proof.
  destruct (completed_run K heapSort source _ e _ _ _ eq_refl
              (heapSortFunc_sorts K (start e))
              (heapSortFunc_cost (start e)))
    as (w1 & w' & _ & Hc & _ & Hrun & _).
  eexists _, w'. split; [exact Hrun|]. unfold start, zero_stats in Hc.
  cbn [arr stats comparisons] in Hc. cbn [comparisons set_time]. lia.
Qed.

End HeapCost.
